(** * Facial-Recognition-Quality-Tester: the downscale cache, the all-pairs
      comparison and the per-size aggregation of [frqt.js]

    The development follows the layout of the script: first the JavaScript
    built-ins the script calls (number rendering, [parseInt], [split],
    [isNaN], the insertion-ordered [Map]), then the part of Node's [fs] API
    it uses over an explicit file system, then the functions of the script
    in their order of appearance, and finally the properties.

    The script is asynchronous.  Every [async] callback runs synchronously
    up to its first [await]; the timers of [recognizeFace] all have the same
    delay and fire in creation order; [Promise.all] collects results by
    position.  A run in which every task succeeds is therefore described by
    the sequential composition of the tasks in array order, which is what
    [Promise_all] below does.  The order in which the writes of the
    population reach the disk is the scheduler's; what is proved about the
    cache holds for every order ([cacheImage_any_order]).  When a task
    rejects, the combined promise rejects and [Promise_all] stops there,
    but the tasks after it are still in flight: the [finally] block of the
    pipeline runs while they write, and each run fixes when they do
    ([settles]). *)

From Stdlib Require Import PrimFloat Uint63 ZArith NArith Ascii String List Lia.
From Stdlib Require Strings.Byte.
From stdpp Require Import gmap strings list fin_maps.

Local Open Scope string_scope.
Local Open Scope list_scope.
Local Open Scope Z_scope.

(** ** JavaScript built-ins *)

Module JS.

(** *** Decimal digits *)

Definition digit_char (d : N) : ascii := ascii_of_N (48 + d).

Definition digit_of_char (c : ascii) : option N :=
  let n := N_of_ascii c in
  if ((48 <=? n) && (n <=? 57))%N then Some (n - 48)%N else None.

(** Digits of [n], most significant first, in front of [acc]. *)
Fixpoint digits_go (fuel : nat) (n : N) (acc : list N) : list N :=
  match fuel with
  | O => acc
  | S fuel' =>
      if (n =? 0)%N then acc
      else digits_go fuel' (n / 10)%N ((n mod 10)%N :: acc)
  end.

Definition digits (n : N) : list N :=
  if (n =? 0)%N then [0%N] else digits_go (N.size_nat n) n [].

Fixpoint string_of_digits (ds : list N) : string :=
  match ds with
  | [] => ""
  | d :: ds' => String (digit_char d) (string_of_digits ds')
  end.

Fixpoint strip_zeros_rev (ds : list N) : list N :=
  match ds with
  | 0%N :: ds' => strip_zeros_rev ds'
  | _ => ds
  end.

(** [ds] without its trailing zeros. *)
Definition strip_trailing_zeros (ds : list N) : list N :=
  rev (strip_zeros_rev (rev ds)).

(** *** Number::toString (ECMA-262 6.1.6.1.20) on integral Numbers

    A width is an integral Number; the model keeps its mathematical value.
    Below 10^21 the digits of the value are printed; from 10^21 on the
    result is in exponent form: first digit, the remaining significant
    digits after a point, then [e+] and the decimal exponent.  (For
    Numbers above 2^53 an engine prints the shortest digits that read back
    as the same double; those agree with the digits of the value on every
    safe integer and on the powers of ten used below.) *)
Definition Number_toString_pos (n : N) : string :=
  let ds := digits n in
  if (n <? 10 ^ 21)%N then string_of_digits ds
  else
    match ds with
    | [] => ""
    | d :: rest =>
        let e := "e+" +:+ string_of_digits (digits (N.of_nat (length rest))) in
        match strip_trailing_zeros rest with
        | [] => String (digit_char d) e
        | frac => String (digit_char d) ("." +:+ string_of_digits frac +:+ e)
        end
    end.

Definition Number_toString (z : Z) : string :=
  match z with
  | Z0 => "0"
  | Zpos p => Number_toString_pos (Npos p)
  | Zneg p => "-" +:+ Number_toString_pos (Npos p)
  end.

(** *** String.prototype.split(sep)[0] for a one-character separator:
    the part of [s] before the first [sep], all of [s] if there is none. *)
Fixpoint split_0 (sep : ascii) (s : string) : string :=
  match s with
  | EmptyString => ""
  | String c r => if Ascii.eqb c sep then "" else String c (split_0 sep r)
  end.

(** *** parseInt(s, 10) (ECMA-262 19.2.5)

    Leading white space is skipped, one sign is read, then the longest run
    of decimal digits; no digit at all gives NaN, which is [None].  The
    result is kept as a mathematical integer. *)
Definition is_white_space (c : ascii) : bool :=
  let n := N_of_ascii c in
  ((9 <=? n) && (n <=? 13) || (n =? 32))%N.

Fixpoint skip_white_space (s : string) : string :=
  match s with
  | String c r => if is_white_space c then skip_white_space r else s
  | EmptyString => s
  end.

Fixpoint parse_digits (s : string) (acc : option N) : option N :=
  match s with
  | String c r =>
      match digit_of_char c with
      | Some d => parse_digits r (Some (10 * default 0 acc + d)%N)
      | None => acc
      end
  | EmptyString => acc
  end.

Definition parseInt (s : string) : option Z :=
  match skip_white_space s with
  | String "-" r => (λ n, - Z.of_N n) <$> parse_digits r None
  | String "+" r => Z.of_N <$> parse_digits r None
  | r => Z.of_N <$> parse_digits r None
  end.

(** *** Array.prototype.indexOf and toSpliced on the elements of an array *)

(** Position of the first element equal to [x], or -1. *)
Fixpoint indexOf (l : list string) (x : string) : Z :=
  match l with
  | [] => -1
  | y :: l' =>
      if String.eqb y x then 0
      else let i := indexOf l' x in if i =? -1 then -1 else i + 1
  end.

(** A copy of [l] without the [deleteCount] elements from [start] on
    (called with [0 <= start] only). *)
Definition toSpliced (l : list string) (start : Z) (deleteCount : nat) : list string :=
  take (Z.to_nat start) l ++ drop (Z.to_nat start + deleteCount) l.

(** *** JSON values, as [JSON.parse] returns them

    Number literals are kept when they are integral; the script treats a
    literal with a fraction exactly like an integral one until the codec
    sees it. *)
#[local] Set Warnings "-register-all".
Inductive json : Type :=
| JNull
| JBool (b : bool)
| JNum (z : Z)
| JStr (s : string)
| JArr (elements : list json)
| JObj (fields : list (string * json)).

Fixpoint join (sep : string) (l : list string) : string :=
  match l with
  | [] => ""
  | [x] => x
  | x :: l' => x +:+ sep +:+ join sep l'
  end.

(** ToString (ECMA-262 7.1.17); an array is joined with commas, with the
    empty string for [null]; a plain object is [[object Object]]. *)
Fixpoint ToString (v : json) : string :=
  match v with
  | JNull => "null"
  | JBool true => "true"
  | JBool false => "false"
  | JNum z => Number_toString z
  | JStr s => s
  | JArr l =>
      join "," (map (λ e, match e with JNull => "" | _ => ToString e end) l)
  | JObj _ => "[object Object]"
  end.

(** *** StringToNumber (ECMA-262 7.1.4.1.1): is the result NaN? *)

Definition is_digit (c : ascii) : bool := bool_decide (is_Some (digit_of_char c)).

Fixpoint skip_digits (s : string) : string :=
  match s with
  | String c r => if is_digit c then skip_digits r else s
  | EmptyString => s
  end.

Definition starts_with_digit (s : string) : bool :=
  match s with
  | String c _ => is_digit c
  | EmptyString => false
  end.

Fixpoint all_chars (p : ascii → bool) (s : string) : bool :=
  match s with
  | String c r => p c && all_chars p r
  | EmptyString => true
  end.

Definition one_of (cs : string) (c : ascii) : bool :=
  existsb (Ascii.eqb c) (list_ascii_of_string cs).

(** The empty string or an ExponentPart. *)
Definition exponent_ok (s : string) : bool :=
  match s with
  | EmptyString => true
  | String c r =>
      one_of "eE" c &&
      let r' := match r with
                | String "+" t => t
                | String "-" t => t
                | _ => r
                end in
      starts_with_digit r' && String.eqb (skip_digits r') ""
  end.

(** StrUnsignedDecimalLiteral *)
Definition unsigned_decimal_ok (s : string) : bool :=
  String.eqb s "Infinity" ||
  match s with
  | String "." r => starts_with_digit r && exponent_ok (skip_digits r)
  | _ =>
      starts_with_digit s &&
      match skip_digits s with
      | String "." r => exponent_ok (skip_digits r)
      | r => exponent_ok r
      end
  end.

(** StrDecimalLiteral: an optional sign in front. *)
Definition decimal_ok (s : string) : bool :=
  match s with
  | String "+" r => unsigned_decimal_ok r
  | String "-" r => unsigned_decimal_ok r
  | _ => unsigned_decimal_ok s
  end.

(** NonDecimalIntegerLiteral: [0x], [0o] or [0b] and at least one digit. *)
Definition non_decimal_ok (s : string) : bool :=
  match s with
  | String "0" (String c r) =>
      negb (String.eqb r "") &&
      (if one_of "xX" c then all_chars (one_of "0123456789abcdefABCDEF") r
       else if one_of "oO" c then all_chars (one_of "01234567") r
       else if one_of "bB" c then all_chars (one_of "01") r
       else false)
  | _ => false
  end.

Definition trim (s : string) : string :=
  String.rev (skip_white_space (String.rev (skip_white_space s))).

Definition StringToNumber_isNaN (s : string) : bool :=
  let t := trim s in
  if String.eqb t "" then false else negb (decimal_ok t || non_decimal_ok t).

(** *** isNaN(v) (ECMA-262 19.2.3): ToNumber of [v] is NaN.  [null] and
    the booleans convert to 0 and 1, a string is read as a numeric
    literal, an array or object goes through its string. *)
Definition isNaN (v : json) : bool :=
  match v with
  | JNull | JBool _ | JNum _ => false
  | JStr s => StringToNumber_isNaN s
  | JArr _ | JObj _ => StringToNumber_isNaN (ToString v)
  end.

Definition Array_isArray (v : json) : bool :=
  match v with
  | JArr _ => true
  | _ => false
  end.

(** *** Map: keys in insertion order (ECMA-262 24.1); [set] on a present
    key replaces its value in place. *)
Section Map.
Context {K V : Type} `{EqDecision K}.

Fixpoint Map_get (m : list (K * V)) (k : K) : option V :=
  match m with
  | [] => None
  | (k', v) :: m' => if decide (k' = k) then Some v else Map_get m' k
  end.

Fixpoint Map_set (m : list (K * V)) (k : K) (v : V) : list (K * V) :=
  match m with
  | [] => [(k, v)]
  | (k', v') :: m' =>
      if decide (k' = k) then (k', v) :: m' else (k', v') :: Map_set m' k v
  end.

Definition Map_keys (m : list (K * V)) : list K := m.*1.
Definition Map_values (m : list (K * V)) : list V := m.*2.
End Map.

End JS.

(** ** The world the script runs in *)

Abbreviation path := (list string).
Abbreviation Buffer := (list Byte.byte).
Abbreviation loc := nat.

Inductive node : Type :=
| File (data : Buffer)
| Directory.

Inductive Error : Type :=
| ENOENT
| ENOTDIR
| EISDIR
| EEXIST
| ENOTEMPTY
| CodecError
| SyntaxError
| TypeError
| MkError (message : string).

Definition message (e : Error) : string :=
  match e with
  | ENOENT => "ENOENT: no such file or directory"
  | ENOTDIR => "ENOTDIR: not a directory"
  | EISDIR => "EISDIR: illegal operation on a directory"
  | EEXIST => "EEXIST: file already exists"
  | ENOTEMPTY => "ENOTEMPTY: directory not empty"
  | CodecError => "Input file is missing or of an unsupported image format"
  | SyntaxError => "Unexpected token in JSON"
  | TypeError => "TypeError"
  | MkError m => m
  end.

(** One comparison: the size read from the other entry's name ([None] is
    NaN) and the oracle's score. *)
Record ComparisonResult : Type := mkResult {
  size : option Z;
  score : float
}.

(** The chart specification [createChart] builds. *)
Record ChartConfig : Type := mkConfig {
  labels : list (option Z);
  data : list float
}.

Inductive Output : Type :=
| console_error (prefix msg : string)
| console_log_chart (config : ChartConfig)
| console_log_results (results : list ComparisonResult)
| console_log_map (entries : list (option Z * list float)).

(** When a task that a rejected [Promise.all] has left in flight writes
    its file, relative to the [fs.rm] of the [finally] block: before [fs.rm]
    lists the directory it removes, after the listing and before the
    directory itself is removed, or not before the process has ended. *)
Inductive Timing : Type :=
| BeforeListing
| AfterListing
| TooLate.

#[global] Instance Timing_eq_dec : EqDecision Timing.
Proof. solve_decision. Defined.

(** - [fs]: the file system, a node per absolute path;
    - [heap]: the arrays of strings the script passes by reference;
    - [oracle_calls]: the calls of [recognizeFace], oldest first, each with
      its two arguments and the score it resolved with;
    - [random], [draws]: the values [Math.random] returns in this run and
      how many of them have been drawn;
    - [console]: what was printed, oldest first;
    - [settles]: when the tasks left in flight settle in this run, by their
      position among them. *)
Record World : Type := mkWorld {
  fs : gmap path node;
  heap : list (list string);
  oracle_calls : list (string * string * float);
  random : nat → float;
  draws : nat;
  console : list Output;
  settles : nat → Timing
}.

Definition with_fs (f : gmap path node) (w : World) : World :=
  mkWorld f (heap w) (oracle_calls w) (random w) (draws w) (console w) (settles w).
Definition with_heap (h : list (list string)) (w : World) : World :=
  mkWorld (fs w) h (oracle_calls w) (random w) (draws w) (console w) (settles w).
Definition with_console (c : list Output) (w : World) : World :=
  mkWorld (fs w) (heap w) (oracle_calls w) (random w) (draws w) c (settles w).

(** ** Computations: a state and exception monad over the world *)

Inductive Result (A : Type) : Type :=
| Ok (a : A)
| Throw (e : Error).
Arguments Ok {A} a.
Arguments Throw {A} e.

Definition M (A : Type) : Type := World → Result A * World.

#[global] Instance M_ret : MRet M := λ A a w, (Ok a, w).
#[global] Instance M_bind : MBind M := λ A B f m w,
  match m w with
  | (Ok a, w') => f a w'
  | (Throw e, w') => (Throw e, w')
  end.

Definition throw {A} (e : Error) : M A := λ w, (Throw e, w).

(** [try { body } finally { fin }]: [fin] runs on both outcomes of [body];
    the outcome of [body] stands unless [fin] throws. *)
Definition try_finally {A} (body : M A) (fin : M unit) : M A := λ w,
  match body w with
  | (r, w') =>
      match fin w' with
      | (Ok _, w'') => (r, w'')
      | (Throw e, w'') => (Throw e, w'')
      end
  end.

(** [await Promise.all(l.map(async (x) => f x))], up to the moment the
    combined promise settles, in the run in which the calls settle in the
    order of [l]: it fulfils when every call has, and rejects with the first
    rejection.  [Promise.all] cancels nothing: the calls after the one that
    rejected are still in flight then, see [in_flight]. *)
Fixpoint Promise_all {A B} (f : A → M B) (l : list A) : M (list B) :=
  match l with
  | [] => mret []
  | x :: l' => y ← f x; ys ← Promise_all f l'; mret (y :: ys)
  end.

(** The elements of [l] whose calls are in flight when [Promise_all f l]
    settles: none when it fulfils, those after the first rejection when it
    rejects. *)
Fixpoint in_flight {A B} (f : A → M B) (l : list A) (w : World) : list A :=
  match l with
  | [] => []
  | x :: l' =>
      match f x w with
      | (Ok _, w') => in_flight f l' w'
      | (Throw _, _) => l'
      end
  end.

(** A task in flight settles: its effects happen, and no one is left to
    see how it ends. *)
Definition settle (t : M unit) (w : World) : World := (t w).2.

Definition settle_all (ts : list (M unit)) (w : World) : World :=
  foldl (λ w t, settle t w) w ts.

(** The tasks among [ts], counted from [k], that settle at [when]. *)
Fixpoint settling {T} (settles : nat → Timing) (when : Timing) (k : nat)
    (ts : list T) : list T :=
  match ts with
  | [] => []
  | t :: ts' =>
      if decide (settles k = when)
      then t :: settling settles when (S k) ts'
      else settling settles when (S k) ts'
  end.

(** ** Node's fs/promises, on paths given by their components *)

Definition path_join (dir : path) (name : string) : path := dir ++ [name].

Definition prefixes (p : path) : list path :=
  map (λ n, take n p) (seq 0 (S (length p))).

(** The name [p] has inside [dir], when [p] is an entry of [dir]. *)
Definition child_name (dir p : path) : option string :=
  match drop (length dir) p with
  | [name] => if decide (take (length dir) p = dir) then Some name else None
  | _ => None
  end.

Record RmOptions : Type := { recursive : bool; force : bool }.

Definition is_file (f : gmap path node) (p : path) : bool :=
  match f !! p with
  | Some (File _) => true
  | _ => false
  end.

(** The paths leading to [p]: its proper prefixes. *)
Definition ancestors (p : path) : list path :=
  map (λ n, take n p) (seq 0 (length p)).

(** What a system call reports for a path that is not there: ENOTDIR when
    a regular file stands where a directory leading to it should be, ENOENT
    otherwise. *)
Definition missing (f : gmap path node) (p : path) : Error :=
  if existsb (is_file f) (ancestors p) then ENOTDIR else ENOENT.

(** fs.rm with nothing else writing below [p]: with [force] a path that
    does not exist is not an error, but a path that cannot exist, because a
    regular file is in the way, still is; a directory needs [recursive],
    and goes with everything below it. *)
Definition fs_rm (p : path) (o : RmOptions) : M unit := λ w,
  match fs w !! p with
  | None =>
      match missing (fs w) p with
      | ENOENT => if force o then (Ok (), w) else (Throw ENOENT, w)
      | e => (Throw e, w)
      end
  | Some (File _) => (Ok (), with_fs (delete p (fs w)) w)
  | Some Directory =>
      if recursive o
      then (Ok (), with_fs (filter (λ kv, ¬ p `prefix_of` kv.1) (fs w)) w)
      else (Throw EISDIR, w)
  end.

(** fs.mkdir(p, { recursive: true }): creates [p] and the missing
    directories above it; a file in the way is an error. *)
Definition fs_mkdir_recursive (p : path) : M unit := λ w,
  if existsb (is_file (fs w)) (prefixes p)
  then (Throw (if is_file (fs w) p then EEXIST else ENOTDIR), w)
  else (Ok (), with_fs (foldr (λ q f, <[q := Directory]> f) (fs w) (prefixes p)) w).

(** fs.writeFile(p, data): creates or replaces the file; the directory it
    is in must exist. *)
Definition fs_writeFile (p : path) (data : Buffer) : M unit := λ w,
  match fs w !! p with
  | Some Directory => (Throw EISDIR, w)
  | _ =>
      match fs w !! removelast p with
      | Some Directory => (Ok (), with_fs (<[p := File data]> (fs w)) w)
      | Some (File _) => (Throw ENOTDIR, w)
      | None => (Throw (missing (fs w) (removelast p)), w)
      end
  end.

(** The file system is a tree: whatever exists lies in a directory. *)
Definition is_directory (f : gmap path node) (p : path) : bool :=
  match f !! p with
  | Some Directory => true
  | _ => false
  end.

Definition fs_wf (f : gmap path node) : bool :=
  forallb (λ p, match p with
                | [] => true
                | _ => is_directory f (removelast p)
                end) (map_to_list f).*1.

(** The entries of [dir], as [fs_readdir] lists them. *)
Definition entries (dir : path) (f : gmap path node) : list string :=
  omap (child_name dir) (map_to_list f).*1.

(** fs.readdir(dir): the names of the entries of [dir]. *)
Definition fs_readdir (dir : path) : M (list string) := λ w,
  match fs w !! dir with
  | Some Directory => (Ok (entries dir (fs w)), w)
  | Some (File _) => (Throw ENOTDIR, w)
  | None => (Throw (missing (fs w) dir), w)
  end.

Definition fs_access (p : path) : M unit := λ w,
  match fs w !! p with
  | Some _ => (Ok (), w)
  | None => (Throw (missing (fs w) p), w)
  end.

(** fs.rm of [p], recursive, while tasks in flight write below [p].  The
    call first tries to remove [p] as it is, which works when [p] is an
    empty directory by then; otherwise it lists [p], removes what it has
    listed, and removes [p], which fails with ENOTEMPTY when something has
    been written below [p] since the listing.  [early] are the writes that
    come before the listing and [late] those that come after it.  A path
    that is not a directory leaves no such window. *)
Definition fs_rm_racing (early late : World → World) (p : path) (o : RmOptions)
    : M unit := λ w,
  match fs w !! p with
  | Some Directory =>
      if recursive o
      then
        let w1 := early w in
        match entries p (fs w1) with
        | [] => (Ok (), with_fs (filter (λ kv, ¬ p `prefix_of` kv.1) (fs w1)) w1)
        | _ :: _ =>
            let w2 :=
              late (with_fs (filter (λ kv, kv.1 = p ∨ ¬ p `prefix_of` kv.1) (fs w1))
                            w1) in
            match entries p (fs w2) with
            | [] => (Ok (), with_fs (filter (λ kv, ¬ p `prefix_of` kv.1) (fs w2)) w2)
            | _ :: _ => (Throw ENOTEMPTY, w2)
            end
        end
      else (Throw EISDIR, w)
  | _ => fs_rm p o w
  end.

(** ** Arrays held by reference *)

Definition Array_new (xs : list string) : M loc := λ w,
  (Ok (length (heap w)), with_heap (heap w ++ [xs]) w).

Definition Array_get (a : loc) : M (list string) := λ w,
  match heap w !! a with
  | Some xs => (Ok xs, w)
  | None => (Throw TypeError, w)
  end.

Definition Array_indexOf (a : loc) (x : string) : M Z :=
  xs ← Array_get a; mret (JS.indexOf xs x).

(** toSpliced leaves [a] as it is and returns a new array. *)
Definition Array_toSpliced (a : loc) (start : Z) (deleteCount : nat) : M loc :=
  xs ← Array_get a; Array_new (JS.toSpliced xs start deleteCount).

(** [a.map(f)] visits the indices below the length [a] had at the call and
    reads each element when its turn comes, so a callback that changed [a]
    would be seen by the later ones; an index that is gone is skipped. *)
Fixpoint Array_map_from {B} (a : loc) (f : string → M B) (k n : nat) : M (list B) :=
  match n with
  | O => mret []
  | S n' =>
      xs ← Array_get a;
      match xs !! k with
      | Some x => y ← f x; ys ← Array_map_from a f (S k) n'; mret (y :: ys)
      | None => Array_map_from a f (S k) n'
      end
  end.

Definition Array_map {B} (a : loc) (f : string → M B) : M (list B) :=
  xs ← Array_get a; Array_map_from a f 0 (length xs).

(** ** The script *)

(** [hash.digest("hex")]: two lower-case hexadecimal digits per byte. *)
Definition hex_digit (n : N) : ascii :=
  if (n <? 10)%N then ascii_of_N (48 + n) else ascii_of_N (87 + n).

Definition hex_of_byte (b : Byte.byte) : string :=
  let n := Byte.to_N b in
  String (hex_digit (n / 16)) (String (hex_digit (n mod 16)) "").

Fixpoint hex (bs : Buffer) : string :=
  match bs with
  | [] => ""
  | b :: bs' => hex_of_byte b +:+ hex bs'
  end.

Definition console_print (o : Output) : M unit := λ w,
  (Ok (), with_console (console w ++ [o]) w).

Section Script.

(** The collaborators the script imports:
    - [sha256]: the digest [crypto.createHash("sha256")] computes;
    - [sharp]: [sharp(image).resize({ width: size }).toBuffer()], [None]
      when it rejects;
    - [JSON_parse]: [JSON.parse], [None] when it throws;
    - [path_resolve]: [path.resolve(process.cwd(), s)];
    - [cachePath]: the directory [downscaled-images-for-comparison] under
      the cache directory [xdg()] reports. *)
Variable sha256 : Buffer → Buffer.
Variable sharp : path → JS.json → option Buffer.
Variable JSON_parse : string → option JS.json.
Variable path_resolve : string → path.
Variable cachePath : path.

Definition initImages (basePath : path) : M (list path) :=
  dirs ← fs_readdir basePath;
  images ← Promise_all (λ dir,
    let dirPath := path_join basePath dir in
    images ← fs_readdir dirPath;
    mret (map (λ img, path_join dirPath img) images)) dirs;
  mret (concat images).

Definition clearCache (cachePath : path) : M unit :=
  fs_rm cachePath {| recursive := true; force := true |}.

Definition downscaleImage (image : path) (size : JS.json) : M Buffer :=
  match sharp image size with
  | Some buffer => mret buffer
  | None => throw CodecError
  end.

(** The name of the cache entry for [downscaledImage] at [size]. *)
Definition entry_name (size : JS.json) (downscaledImage : Buffer) : string :=
  let imgName := hex (sha256 downscaledImage) in
  JS.ToString size +:+ "-" +:+ imgName +:+ ".jpg".

Definition cacheImage (cachePath : path) (img : path) (size : JS.json) : M unit :=
  downscaledImage ← downscaleImage img size;
  let outputFilePath := path_join cachePath (entry_name size downscaledImage) in
  fs_writeFile outputFilePath downscaledImage.

Definition cacheImages (images : list path) (cachePath : path)
    (sizes : list JS.json) : M unit :=
  _ ← clearCache cachePath;
  _ ← fs_mkdir_recursive cachePath;
  _ ← Promise_all (λ img,
    _ ← Promise_all (λ size, cacheImage cachePath img size) sizes;
    mret ()) images;
  mret ().

(** The pairs whose tasks are in flight when [cacheImages] settles: none
    unless one of the tasks has rejected, and then the sizes after the one
    that rejected, for the same image, and every size for the images after
    it. *)
Fixpoint tasks_in_flight (cachePath : path) (images : list path)
    (sizes : list JS.json) (w : World) : list (path * JS.json) :=
  match images with
  | [] => []
  | img :: images' =>
      match Promise_all (λ size, cacheImage cachePath img size) sizes w with
      | (Ok _, w') => tasks_in_flight cachePath images' sizes w'
      | (Throw _, _) =>
          map (pair img) (in_flight (λ size, cacheImage cachePath img size) sizes w)
          ++ list_prod images' sizes
      end
  end.

Definition cacheImages_in_flight (images : list path) (cachePath : path)
    (sizes : list JS.json) (w : World) : list (path * JS.json) :=
  match (_ ← clearCache cachePath; fs_mkdir_recursive cachePath) w with
  | (Ok _, w') => tasks_in_flight cachePath images sizes w'
  | (Throw _, _) => []
  end.

(** [clearCache] while the tasks of [pairs] are in flight: each of them
    writes its entry when the run has it settle. *)
Definition clearCache_racing (pairs : list (path * JS.json)) (cachePath : path)
    : M unit := λ w,
  let tasks := map (λ t, cacheImage cachePath t.1 t.2) pairs in
  fs_rm_racing (settle_all (settling (settles w) BeforeListing 0 tasks))
               (settle_all (settling (settles w) AfterListing 0 tasks))
               cachePath {| recursive := true; force := true |} w.

(** The stub oracle: it ignores the faces and resolves with the next value
    of [Math.random]. *)
Definition recognizeFace (face1 face2 : string) : M float := λ w,
  let score := random w (draws w) in
  (Ok score,
   mkWorld (fs w) (heap w) (oracle_calls w ++ [(face1, face2, score)])
           (random w) (S (draws w)) (console w) (settles w)).

Definition compare (img : string) (images : loc) : M (list ComparisonResult) :=
  index ← Array_indexOf images img;
  images ← (if bool_decide (index ≠ -1)
            then Array_toSpliced images index 1
            else mret images);
  Array_map images (λ otherImage,
    let size := JS.parseInt (JS.split_0 "-" otherImage) in
    score ← recognizeFace img otherImage;
    mret {| size := size; score := score |}).

Definition runAllComparisons (cachePath : path) : M (list (list ComparisonResult)) :=
  names ← fs_readdir cachePath;
  images ← Array_new names;
  Array_map images (λ img, compare img images).

Definition Number_of_length (n : nat) : float :=
  PrimFloat.of_uint63 (Uint63.of_Z (Z.of_nat n)).

(** [vals.reduce((c, n) => c + n, 0) / vals.length] *)
Definition mean (vals : list float) : float :=
  PrimFloat.div (fold_left PrimFloat.add vals 0%float)
                (Number_of_length (length vals)).

Definition orderedResults (results : list ComparisonResult)
    : list (option Z * list float) :=
  fold_left (λ m r,
      JS.Map_set m (size r) (default [] (JS.Map_get m (size r)) ++ [score r]))
    results [].

Definition chart_config (results : list ComparisonResult) : ChartConfig :=
  let labels := JS.Map_keys (orderedResults results) in
  let data := map mean (JS.Map_values (orderedResults results)) in
  {| labels := labels; data := data |}.

(** The URL printed is the JSON text of the configuration, percent-encoded
    after the address of the chart service; the model prints the
    configuration. *)
Definition createChart (results : list ComparisonResult) : M unit :=
  console_print (console_log_chart (chart_config results)).

(** The first [try] block: the checks on [process.argv]. *)
Definition elements_of (v : JS.json) : list JS.json :=
  match v with
  | JS.JArr l => l
  | _ => []
  end.

Definition parse_args (argv : list string) : M (path * list JS.json) :=
  if (length argv <? 4)%nat
  then throw (MkError "Insufficient arguments. Usage: node frqt.js <testdataPath> <sizes>")
  else
    let testdataPath := path_resolve (nth 2 argv "") in
    _ ← fs_access testdataPath;
    match JSON_parse (nth 3 argv "") with
    | None => throw SyntaxError
    | Some sizes =>
        if negb (JS.Array_isArray sizes) || existsb JS.isNaN (elements_of sizes)
        then throw (MkError "Sizes argument must be a JSON array of numbers.")
        else mret (testdataPath, elements_of sizes)
    end.

(** The second [try] block with its [finally].  Of the stages of the
    [try] block only [cacheImages] can leave tasks in flight that write
    (the reads of [initImages] change nothing, and the oracle of [compare]
    never rejects); the [finally] block runs while they are in flight. *)
Definition pipeline_try (testdataPath : path) (sizes : list JS.json) : M unit :=
  images ← initImages testdataPath;
  _ ← cacheImages images cachePath sizes;
  results ← runAllComparisons cachePath;
  createChart (concat results).

Definition pipeline_in_flight (testdataPath : path) (sizes : list JS.json)
    (w : World) : list (path * JS.json) :=
  match initImages testdataPath w with
  | (Ok images, w') => cacheImages_in_flight images cachePath sizes w'
  | (Throw _, _) => []
  end.

Definition pipeline (testdataPath : path) (sizes : list JS.json) : M unit := λ w,
  try_finally (pipeline_try testdataPath sizes)
              (clearCache_racing (pipeline_in_flight testdataPath sizes w) cachePath)
              w.

(** The exit code of the process: 1 from [process.exit(1)] in the [catch]
    and for a rejection that nothing catches, 0 otherwise. *)
Definition exit_code {A} (r : Result A) : Z :=
  match r with
  | Ok _ => 0
  | Throw _ => 1
  end.

Definition main (argv : list string) : World → Z * World := λ w,
  match parse_args argv w with
  | (Throw error, w1) =>
      (1, with_console
            (console w1 ++ [console_error "Error parsing arguments:" (message error)]) w1)
  | (Ok (testdataPath, sizes), w1) =>
      let (r, w2) := pipeline testdataPath sizes w1 in (exit_code r, w2)
  end.

(** *** The revision kept as [frqt.js]

    It has the same functions up to [downscaleImage]; it reads
    [process.argv] without checks, and its pipeline prints the flattened
    results.  Its [createChart] is a draft marked as unfinished, and the
    one call of it is commented out: the loop spreads [res.score], a number,
    into an array, which throws on the first result. *)
Definition createChart_frqt (results : list ComparisonResult) : M unit :=
  match results with
  | [] => console_print (console_log_map [])
  | _ :: _ => throw TypeError
  end.

Definition pipeline_try_frqt (testdataPath : path) (sizes : list JS.json) : M unit :=
  images ← initImages testdataPath;
  _ ← cacheImages images cachePath sizes;
  results ← runAllComparisons cachePath;
  console_print (console_log_results (concat results)).

Definition pipeline_frqt (testdataPath : path) (sizes : list JS.json) : M unit := λ w,
  try_finally (pipeline_try_frqt testdataPath sizes)
              (clearCache_racing (pipeline_in_flight testdataPath sizes w) cachePath)
              w.

End Script.

(** ** What the statements below are phrased with *)

(** The listing [compare] goes through for subject [img]: a copy of [xs]
    without the first element equal to [img]. *)
Definition comparison_set (img : string) (xs : list string) : list string :=
  if decide (JS.indexOf xs img ≠ -1)
  then JS.toSpliced xs (JS.indexOf xs img) 1
  else xs.

(** The oracle calls of one subject over [others], the first of them
    resolving with draw number [d] of [rnd]. *)
Fixpoint scored (img : string) (rnd : nat → float) (d : nat)
    (others : list string) : list (string * string * float) :=
  match others with
  | [] => []
  | o :: others' => (img, o, rnd d) :: scored img rnd (S d) others'
  end.

(** The result built from one oracle call. *)
Definition result_of_call (c : string * string * float) : ComparisonResult :=
  {| size := JS.parseInt (JS.split_0 "-" c.1.2); score := c.2 |}.

(** The oracle calls of all [subjects] over the listing [xs], row by row. *)
Fixpoint all_scored (rnd : nat → float) (d : nat) (xs subjects : list string)
    : list (list (string * string * float)) :=
  match subjects with
  | [] => []
  | s :: subjects' =>
      let row := scored s rnd d (comparison_set s xs) in
      row :: all_scored rnd (d + length row) xs subjects'
  end.

(** The distinct elements of [l] in the order of their first occurrence. *)
Fixpoint first_seen {K} `{EqDecision K} (l : list K) : list K :=
  match l with
  | [] => []
  | x :: l' => x :: filter (λ y, y ≠ x) (first_seen l')
  end.

(** The scores of the results tagged with size [s], in input order. *)
Definition scores_of (s : option Z) (results : list ComparisonResult) : list float :=
  score <$> filter (λ r, size r = s) results.

(** The arithmetic mean of [vals] in binary64 arithmetic: the sum of the
    values, each added to the sum of those before it, divided by their
    number. *)
Definition sum_of (vals : list float) : float :=
  foldr (λ v sum, PrimFloat.add sum v) 0%float (rev vals).

Definition arithmetic_mean (vals : list float) : float :=
  PrimFloat.div (sum_of vals)
                (PrimFloat.of_uint63 (Uint63.of_Z (Z.of_nat (length vals)))).

(** The value of a list of decimal digits, most significant first. *)
Definition digits_value (ds : list N) : N := fold_left (λ a d, 10 * a + d)%N ds 0%N.

(** The characters of [Number_toString_pos] after the first digit in
    exponent form: the fraction, if any, and the exponent. *)
Definition fraction_chars (frac : list N) : list ascii :=
  match frac with
  | [] => []
  | _ => "."%char :: (JS.digit_char <$> frac)
  end.

Definition exponent_tail (rest : list N) : list ascii :=
  fraction_chars (JS.strip_trailing_zeros rest)
  ++ "e"%char :: "+"%char :: (JS.digit_char <$> JS.digits (N.of_nat (length rest))).

(** [q] holds what some task of the population wrote. *)
Definition written (sha256 : Buffer → Buffer) (sharp : path → JS.json → option Buffer)
    (cachePath : path) (images : list path) (sizes : list JS.json)
    (q : path) (nd : node) : Prop :=
  ∃ img size b, img ∈ images ∧ size ∈ sizes ∧ sharp img size = Some b ∧
                q = cachePath ++ [entry_name sha256 size b] ∧ nd = File b.

(** From [w] to [w']: whatever is new was written by a task, and nothing
    was removed. *)
Definition cache_step (sha256 : Buffer → Buffer) (sharp : path → JS.json → option Buffer)
    (cachePath : path) (images : list path) (sizes : list JS.json)
    (w w' : World) : Prop :=
  (∀ q nd, fs w' !! q = Some nd →
           fs w !! q = Some nd ∨ written sha256 sharp cachePath images sizes q nd) ∧
  (∀ q, is_Some (fs w !! q) → is_Some (fs w' !! q)).

(** The entry for [img] at [size] is in the cache. *)
Definition cached (sha256 : Buffer → Buffer) (sharp : path → JS.json → option Buffer)
    (cachePath : path) (img : path) (size : JS.json) (w : World) : Prop :=
  ∃ b, sharp img size = Some b ∧
       is_Some (fs w !! (cachePath ++ [entry_name sha256 size b])).

(** What the message of the second check asks for: an array whose elements
    are all numbers. *)
Definition is_number (v : JS.json) : bool :=
  match v with
  | JS.JNum _ => true
  | _ => false
  end.

Definition is_array_of_numbers (v : JS.json) : bool :=
  match v with
  | JS.JArr l => forallb is_number l
  | _ => false
  end.

(** ** A concrete run: two images, sizes 100 and 200 *)

Module Scenario.

(** Stand-ins for the collaborators: the digest is the bytes themselves
    (so it has no collisions); the codec answers a positive width with one
    byte for the width followed by the file name of the image, takes [null]
    for no width at all, refuses any other size, and refuses the image
    called [broken.jpg]. *)
Definition digest (b : Buffer) : Buffer := b.

Definition codec (image : path) (size : JS.json) : option Buffer :=
  match last image with
  | Some name =>
      if String.eqb name "broken.jpg" then None
      else
        match size with
        | JS.JNum z =>
            if 0 <? z
            then Some (default Byte.x00 (Byte.of_N (Z.to_N z mod 256))
                       :: list_byte_of_string name)
            else None
        | JS.JNull => Some (list_byte_of_string name)
        | _ => None
        end
  | None => None
  end.

Definition parse (s : string) : option JS.json :=
  if String.eqb s "[100,200]" then Some (JS.JArr [JS.JNum 100; JS.JNum 200])
  else if String.eqb s "[null]" then Some (JS.JArr [JS.JNull])
  else if String.eqb s "7" then Some (JS.JNum 7)
  else None.

Definition resolve (s : string) : path := [s].

Definition cachePath : path := ["cache"; "downscaled-images-for-comparison"].

Definition disk : gmap path node :=
  list_to_map
    [ ([], Directory);
      (["data"], Directory);
      (["data"; "faces"], Directory);
      (["data"; "faces"; "a.jpg"], File []);
      (["data"; "faces"; "b.jpg"], File []);
      (["bad"], Directory);
      (["bad"; "faces"], Directory);
      (["bad"; "faces"; "broken.jpg"], File []) ].

Definition start : World :=
  {| fs := disk; heap := []; oracle_calls := [];
     random := λ n, if Nat.even n then 0.25%float else 0.75%float;
     draws := 0; console := []; settles := λ _, TooLate |}.

Definition images : list path :=
  [["data"; "faces"; "a.jpg"]; ["data"; "faces"; "b.jpg"]].

Definition sizes : list JS.json := [JS.JNum 100; JS.JNum 200].

(** The world once the cache is populated. *)
Definition populated : World :=
  (cacheImages digest codec images cachePath sizes start).2.

(** A directory with a broken image among good ones, and a world in which
    every task left in flight writes while the cleanup is removing what it
    listed. *)
Definition mixed : gmap path node :=
  list_to_map
    [ ([], Directory);
      (["mixed"], Directory);
      (["mixed"; "faces"], Directory);
      (["mixed"; "faces"; "a.jpg"], File []);
      (["mixed"; "faces"; "broken.jpg"], File []);
      (["mixed"; "faces"; "z.jpg"], File []) ].

Definition racing : World :=
  {| fs := mixed; heap := []; oracle_calls := [];
     random := λ n, if Nat.even n then 0.25%float else 0.75%float;
     draws := 0; console := []; settles := λ _, AfterListing |}.

(** A world with one listing on the heap. *)
Definition listing : World :=
  with_heap [["100-aa.jpg"; "200-bb.jpg"; "100-cc.jpg"]] start.

End Scenario.
(** ** What the further properties are phrased with *)

(** From [w] to [w'] nothing changed outside the cache root and the
    directories leading to it: every other path holds what it held, and
    arrays, oracle log and console are as before. *)
Definition outside_cache_kept (cachePath : path) (w w' : World) : Prop :=
  (∀ q, ¬ cachePath `prefix_of` q → ¬ q `prefix_of` cachePath →
        fs w' !! q = fs w !! q) ∧
  heap w' = heap w ∧ oracle_calls w' = oracle_calls w ∧
  draws w' = draws w ∧ console w' = console w.

(** The cache root is a directory and none of its entries is one. *)
Definition cache_ready (cachePath : path) (w : World) : Prop :=
  fs w !! cachePath = Some Directory ∧
  ∀ name, fs w !! (cachePath ++ [name]) ≠ Some Directory.

(** The failure of a population whose codec refuses one of the pairs. *)
Definition codec_refuses (sharp : path → JS.json → option Buffer)
    (images : list path) (sizes : list JS.json) (e : Error) : Prop :=
  e = CodecError ∧
  ∃ img size, img ∈ images ∧ size ∈ sizes ∧ sharp img size = None.


(** From [w] to [w'] the file system stays a tree, and a path that is not
    the cache root or below it holds what it held, unless it is a
    directory leading to the cache root that has been created. *)
Definition files_kept (cachePath : path) (w w' : World) : Prop :=
  (fs_wf (fs w) = true → fs_wf (fs w') = true) ∧
  ∀ q, ¬ cachePath `prefix_of` q →
       fs w' !! q = fs w !! q ∨
       (q `prefix_of` cachePath ∧ fs w !! q = None ∧ fs w' !! q = Some Directory).

(** The outcome [r] of a run from [w] is that of its first two stages:
    completion means both completed, and a failure is the failure of
    discovery, or of population after a completed discovery. *)
Definition early_outcome (sha256 : Buffer → Buffer)
    (sharp : path → JS.json → option Buffer) (cachePath testdataPath : path)
    (sizes : list JS.json) (w : World) (r : Result unit) : Prop :=
  match r with
  | Ok _ =>
      ∃ images, (initImages testdataPath w).1 = Ok images ∧
                (cacheImages sha256 sharp images cachePath sizes w).1 = Ok ()
  | Throw e =>
      (initImages testdataPath w).1 = Throw e ∨
      ∃ images, (initImages testdataPath w).1 = Ok images ∧
                (cacheImages sha256 sharp images cachePath sizes w).1 = Throw e
  end.

(** From [w] to [w'] nothing but the files at and below the cache root
    and the directories leading to it has changed, the latter as in
    [files_kept]. *)
Definition cache_only (cachePath : path) (w w' : World) : Prop :=
  files_kept cachePath w w' ∧
  heap w' = heap w ∧ oracle_calls w' = oracle_calls w ∧ random w' = random w ∧
  draws w' = draws w ∧ console w' = console w ∧ settles w' = settles w.

(** [g] changes the world as in [cache_only], removes nothing, and leaves
    the cache root itself as it is. *)
Definition only_adds (cachePath : path) (g : World → World) : Prop :=
  ∀ w, cache_only cachePath w (g w) ∧
       (∀ q, is_Some (fs w !! q) → is_Some (fs (g w) !! q)) ∧
       fs (g w) !! cachePath = fs w !! cachePath.

(** ** Properties *)

(** *** The monad *)

Lemma bind_unfold {A B} (m : M A) (f : A → M B) w :
  (m ≫= f) w = match m w with
               | (Ok a, w') => f a w'
               | (Throw e, w') => (Throw e, w')
               end.
Proof. reflexivity. Qed.

Lemma bind_Ok {A B} (m : M A) (f : A → M B) w a w' :
  m w = (Ok a, w') → (m ≫= f) w = f a w'.
Proof. intros H. rewrite bind_unfold, H. reflexivity. Qed.

Lemma bind_Ok_inv {A B} (m : M A) (f : A → M B) w b w2 :
  (m ≫= f) w = (Ok b, w2) → ∃ a w1, m w = (Ok a, w1) ∧ f a w1 = (Ok b, w2).
Proof.
  rewrite bind_unfold. destruct (m w) as [[a|e] w1]; [eauto | discriminate].
Qed.

(** *** The file system *)

Lemma fs_wf_parent f p name :
  fs_wf f = true → is_Some (f !! (p ++ [name])) → f !! p = Some Directory.
Proof.
  unfold fs_wf. rewrite forallb_forall. intros Hwf [nd Hnd].
  specialize (Hwf (p ++ [name])).
  rewrite removelast_last in Hwf.
  assert (In (p ++ [name]) (map_to_list f).*1) as Hin.
  { apply list_elem_of_In, list_elem_of_fmap. exists (p ++ [name], nd).
    split; [done | by apply elem_of_map_to_list]. }
  apply Hwf in Hin.
  assert (is_directory f p = true) as Hd by (by destruct p).
  unfold is_directory in Hd. by repeat case_match.
Qed.

Lemma fs_wf_above f p k :
  fs_wf f = true → k ≠ [] → is_Some (f !! (p ++ k)) → f !! p = Some Directory.
Proof.
  intros Hwf. induction k as [|name k IH] using rev_ind; [done|].
  intros _ Hk. rewrite app_assoc in Hk.
  apply fs_wf_parent in Hk; [|done].
  destruct k as [|x k]; [by rewrite app_nil_r in Hk|].
  apply IH; [done | by rewrite Hk].
Qed.

(** Nothing exists below a path that is missing or is a file. *)
Lemma fs_wf_below f p q :
  fs_wf f = true → f !! p ≠ Some Directory → p `prefix_of` q → p ≠ q →
  f !! q = None.
Proof.
  intros Hwf Hp [k ->] Hne.
  destruct (f !! (p ++ k)) eqn:E; [|done].
  exfalso. apply Hp. apply (fs_wf_above f p k); [done| |by rewrite E].
  intros ->. by rewrite app_nil_r in Hne.
Qed.

Lemma elem_of_ancestors p q : q ∈ ancestors p ↔ q `prefix_of` p ∧ q ≠ p.
Proof.
  unfold ancestors. rewrite list_elem_of_fmap. split.
  - intros (n & -> & Hn%elem_of_seq). split; [apply prefix_take|].
    intros H%(f_equal length). rewrite length_take in H. lia.
  - intros [[k ->] Hne]. exists (length q). split.
    + by rewrite take_app_length.
    + apply elem_of_seq. rewrite length_app. destruct k; [|simpl; lia].
      by rewrite app_nil_r in Hne.
Qed.

Lemma missing_ENOTDIR f p :
  missing f p = ENOTDIR ↔ ∃ q, q `prefix_of` p ∧ q ≠ p ∧ is_file f q = true.
Proof.
  unfold missing. destruct (existsb (is_file f) (ancestors p)) eqn:E.
  - split; [intros _|done].
    apply existsb_exists in E as (q & Hq%list_elem_of_In%elem_of_ancestors & Hf).
    exists q. tauto.
  - split; [done|]. intros (q & Hq & Hne & Hf). exfalso.
    assert (existsb (is_file f) (ancestors p) = true) as Ht; [|congruence].
    apply existsb_exists. exists q. split; [|done].
    by apply list_elem_of_In, elem_of_ancestors.
Qed.

Lemma missing_cases f p : missing f p = ENOENT ∨ missing f p = ENOTDIR.
Proof. unfold missing. destruct (existsb _ _); auto. Qed.

(** In a tree, the directories leading to a path that exists are
    directories. *)
Lemma missing_wf_present f p q :
  fs_wf f = true → is_Some (f !! p) → q `prefix_of` p → is_file f q = true → q = p.
Proof.
  intros Hwf Hp [k ->] Hq. destruct (decide (k = [])) as [->|Hk].
  - by rewrite app_nil_r.
  - exfalso. unfold is_file in Hq. by rewrite (fs_wf_above f q k Hwf Hk Hp) in Hq.
Qed.

(** [clearCache] completes, except on a root that cannot exist because a
    regular file is in the way; in either case the root is absent
    afterwards and nothing else has changed. *)
Lemma clearCache_spec p w :
  ∃ r w', clearCache p w = (r, w') ∧
        (r = Ok () ∨
         (r = Throw ENOTDIR ∧ w' = w ∧ fs w !! p = None ∧ missing (fs w) p = ENOTDIR)) ∧
        fs w' !! p = None ∧
        heap w' = heap w ∧ oracle_calls w' = oracle_calls w ∧
        draws w' = draws w ∧ random w' = random w ∧ console w' = console w ∧
        (fs w !! p = None → w' = w) ∧
        (∀ q, ¬ p `prefix_of` q → fs w' !! q = fs w !! q) ∧
        (fs_wf (fs w) = true → ∀ q, p `prefix_of` q → fs w' !! q = None).
Proof.
  unfold clearCache, fs_rm. simpl.
  destruct (fs w !! p) as [[d|]|] eqn:E.
  - eexists _, _; split; [done|]. simpl. rewrite lookup_delete_eq.
    split_and!; try done; [by left| |].
    + intros q Hq. rewrite lookup_delete_ne; [done|]. by intros ->.
    + intros Hwf q Hq. destruct (decide (p = q)) as [->|Hne].
      * apply lookup_delete_eq.
      * rewrite lookup_delete_ne by done.
        apply (fs_wf_below _ p); [done|by rewrite E|done|done].
  - eexists _, _; split; [done|]. simpl.
    assert (∀ q, p `prefix_of` q →
      filter (λ kv : path * node, ¬ p `prefix_of` kv.1) (fs w) !! q = None) as Hf.
    { intros q Hq. apply map_lookup_filter_None. right. intros nd _. simpl. tauto. }
    split_and!; try done; [by left | by apply Hf |].
    intros q Hq. destruct (fs w !! q) eqn:Eq.
    + by apply map_lookup_filter_Some.
    + apply map_lookup_filter_None. by left.
  - assert (∀ q, fs_wf (fs w) = true → p `prefix_of` q → fs w !! q = None) as Hbelow.
    { intros q Hwf Hq. destruct (decide (p = q)) as [->|Hne]; [done|].
      apply (fs_wf_below _ p); [done|by rewrite E|done|done]. }
    destruct (missing_cases (fs w) p) as [Hm|Hm]; rewrite Hm.
    + exists (Ok ()), w. split_and!; try done; [by left | by auto].
    + exists (Throw ENOTDIR), w. split_and!; try done; [by right | by auto].
Qed.

Lemma clearCache_Ok p w w' :
  clearCache p w = (Ok (), w') →
  fs w' !! p = None ∧
  heap w' = heap w ∧ oracle_calls w' = oracle_calls w ∧
  draws w' = draws w ∧ random w' = random w ∧ console w' = console w ∧
  (fs w !! p = None → w' = w) ∧
  (∀ q, ¬ p `prefix_of` q → fs w' !! q = fs w !! q) ∧
  (fs_wf (fs w) = true → ∀ q, p `prefix_of` q → fs w' !! q = None).
Proof.
  intros Hrun. destruct (clearCache_spec p w) as (r & w1 & H1 & _ & H).
  rewrite Hrun in H1. by injection H1 as <- <-.
Qed.

Lemma clearCache_Ok_iff p w :
  (clearCache p w).1 = Ok () ↔ ¬ (fs w !! p = None ∧ missing (fs w) p = ENOTDIR).
Proof.
  unfold clearCache, fs_rm. simpl.
  destruct (fs w !! p) as [[d|]|] eqn:E; simpl; [split; [by intros _ [? _] | done]..|].
  destruct (missing_cases (fs w) p) as [Hm|Hm]; rewrite Hm; simpl.
  - split; [intros _ [_ ?]; congruence | done].
  - split; [done | tauto].
Qed.

(** *** Cache cleanup *)

(** In a tree a completed [clearCache] can be repeated. *)
Lemma clearCache_again p w w' :
  fs_wf (fs w) = true → clearCache p w = (Ok (), w') → clearCache p w' = (Ok (), w').
Proof.
  intros Hwf Hrun.
  destruct (clearCache_spec p w)
    as (r & w1 & H1 & _ & Hgone & _ & _ & _ & _ & _ & _ & Hrest & _).
  rewrite H1 in Hrun. injection Hrun as -> ->.
  destruct (clearCache_spec p w')
    as (r2 & w2 & H2 & Hr2 & _ & _ & _ & _ & _ & _ & Hsame' & _).
  specialize (Hsame' Hgone). subst w2. rewrite H2. f_equal.
  destruct Hr2 as [->|(_ & _ & _ & Hm)]; [done|]. exfalso.
  apply missing_ENOTDIR in Hm as (q & Hq & Hne & Hfile).
  assert (is_file (fs w) q = true) as Hfile'.
  { unfold is_file in *. rewrite <- Hrest; [done|].
    intros Hq'. apply Hne. by apply (anti_symm prefix). }
  destruct (fs w !! p) as [nd|] eqn:E.
  - apply Hne. apply (missing_wf_present (fs w) p q Hwf); [by rewrite E|done..].
  - pose proof (proj1 (clearCache_Ok_iff p w)) as Hok.
    rewrite H1 in Hok. apply (Hok eq_refl). split; [done|].
    apply missing_ENOTDIR. by exists q.
Qed.

(** C7, as amended.  On a tree-shaped file system, with nothing else
    writing below the root: [clearCache] on a root that is absent completes
    and changes nothing, unless a regular file stands where a directory
    leading to the root should be, and then it fails with ENOTDIR and
    changes nothing; a call after a completed call completes too and leaves
    the world of the first; and two calls in a row end like one call, in
    the same world. *)
Theorem clearCache_idempotent (cachePath : path) (w : World) :
  fs_wf (fs w) = true →
  (fs w !! cachePath = None →
   clearCache cachePath w
   = (match missing (fs w) cachePath with
      | ENOTDIR => Throw ENOTDIR
      | _ => Ok ()
      end, w)) ∧
  (missing (fs w) cachePath = ENOTDIR ↔
   ∃ q, q `prefix_of` cachePath ∧ q ≠ cachePath ∧ is_file (fs w) q = true) ∧
  (∀ w', clearCache cachePath w = (Ok (), w') →
         clearCache cachePath w' = (Ok (), w')) ∧
  (_ ← clearCache cachePath; clearCache cachePath) w = clearCache cachePath w.
Proof.
  intros Hwf.
  destruct (clearCache_spec cachePath w)
    as (r & w1 & H1 & Hr & Hgone & _ & _ & _ & _ & _ & Hsame & Hrest & _).
  split_and!.
  - intros Habs. specialize (Hsame Habs). subst w1. rewrite H1. f_equal.
    destruct Hr as [->|(-> & _ & _ & ->)]; [|done].
    pose proof (proj1 (clearCache_Ok_iff cachePath w)) as Hok.
    rewrite H1 in Hok. specialize (Hok eq_refl).
    destruct (missing_cases (fs w) cachePath) as [-> | Hm]; [done|].
    exfalso. by apply Hok.
  - apply missing_ENOTDIR.
  - intros w'. by apply clearCache_again.
  - rewrite bind_unfold, H1. destruct Hr as [->|(-> & -> & _)]; [|done].
    by apply (clearCache_again cachePath w).
Qed.

(** C7, as stated, fails on a root below a regular file: the root is
    absent, and [fs.rm] with [force] still rejects, with ENOTDIR. *)
Lemma clearCache_fails_below_a_file :
  ¬ (∀ (cachePath : path) (w : World),
       fs_wf (fs w) = true → fs w !! cachePath = None →
       (clearCache cachePath w).1 = Ok ()).
Proof.
  intros H.
  specialize (H ["data"; "faces"; "a.jpg"; "cache"] Scenario.start).
  vm_compute in H. by specialize (H eq_refl eq_refl).
Qed.

(** *** Arrays and the comparison fan-out *)

Lemma Array_get_Some a xs w :
  heap w !! a = Some xs → Array_get a w = (Ok xs, w).
Proof. unfold Array_get. by intros ->. Qed.

Lemma length_scored img rnd d others :
  length (scored img rnd d others) = length others.
Proof. revert d. induction others; intros d; simpl; [done | by rewrite IHothers]. Qed.

Lemma elem_of_scored img rnd d others s o v :
  (s, o, v) ∈ scored img rnd d others → s = img ∧ o ∈ others.
Proof.
  revert d. induction others as [|x others IH]; intros d; simpl.
  - by intros ?%elem_of_nil.
  - intros [[= -> -> ->]|H]%elem_of_cons; [split; [done | left]|].
    destruct (IH _ H) as [-> ?]. split; [done | by right].
Qed.

Lemma scored_fst_snd img rnd d others :
  (scored img rnd d others).*1 = (λ o, (img, o)) <$> others.
Proof. revert d. induction others; intros d; simpl; [done | by rewrite IHothers]. Qed.

(** The inner [map] of [compare]: one oracle call per element, in order. *)
Lemma Array_map_from_recognizeFace img a xs n : ∀ k w,
  heap w !! a = Some xs → (k + n)%nat = length xs →
  Array_map_from a (λ otherImage,
      let size := JS.parseInt (JS.split_0 "-" otherImage) in
      score ← recognizeFace img otherImage;
      mret {| size := size; score := score |}) k n w
  = (Ok (result_of_call <$> scored img (random w) (draws w) (drop k xs)),
     mkWorld (fs w) (heap w)
             (oracle_calls w ++ scored img (random w) (draws w) (drop k xs))
             (random w) (draws w + n) (console w) (settles w)).
Proof.
  induction n as [|n IH]; intros k w Hheap Hlen.
  - rewrite drop_ge by lia. simpl. rewrite app_nil_r, Nat.add_0_r.
    by destruct w.
  - simpl. rewrite (bind_Ok _ _ _ _ _ (Array_get_Some _ _ _ Hheap)).
    destruct (xs !! k) as [x|] eqn:Hx.
    2: { apply lookup_ge_None in Hx. lia. }
    rewrite (drop_S _ _ _ Hx). simpl.
    erewrite bind_Ok; [|reflexivity].
    erewrite bind_Ok; [|by apply IH; [|lia]].
    simpl. unfold mret, M_ret.
    rewrite <- app_assoc. simpl. do 3 f_equal. lia.
Qed.

Lemma Array_indexOf_Some a xs x w :
  heap w !! a = Some xs → Array_indexOf a x w = (Ok (JS.indexOf xs x), w).
Proof.
  intros H. unfold Array_indexOf. by rewrite (bind_Ok _ _ _ _ _ (Array_get_Some _ _ _ H)).
Qed.

Lemma Array_toSpliced_Some a xs start n w :
  heap w !! a = Some xs →
  Array_toSpliced a start n w =
    (Ok (length (heap w)), with_heap (heap w ++ [JS.toSpliced xs start n]) w).
Proof.
  intros H. unfold Array_toSpliced. by rewrite (bind_Ok _ _ _ _ _ (Array_get_Some _ _ _ H)).
Qed.

Lemma Array_map_Some {B} a xs (f : string → M B) w :
  heap w !! a = Some xs → Array_map a f w = Array_map_from a f 0 (length xs) w.
Proof.
  intros H. unfold Array_map. by rewrite (bind_Ok _ _ _ _ _ (Array_get_Some _ _ _ H)).
Qed.

Lemma compare_spec img a xs w :
  heap w !! a = Some xs →
  let others := comparison_set img xs in
  let calls := scored img (random w) (draws w) others in
  compare img a w =
    (Ok (result_of_call <$> calls),
     mkWorld (fs w)
             (heap w ++ if decide (JS.indexOf xs img ≠ -1) then [others] else [])
             (oracle_calls w ++ calls)
             (random w) (draws w + length others) (console w) (settles w)).
Proof.
  intros Hheap others calls. unfold compare.
  rewrite (bind_Ok _ _ _ _ _ (Array_indexOf_Some _ _ img _ Hheap)).
  unfold others, calls, comparison_set in *.
  rewrite bool_decide_decide.
  destruct (decide (JS.indexOf xs img ≠ -1)) as [Hi|Hi].
  - rewrite (bind_Ok _ _ _ _ _ (Array_toSpliced_Some _ _ _ 1 _ Hheap)).
    set (w1 := with_heap _ w).
    assert (heap w1 !! length (heap w) = Some (JS.toSpliced xs (JS.indexOf xs img) 1)) as H1.
    { unfold w1. simpl. by rewrite lookup_app_r, Nat.sub_diag by lia. }
    rewrite (Array_map_Some _ _ _ _ H1).
    rewrite (Array_map_from_recognizeFace img _ _ _ 0 w1 H1) by done.
    by rewrite drop_0.
  - erewrite bind_Ok; [|reflexivity].
    rewrite (Array_map_Some _ _ _ _ Hheap).
    rewrite (Array_map_from_recognizeFace img _ _ _ 0 w Hheap) by done.
    by rewrite drop_0, app_nil_r.
Qed.

(** The outer [map] of [runAllComparisons]: every call of [compare] finds
    the listing as it was. *)
Lemma Array_map_from_compare a xs n : ∀ k w,
  heap w !! a = Some xs → (k + n)%nat = length xs →
  let rows := all_scored (random w) (draws w) xs (drop k xs) in
  ∃ w', Array_map_from a (λ img, compare img a) k n w
          = (Ok (map (map result_of_call) rows), w') ∧
        fs w' = fs w ∧ console w' = console w ∧ random w' = random w ∧
        draws w' = (draws w + length (concat rows))%nat ∧
        oracle_calls w' = oracle_calls w ++ concat rows ∧
        (∀ b ys, heap w !! b = Some ys → heap w' !! b = Some ys).
Proof.
  induction n as [|n IH]; intros k w Hheap Hlen; simpl.
  - rewrite drop_ge by lia. simpl. exists w.
    rewrite app_nil_r, Nat.add_0_r. by split_and!.
  - rewrite (bind_Ok _ _ _ _ _ (Array_get_Some _ _ _ Hheap)).
    destruct (xs !! k) as [x|] eqn:Hx.
    2: { apply lookup_ge_None in Hx. lia. }
    rewrite (drop_S _ _ _ Hx). simpl.
    pose proof (compare_spec x a xs w Hheap) as Hc. simpl in Hc.
    set (row := scored x (random w) (draws w) (comparison_set x xs)) in *.
    set (w1 := mkWorld _ _ _ _ _ _ _) in Hc.
    assert (heap w1 !! a = Some xs) as Hheap1.
    { unfold w1. simpl. by apply lookup_app_l_Some. }
    destruct (IH (S k) w1 Hheap1 ltac:(lia))
      as (w2 & Hrun & Hfs & Hcon & Hrnd & Hdraws & Hcalls & Hframe).
    exists w2. rewrite (bind_Ok _ _ _ _ _ Hc), (bind_Ok _ _ _ _ _ Hrun).
    unfold row. rewrite length_scored.
    change (random w1) with (random w) in *.
    change (draws w1) with (draws w + length (comparison_set x xs))%nat in *.
    change (fs w1) with (fs w) in *. change (console w1) with (console w) in *.
    split_and!; try done.
    + rewrite Hdraws, length_app, length_scored. lia.
    + rewrite Hcalls. simpl. by rewrite app_assoc.
    + intros b ys Hb. apply Hframe. unfold w1. simpl. by apply lookup_app_l_Some.
Qed.

Lemma fs_readdir_Directory dir w :
  fs w !! dir = Some Directory → fs_readdir dir w = (Ok (entries dir (fs w)), w).
Proof. unfold fs_readdir. by intros ->. Qed.

Lemma runAllComparisons_spec cachePath w :
  fs w !! cachePath = Some Directory →
  let names := entries cachePath (fs w) in
  let rows := all_scored (random w) (draws w) names names in
  ∃ w', runAllComparisons cachePath w = (Ok (map (map result_of_call) rows), w') ∧
        fs w' = fs w ∧ console w' = console w ∧
        oracle_calls w' = oracle_calls w ++ concat rows ∧
        heap w' !! length (heap w) = Some names ∧
        (∀ b ys, heap w !! b = Some ys → heap w' !! b = Some ys).
Proof.
  intros Hdir names rows. unfold runAllComparisons.
  rewrite (bind_Ok _ _ _ _ _ (fs_readdir_Directory _ _ Hdir)).
  erewrite bind_Ok; [|reflexivity]. fold names.
  set (w1 := with_heap _ w).
  assert (heap w1 !! length (heap w) = Some names) as H1.
  { unfold w1. simpl. by rewrite lookup_app_r, Nat.sub_diag by lia. }
  rewrite (Array_map_Some _ _ _ _ H1).
  destruct (Array_map_from_compare _ _ (length names) 0 w1 H1 eq_refl)
    as (w2 & Hrun & Hfs & Hcon & Hrnd & Hdraws & Hcalls & Hframe).
  rewrite drop_0 in *. exists w2. split_and!; try done.
  - by apply Hframe.
  - intros b ys Hb. apply Hframe. unfold w1. simpl. by apply lookup_app_l_Some.
Qed.

(** *** The comparison set *)

Lemma indexOf_cons y l x :
  JS.indexOf (y :: l) x =
    if decide (y = x) then 0
    else if decide (JS.indexOf l x = -1) then -1 else JS.indexOf l x + 1.
Proof.
  simpl. destruct (String.eqb_spec y x); destruct (decide (y = x)); try done.
  destruct (Z.eqb_spec (JS.indexOf l x) (-1)); by destruct (decide _).
Qed.

Lemma indexOf_range l x : JS.indexOf l x = -1 ∨ 0 ≤ JS.indexOf l x.
Proof.
  induction l as [|y l IH]; [by left|]. rewrite indexOf_cons.
  repeat case_decide; lia.
Qed.

Lemma indexOf_elem_of l x : JS.indexOf l x ≠ -1 ↔ x ∈ l.
Proof.
  induction l as [|y l IH].
  - simpl. split; [done | by intros ?%elem_of_nil].
  - rewrite indexOf_cons, elem_of_cons. destruct (decide (y = x)) as [->|Hne].
    + split; [by left | lia].
    + destruct (decide (JS.indexOf l x = -1)) as [Hi|Hi].
      * split; [done|]. intros [?|Hin]; [congruence|]. by apply IH in Hin.
      * split; [intros _; right; by apply IH | intros _].
        destruct (indexOf_range l x); lia.
Qed.

Lemma comparison_set_cons x y l :
  comparison_set x (y :: l) = if decide (y = x) then l else y :: comparison_set x l.
Proof.
  unfold comparison_set. rewrite indexOf_cons.
  destruct (decide (y = x)) as [->|Hne].
  - rewrite decide_True by done. unfold JS.toSpliced. simpl. by rewrite drop_0.
  - destruct (decide (JS.indexOf l x = -1)) as [Hi|Hi].
    + rewrite decide_False by lia. rewrite decide_False by lia. done.
    + destruct (indexOf_range l x); [done|].
      rewrite decide_True by lia. rewrite decide_True by done.
      unfold JS.toSpliced. rewrite Z2Nat.inj_add by lia.
      by replace (Z.to_nat (JS.indexOf l x) + Z.to_nat 1)%nat
        with (S (Z.to_nat (JS.indexOf l x))) by lia.
Qed.

Lemma comparison_set_not_elem x l : x ∉ l → comparison_set x l = l.
Proof.
  intros H. unfold comparison_set. rewrite decide_False; [done|].
  by rewrite indexOf_elem_of.
Qed.

(** On a listing without repeated names the comparison set of a subject is
    the listing without that subject. *)
Lemma comparison_set_NoDup x l :
  NoDup l → comparison_set x l = filter (λ o, o ≠ x) l.
Proof.
  induction 1 as [|y l Hy Hl IH].
  - done.
  - rewrite comparison_set_cons, filter_cons. destruct (decide (y = x)) as [->|Hne].
    + rewrite decide_False by tauto.
      rewrite <- IH. by rewrite comparison_set_not_elem.
    + rewrite decide_True by done. by rewrite IH.
Qed.

Lemma length_comparison_set x l :
  x ∈ l → length (comparison_set x l) = (length l - 1)%nat.
Proof.
  induction l as [|y l IH]; [by intros ?%elem_of_nil|].
  rewrite comparison_set_cons. intros [->|Hin]%elem_of_cons.
  - rewrite decide_True by done. simpl. lia.
  - destruct (decide (y = x)); simpl; [lia|]. rewrite IH by done.
    destruct l; [by apply elem_of_nil in Hin | simpl; lia].
Qed.

Lemma length_concat_all_scored rnd xs subjects : ∀ d,
  (∀ s, s ∈ subjects → s ∈ xs) →
  length (concat (all_scored rnd d xs subjects))
  = (length subjects * (length xs - 1))%nat.
Proof.
  induction subjects as [|s subjects IH]; intros d Hsub; [done|].
  simpl. rewrite length_app, length_scored, IH, length_comparison_set.
  - lia.
  - apply Hsub. by left.
  - intros s' Hs'. apply Hsub. by right.
Qed.

Lemma elem_of_all_scored rnd xs subjects s o : ∀ d,
  (∃ v, (s, o, v) ∈ concat (all_scored rnd d xs subjects))
  ↔ s ∈ subjects ∧ o ∈ comparison_set s xs.
Proof.
  induction subjects as [|s' subjects IH]; intros d; simpl.
  - split; [by intros [v ?%elem_of_nil] | by intros [?%elem_of_nil _]].
  - split.
    + intros [v [H|H]%elem_of_app].
      * apply elem_of_scored in H as [-> ?]. split; [by left | done].
      * destruct (proj1 (IH _) (ex_intro _ v H)). split; [by right | done].
    + intros [[->|Hs]%elem_of_cons Ho].
      * assert ((s', o) ∈ (scored s' rnd d (comparison_set s' xs)).*1) as Hin.
        { rewrite scored_fst_snd. apply list_elem_of_fmap. eauto. }
        apply list_elem_of_fmap in Hin as ([[s1 o1] v] & [= <- <-] & Hin).
        exists v. apply elem_of_app. by left.
      * destruct (proj2 (IH (d + length (scored s' rnd d (comparison_set s' xs)))%nat)
                     (conj Hs Ho)) as [v Hv].
        exists v. apply elem_of_app. by right.
Qed.

Lemma child_name_Some dir p name :
  child_name dir p = Some name ↔ p = dir ++ [name].
Proof.
  unfold child_name. split.
  - destruct (drop (length dir) p) as [|n [|]] eqn:E; try done.
    case_decide as Ht; [|done]. intros [= ->].
    by rewrite <- (take_drop (length dir) p), Ht, E.
  - intros ->. rewrite drop_app_length, take_app_length. by rewrite decide_True.
Qed.

Lemma elem_of_entries dir f name :
  name ∈ entries dir f ↔ is_Some (f !! (dir ++ [name])).
Proof.
  unfold entries. rewrite list_elem_of_omap. split.
  - intros (p & Hp & ->%child_name_Some).
    apply list_elem_of_fmap in Hp as ([p' nd] & -> & Hp).
    apply elem_of_map_to_list in Hp. by exists nd.
  - intros [nd Hnd]. exists (dir ++ [name]). split; [|by apply child_name_Some].
    apply list_elem_of_fmap. exists (dir ++ [name], nd).
    split; [done | by apply elem_of_map_to_list].
Qed.

Lemma NoDup_omap_inj {A B} (f : A → option B) (l : list A) :
  (∀ x y z, f x = Some z → f y = Some z → x = y) → NoDup l → NoDup (omap f l).
Proof.
  intros Hinj. induction 1 as [|x l Hx Hl IH]; simpl; [constructor|].
  destruct (f x) as [z|] eqn:E; [|done]. constructor; [|done].
  rewrite list_elem_of_omap. intros (y & Hy & Hfy).
  by rewrite (Hinj _ _ _ E Hfy) in Hx.
Qed.

Lemma NoDup_entries dir f : NoDup (entries dir f).
Proof.
  apply NoDup_omap_inj; [|apply NoDup_fst_map_to_list].
  intros x y z ->%child_name_Some ->%child_name_Some. done.
Qed.

(** C1. A cache root whose listing has [n] entries (their names are
    pairwise different) makes [runAllComparisons] return [n * (n - 1)]
    results, one per oracle call; no call pairs a subject with itself, and
    subject [s] meets other [o] exactly when both are listed and differ. *)
Theorem runAllComparisons_pair_count (cachePath : path) (w : World) :
  fs w !! cachePath = Some Directory →
  let names := entries cachePath (fs w) in
  let n := length names in
  NoDup names ∧
  ∃ rs calls w',
    runAllComparisons cachePath w = (Ok rs, w') ∧
    oracle_calls w' = oracle_calls w ++ calls ∧
    concat rs = result_of_call <$> calls ∧
    length (concat rs) = (n * (n - 1))%nat ∧
    (∀ s o v, (s, o, v) ∈ calls → s ≠ o) ∧
    (∀ s o, (∃ v, (s, o, v) ∈ calls) ↔ s ∈ names ∧ o ∈ names ∧ o ≠ s).
Proof.
  intros Hdir names n.
  pose proof (NoDup_entries cachePath (fs w)) as Hnd. fold names in Hnd.
  split; [done|].
  destruct (runAllComparisons_spec cachePath w Hdir)
    as (w' & Hrun & _ & _ & Hcalls & _). fold names in Hrun, Hcalls.
  set (rows := all_scored (random w) (draws w) names names) in *.
  assert (∀ s o, (∃ v, (s, o, v) ∈ concat rows) ↔ s ∈ names ∧ o ∈ names ∧ o ≠ s) as Hmem.
  { intros s o. unfold rows. rewrite elem_of_all_scored.
    rewrite comparison_set_NoDup, list_elem_of_filter by done. tauto. }
  exists (map (map result_of_call) rows), (concat rows), w'.
  split_and!; try done.
  - by rewrite concat_map.
  - rewrite <- concat_map, length_map. unfold rows.
    by rewrite length_concat_all_scored.
  - intros s o v Hin. destruct (proj1 (Hmem s o) (ex_intro _ v Hin)) as (_ & _ & ?).
    congruence.
Qed.

(** C4. [compare] of subject [img] makes one oracle call per entry [o] of
    the comparison set, with the arguments [(img, o)] in that order, and the
    result for that call has the size parsed from the part of [o]'s name
    before the first dash and the score the call resolved with. *)
Theorem compare_result_fields (img : string) (a : loc) (xs : list string) (w : World) :
  heap w !! a = Some xs →
  ∃ rs calls w',
    compare img a w = (Ok rs, w') ∧
    oracle_calls w' = oracle_calls w ++ calls ∧
    calls.*1 = (λ o, (img, o)) <$> comparison_set img xs ∧
    Forall2 (λ r c, size r = JS.parseInt (JS.split_0 "-" c.1.2) ∧ score r = c.2)
            rs calls.
Proof.
  intros Hheap. pose proof (compare_spec img a xs w Hheap) as Hc. simpl in Hc.
  eexists _, _, _. split; [exact Hc|]. simpl. split_and!.
  - done.
  - apply scored_fst_snd.
  - apply Forall2_fmap_l, Forall_Forall2_diag, Forall_forall. by intros [[s o] v] _.
Qed.

Lemma compare_heap_frame img a w b ys :
  heap w !! b = Some ys → heap (compare img a w).2 !! b = Some ys.
Proof.
  intros Hb. destruct (heap w !! a) as [xs|] eqn:Ha.
  - rewrite (compare_spec img a xs w Ha). simpl. by apply lookup_app_l_Some.
  - unfold compare, Array_indexOf, Array_get. rewrite !bind_unfold, Ha. done.
Qed.

Lemma all_scored_rows rnd xs subjects : ∀ d,
  Forall2 (λ s row, row.*1 = (λ o, (s, o)) <$> comparison_set s xs)
          subjects (all_scored rnd d xs subjects).
Proof.
  induction subjects as [|s subjects IH]; intros d; simpl; constructor.
  - apply scored_fst_snd.
  - apply IH.
Qed.

(** C10. [compare] leaves every array that exists when it is called as it
    is, the listing it is given included: the copy without the subject is a
    new array.  So in [runAllComparisons], where all calls share one
    listing, the listing is still whole at the end and the calls made for
    each subject are those for the whole listing without that subject. *)
Theorem compare_keeps_listing :
  (∀ img a w b ys,
     heap w !! b = Some ys → heap (compare img a w).2 !! b = Some ys) ∧
  (∀ cachePath w,
     fs w !! cachePath = Some Directory →
     let names := entries cachePath (fs w) in
     ∃ rs rows w',
       runAllComparisons cachePath w = (Ok rs, w') ∧
       heap w' !! length (heap w) = Some names ∧
       oracle_calls w' = oracle_calls w ++ concat rows ∧
       rs = map (map result_of_call) rows ∧
       Forall2 (λ s row, row.*1 = (λ o, (s, o)) <$> filter (λ o, o ≠ s) names)
               names rows).
Proof.
  split; [apply compare_heap_frame|].
  intros cachePath w Hdir names.
  destruct (runAllComparisons_spec cachePath w Hdir)
    as (w' & Hrun & _ & _ & Hcalls & Hlisting & _). fold names in Hrun, Hcalls, Hlisting.
  eexists _, _, w'. split_and!; [exact Hrun|done|exact Hcalls|done|].
  eapply Forall2_impl; [apply all_scored_rows|].
  intros s row Hrow. simpl in Hrow.
  by rewrite <- comparison_set_NoDup by apply NoDup_entries.
Qed.

(** *** Aggregation *)

Lemma elem_of_first_seen {K} `{EqDecision K} (l : list K) x :
  x ∈ first_seen l ↔ x ∈ l.
Proof.
  induction l as [|y l IH]; [done|]. simpl.
  rewrite !elem_of_cons, list_elem_of_filter, IH.
  destruct (decide (x = y)); tauto.
Qed.

Lemma NoDup_first_seen {K} `{EqDecision K} (l : list K) : NoDup (first_seen l).
Proof.
  induction l as [|y l IH]; simpl; constructor.
  - rewrite list_elem_of_filter. tauto.
  - by apply NoDup_filter.
Qed.

Lemma first_seen_snoc {K} `{EqDecision K} (l : list K) k :
  first_seen (l ++ [k]) = if decide (k ∈ l) then first_seen l else first_seen l ++ [k].
Proof.
  induction l as [|x l IH]; [done|]. cbn [first_seen app]. rewrite IH.
  destruct (decide (k ∈ x :: l)) as [Hin'|Hin'];
    destruct (decide (k ∈ l)) as [Hin|Hin]; rewrite elem_of_cons in Hin'.
  - done.
  - destruct Hin' as [->|?]; [|done].
    rewrite filter_app, filter_cons, filter_nil.
    destruct (decide (x ≠ x)); [done | by rewrite app_nil_r].
  - tauto.
  - rewrite filter_app, filter_cons, filter_nil.
    destruct (decide (k ≠ x)); [done | tauto].
Qed.

Lemma scores_of_snoc s rs r :
  scores_of s (rs ++ [r]) = scores_of s rs ++ if decide (size r = s) then [score r] else [].
Proof.
  unfold scores_of. rewrite filter_app, fmap_app, filter_cons, filter_nil.
  by destruct (decide (size r = s)).
Qed.

Lemma scores_of_absent s rs : s ∉ size <$> rs → scores_of s rs = [].
Proof.
  intros Hs. unfold scores_of. induction rs as [|r rs IH]; [done|].
  rewrite fmap_cons, not_elem_of_cons in Hs. destruct Hs as [Hne Hs].
  rewrite filter_cons, decide_False by done. by apply IH.
Qed.

Section Map_lemmas.
Context {K V : Type} `{EqDecision K}.
Implicit Types (g : K → V) (l : list K).

Lemma Map_get_tabulate g l k :
  JS.Map_get ((λ s, (s, g s)) <$> l) k = if decide (k ∈ l) then Some (g k) else None.
Proof.
  induction l as [|x l IH]; [done|]. cbn [fmap list_fmap JS.Map_get]. rewrite IH.
  destruct (decide (k ∈ x :: l)) as [Hin'|Hin'];
    destruct (decide (k ∈ l)) as [Hin|Hin]; rewrite elem_of_cons in Hin';
    destruct (decide (x = k)) as [->|Hne]; try done; intuition congruence.
Qed.

Lemma Map_set_tabulate_absent g g' l k v :
  k ∉ l → (∀ s, s ∈ l → g' s = g s) →
  JS.Map_set ((λ s, (s, g s)) <$> l) k v = ((λ s, (s, g' s)) <$> l) ++ [(k, v)].
Proof.
  induction l as [|x l IH]; intros Hk Hg; [done|].
  apply not_elem_of_cons in Hk as [Hne Hk].
  cbn [fmap list_fmap JS.Map_set]. destruct (decide (x = k)); [congruence|].
  rewrite IH, Hg; try done.
  - apply list_elem_of_here.
  - intros s Hs. apply Hg. by apply list_elem_of_further.
Qed.

Lemma Map_set_tabulate_present g g' l k v :
  NoDup l → k ∈ l → g' k = v → (∀ s, s ∈ l → s ≠ k → g' s = g s) →
  JS.Map_set ((λ s, (s, g s)) <$> l) k v = (λ s, (s, g' s)) <$> l.
Proof.
  induction 1 as [|x l Hx Hl IH]; intros Hk Hv Hg; [by apply elem_of_nil in Hk|].
  cbn [fmap list_fmap JS.Map_set]. destruct (decide (x = k)) as [->|Hne].
  - rewrite Hv. f_equal. apply list_fmap_ext. intros i s Hs.
    apply list_elem_of_lookup_2 in Hs.
    rewrite Hg; [done | by apply list_elem_of_further | congruence].
  - apply elem_of_cons in Hk as [->|Hk]; [done|].
    rewrite (Hg x) by (done || apply list_elem_of_here).
    f_equal. apply IH; [done..|].
    intros s Hs. apply Hg. by apply list_elem_of_further.
Qed.
End Map_lemmas.

(** The map [createChart] builds holds, for each size in first-seen order,
    the scores tagged with it. *)
Lemma orderedResults_spec results :
  orderedResults results =
    (λ s, (s, scores_of s results)) <$> first_seen (size <$> results).
Proof.
  induction results as [|r rs IH] using rev_ind; [done|].
  unfold orderedResults in *. rewrite fold_left_app. simpl. rewrite IH.
  rewrite fmap_app. change (size <$> [r]) with [size r].
  rewrite first_seen_snoc, Map_get_tabulate.
  destruct (decide (size r ∈ size <$> rs)) as [Hin|Hin].
  - rewrite decide_True by (by apply elem_of_first_seen). simpl.
    apply Map_set_tabulate_present.
    + apply NoDup_first_seen.
    + by apply elem_of_first_seen.
    + by rewrite scores_of_snoc, decide_True.
    + intros s _ Hne. rewrite scores_of_snoc, decide_False by done.
      by rewrite app_nil_r.
  - rewrite decide_False by (by rewrite elem_of_first_seen). simpl.
    rewrite fmap_app. simpl.
    rewrite (scores_of_snoc (size r)), decide_True, scores_of_absent by done.
    apply Map_set_tabulate_absent.
    + by rewrite elem_of_first_seen.
    + intros s Hs. apply (proj1 (elem_of_first_seen _ _)) in Hs.
      rewrite scores_of_snoc. destruct (decide (size r = s)) as [<-|_]; [done|].
      by rewrite app_nil_r.
Qed.

(** The mean of the code is the arithmetic mean. *)
Lemma mean_arithmetic vals : mean vals = arithmetic_mean vals.
Proof.
  unfold mean, arithmetic_mean, sum_of, Number_of_length. f_equal.
  symmetry. apply (fold_left_rev_right (λ v sum, PrimFloat.add sum v)).
Qed.


Example arithmetic_mean_values :
  arithmetic_mean [0.25; 0.75]%float = 0.5%float ∧
  arithmetic_mean [1; 2; 6]%float = 3%float ∧
  arithmetic_mean [0.5]%float = 0.5%float.
Proof. vm_compute. by split_and!. Qed.

(** *** Rendering and reading back a width *)

Lemma digit_ind (P : N → Prop) :
  P 0%N → P 1%N → P 2%N → P 3%N → P 4%N → P 5%N → P 6%N → P 7%N → P 8%N → P 9%N →
  ∀ d, (d < 10)%N → P d.
Proof.
  intros ? ? ? ? ? ? ? ? ? ? d Hd.
  assert (d = 0 ∨ d = 1 ∨ d = 2 ∨ d = 3 ∨ d = 4 ∨ d = 5 ∨ d = 6 ∨ d = 7
          ∨ d = 8 ∨ d = 9)%N as Hc by lia.
  repeat (destruct Hc as [->|Hc]; [assumption|]). by subst.
Qed.

Lemma digit_of_digit_char d : (d < 10)%N → JS.digit_of_char (JS.digit_char d) = Some d.
Proof. revert d. by apply digit_ind. Qed.

Lemma digit_char_not_dash d : (d < 10)%N → Ascii.eqb (JS.digit_char d) "-" = false.
Proof. revert d. by apply digit_ind. Qed.

(** [parseInt] on a string that starts with a digit reads digits at once:
    there is no white space to skip and no sign. *)
Lemma parseInt_digit_first d s :
  (d < 10)%N →
  JS.parseInt (String (JS.digit_char d) s)
  = Z.of_N <$> JS.parse_digits (String (JS.digit_char d) s) None.
Proof. revert d. by apply digit_ind. Qed.

Lemma parse_digits_string_of_digits ds : ∀ acc,
  Forall (λ d, d < 10)%N ds →
  JS.parse_digits (JS.string_of_digits ds) acc
  = match ds with
    | [] => acc
    | _ => Some (fold_left (λ a d, 10 * a + d)%N ds (default 0%N acc))
    end.
Proof.
  induction ds as [|d ds IH]; intros acc Hds; [done|].
  apply Forall_cons in Hds as [Hd Hds]. cbn [JS.string_of_digits JS.parse_digits].
  rewrite digit_of_digit_char by done. rewrite IH by done.
  by destruct ds.
Qed.

Lemma digits_go_app fuel : ∀ n acc,
  JS.digits_go fuel n acc = JS.digits_go fuel n [] ++ acc.
Proof.
  induction fuel as [|fuel IH]; intros n acc; [done|]. simpl.
  destruct (n =? 0)%N; [done|].
  rewrite IH, (IH _ [_]). by rewrite <- app_assoc.
Qed.

Lemma size_nat_div10 n : (0 < n)%N → (N.size_nat (n / 10) < N.size_nat n)%nat.
Proof.
  intros Hn.
  assert (n / 10 <= n / 2)%N as Hle.
  { apply N.div_le_compat_l. lia. }
  assert (N.size_nat (N.div2 n) < N.size_nat n)%nat as H2.
  { destruct n as [|[p|p|]]; simpl; lia. }
  rewrite N.div2_div in H2.
  assert (∀ a b, (a <= b)%N → (N.size_nat a <= N.size_nat b)%nat) as Hmono.
  { intros a b Hab. destruct a as [|a]; [simpl; lia|]. destruct b as [|b]; [lia|].
    simpl. revert b Hab. induction a as [a IHa|a IHa|]; intros [b|b|] Hab; simpl;
      try lia; try (apply le_n_S, IHa; lia). }
  specialize (Hmono _ _ Hle). lia.
Qed.

Lemma digits_go_spec fuel : ∀ n,
  (N.size_nat n <= fuel)%nat →
  digits_value (JS.digits_go fuel n []) = n ∧
  Forall (λ d, d < 10)%N (JS.digits_go fuel n []) ∧
  (JS.digits_go fuel n [] = [] → n = 0%N).
Proof.
  induction fuel as [|fuel IH]; intros n Hfuel.
  - destruct n as [|[p|p|]]; simpl in *; [done | lia..].
  - simpl. destruct (N.eqb_spec n 0) as [->|Hn]; [done|].
    rewrite digits_go_app.
    destruct (IH (n / 10)%N) as (Hv & Hall & _).
    { pose proof (size_nat_div10 n). lia. }
    split_and!.
    + unfold digits_value in *. rewrite fold_left_app, Hv. simpl.
      pose proof (N.div_mod n 10). lia.
    + apply Forall_app. split; [done|]. constructor; [|done].
      apply N.mod_lt. lia.
    + intros H. apply app_eq_nil in H as [_ H]. discriminate.
Qed.

Lemma digits_spec n :
  digits_value (JS.digits n) = n ∧ Forall (λ d, d < 10)%N (JS.digits n) ∧
  JS.digits n ≠ [].
Proof.
  unfold JS.digits. destruct (N.eqb_spec n 0) as [->|Hn].
  - split_and!; [done | by repeat constructor | done].
  - destruct (digits_go_spec (N.size_nat n) n) as (Hv & Hall & Hnil); [done|].
    split_and!; [done | done | intros H; by apply Hn, Hnil].
Qed.

Lemma split_0_digits ds r :
  Forall (λ d, d < 10)%N ds →
  JS.split_0 "-" (JS.string_of_digits ds +:+ String "-" r) = JS.string_of_digits ds.
Proof.
  induction 1 as [|d ds Hd Hds IH]; [done|].
  change (JS.string_of_digits (d :: ds) +:+ String "-" r)
    with (String (JS.digit_char d) (JS.string_of_digits ds +:+ String "-" r)).
  cbn [JS.split_0 JS.string_of_digits].
  rewrite digit_char_not_dash by done. f_equal. apply IH.
Qed.

Lemma parseInt_digits n : JS.parseInt (JS.string_of_digits (JS.digits n)) = Some (Z.of_N n).
Proof.
  destruct (digits_spec n) as (Hv & Hall & Hne).
  destruct (JS.digits n) as [|d ds] eqn:E; [done|].
  pose proof Hall as Hall'. apply Forall_cons in Hall' as [Hd _].
  cbn [JS.string_of_digits]. rewrite parseInt_digit_first by done.
  change (String (JS.digit_char d) (JS.string_of_digits ds))
    with (JS.string_of_digits (d :: ds)).
  rewrite parse_digits_string_of_digits by done. simpl.
  unfold digits_value in Hv. simpl in Hv. by rewrite Hv.
Qed.

Lemma Number_toString_small size :
  0 < size < 10 ^ 21 →
  JS.Number_toString size = JS.string_of_digits (JS.digits (Z.to_N size)).
Proof.
  intros [Hpos Hlt]. destruct size as [|p|p]; [lia| |lia].
  unfold JS.Number_toString, JS.Number_toString_pos. simpl Z.to_N.
  destruct (N.ltb_spec (N.pos p) (10 ^ 21)) as [_|Hge]; [done|].
  exfalso. apply N2Z.inj_le in Hge. rewrite N2Z.inj_pow in Hge. simpl in Hge. lia.
Qed.

(** C9, as amended. For a width from 1 to 10^21 - 1, the size [compare]
    reads from the name [cacheImages] gives an entry is that width. *)
Theorem size_roundtrip_below_1e21
    (sha256 : Buffer → Buffer) (size : Z) (downscaledImage : Buffer) :
  0 < size < 10 ^ 21 →
  JS.parseInt (JS.split_0 "-" (entry_name sha256 (JS.JNum size) downscaledImage))
  = Some size.
Proof.
  intros Hsize. unfold entry_name. cbn [JS.ToString].
  rewrite Number_toString_small by done.
  change ("-" +:+ ?s) with (String "-" s).
  destruct (digits_spec (Z.to_N size)) as (_ & Hall & _).
  rewrite split_0_digits by done. rewrite parseInt_digits.
  f_equal. lia.
Qed.

(** C9, as stated, fails from 10^21 on: that width is written [1e+21], and
    [parseInt] stops at the [e]. *)
Lemma size_roundtrip_fails_at_1e21 :
  ¬ (∀ (sha256 : Buffer → Buffer) (size : Z) (downscaledImage : Buffer),
       0 < size →
       JS.parseInt (JS.split_0 "-" (entry_name sha256 (JS.JNum size) downscaledImage))
       = Some size).
Proof.
  intros H. specialize (H (λ _, []) (10 ^ 21) [] eq_refl).
  vm_compute in H. discriminate.
Qed.

(** *** Populating the cache *)

Lemma lookup_foldr_insert_Directory (qs : list path) (f : gmap path node) k :
  foldr (λ q f, <[q := Directory]> f) f qs !! k
  = if decide (k ∈ qs) then Some Directory else f !! k.
Proof.
  induction qs as [|q qs IH]; cbn [foldr].
  - by rewrite decide_False by apply not_elem_of_nil.
  - rewrite lookup_insert. destruct (decide (q = k)) as [->|Hne].
    + rewrite decide_True; [done | apply list_elem_of_here].
    + rewrite IH. destruct (decide (k ∈ qs)) as [Hin|Hin].
      * rewrite decide_True; [done | by apply list_elem_of_further].
      * rewrite decide_False; [done|]. rewrite elem_of_cons. intuition congruence.
Qed.

Lemma elem_of_prefixes p q : q ∈ prefixes p ↔ q `prefix_of` p.
Proof.
  unfold prefixes. rewrite list_elem_of_fmap. split.
  - intros (n & -> & _). apply prefix_take.
  - intros [k ->]. exists (length q). split.
    + by rewrite take_app_length.
    + apply elem_of_seq. rewrite length_app. lia.
Qed.

Lemma fs_mkdir_recursive_Ok p w w' :
  fs_mkdir_recursive p w = (Ok (), w') →
  fs w' !! p = Some Directory ∧
  (∀ q, ¬ q `prefix_of` p → fs w' !! q = fs w !! q).
Proof.
  unfold fs_mkdir_recursive. destruct (existsb _ _); [done|].
  intros H.
  assert (w' = with_fs (foldr (λ q f, <[q := Directory]> f) (fs w) (prefixes p)) w)
    as -> by congruence.
  clear H. cbn [fs with_fs]. split.
  - rewrite lookup_foldr_insert_Directory, decide_True; [done|].
    by apply elem_of_prefixes.
  - intros q Hq. rewrite lookup_foldr_insert_Directory, decide_False; [done|].
    by rewrite elem_of_prefixes.
Qed.

Lemma not_prefix_of_child (dir : path) name : ¬ (dir ++ [name]) `prefix_of` dir.
Proof. intros H%prefix_length. rewrite length_app in H. simpl in H. lia. Qed.

(** After the first two steps of [cacheImages] the cache root is an empty
    directory. *)
Lemma clear_then_mkdir cachePath w w1 :
  fs_wf (fs w) = true →
  (_ ← clearCache cachePath; fs_mkdir_recursive cachePath) w = (Ok (), w1) →
  fs w1 !! cachePath = Some Directory ∧
  ∀ name, fs w1 !! (cachePath ++ [name]) = None.
Proof.
  intros Hwf Hrun.
  apply bind_Ok_inv in Hrun as ([] & w0 & Hclear & Hrun).
  destruct (clearCache_Ok cachePath w w0 Hclear)
    as (_ & _ & _ & _ & _ & _ & _ & _ & Hbelow).
  apply fs_mkdir_recursive_Ok in Hrun as [Hdir Hrest]. split; [done|].
  intros name. rewrite Hrest by apply not_prefix_of_child.
  apply Hbelow; [done|]. by apply prefix_app_r.
Qed.

Lemma cacheImage_Ok sha256 sharp cachePath img size w w' :
  cacheImage sha256 sharp cachePath img size w = (Ok (), w') →
  ∃ b, sharp img size = Some b ∧
       fs w' = <[cachePath ++ [entry_name sha256 size b] := File b]> (fs w).
Proof.
  unfold cacheImage, downscaleImage. destruct (sharp img size) as [b|]; [|done].
  erewrite bind_Ok; [|reflexivity]. unfold fs_writeFile, path_join.
  repeat case_match; try done. all: intros [= <-]; by exists b.
Qed.

(** What a run of [Promise_all] that completes has done: a step relation
    that the tasks compose, and a fact each task establishes and later
    tasks keep. *)
Lemma Promise_all_Ok {A B} (f : A → M B) (Step : World → World → Prop)
    (Post : A → World → Prop) (l : list A) :
  (∀ w, Step w w) →
  (∀ w1 w2 w3, Step w1 w2 → Step w2 w3 → Step w1 w3) →
  (∀ x w w', Post x w → Step w w' → Post x w') →
  (∀ x w y w', x ∈ l → f x w = (Ok y, w') → Step w w' ∧ Post x w') →
  ∀ w ys w', Promise_all f l w = (Ok ys, w') →
             Step w w' ∧ ∀ x, x ∈ l → Post x w'.
Proof.
  intros Hrefl Htrans Hkeep. induction l as [|x l IH]; intros Hf w ys w' Hrun.
  - injection Hrun as <- <-. split; [done | by intros x ?%elem_of_nil].
  - cbn [Promise_all] in Hrun.
    apply bind_Ok_inv in Hrun as (y & w1 & Hx & Hrun).
    apply bind_Ok_inv in Hrun as (ys' & w2 & Hl & Hrun).
    injection Hrun as <- <-.
    destruct (Hf x w y w1 (list_elem_of_here _ _) Hx) as [Hstep Hpost].
    destruct (IH (λ x' w0 y' w0' Hx', Hf x' w0 y' w0' (list_elem_of_further _ _ _ Hx'))
                 w1 ys' w2 Hl) as [Hstep' Hpost'].
    split; [by eapply Htrans|].
    intros x' [->|Hx']%elem_of_cons; [by eapply Hkeep | by apply Hpost'].
Qed.

Section cache.
Variable sha256 : Buffer → Buffer.
Variable sharp : path → JS.json → option Buffer.
Variable cachePath : path.
Variable images : list path.
Variable sizes : list JS.json.

#[local] Abbreviation written := (written sha256 sharp cachePath images sizes).
#[local] Abbreviation cache_step := (cache_step sha256 sharp cachePath images sizes).
#[local] Abbreviation cached := (cached sha256 sharp cachePath).

Lemma cache_step_refl w : cache_step w w.
Proof. split; auto. Qed.

Lemma cache_step_trans w1 w2 w3 :
  cache_step w1 w2 → cache_step w2 w3 → cache_step w1 w3.
Proof.
  intros [H12 D12] [H23 D23]. split.
  - intros q nd Hq. destruct (H23 q nd Hq) as [Hq2|?]; [|by right]. by apply H12.
  - intros q Hq. by apply D23, D12.
Qed.

Lemma cached_keep img size w w' :
  cached img size w → cache_step w w' → cached img size w'.
Proof. intros (b & Hb & Hin) [_ Hdom]. exists b. split; [done | by apply Hdom]. Qed.

Lemma cacheImage_step img size w w' :
  img ∈ images → size ∈ sizes →
  cacheImage sha256 sharp cachePath img size w = (Ok (), w') →
  cache_step w w' ∧ cached img size w'.
Proof.
  intros Himg Hsize (b & Hb & Hfs)%cacheImage_Ok. split; [split|].
  - intros q nd. rewrite Hfs, lookup_insert_Some.
    intros [[<- <-]|[_ Hq]]; [right | by left].
    by exists img, size, b.
  - intros q Hq. rewrite Hfs. apply lookup_insert_is_Some'. by right.
  - exists b. split; [done|]. rewrite Hfs, lookup_insert_eq. by eexists.
Qed.

Lemma cacheImages_tasks w ys w' :
  Promise_all (λ img,
      _ ← Promise_all (λ size, cacheImage sha256 sharp cachePath img size) sizes;
      mret ()) images w = (Ok ys, w') →
  cache_step w w' ∧ ∀ img, img ∈ images → ∀ size, size ∈ sizes → cached img size w'.
Proof.
  apply (Promise_all_Ok _ cache_step
           (λ img w, ∀ size, size ∈ sizes → cached img size w)).
  - apply cache_step_refl.
  - apply cache_step_trans.
  - intros img w1 w2 Hc Hstep size Hsize. eapply cached_keep; [by apply Hc | done].
  - intros img w1 [] w2 Himg Hrun.
    apply bind_Ok_inv in Hrun as (zs & w3 & Hrun & Hret).
    injection Hret as <-.
    revert Hrun. apply (Promise_all_Ok _ cache_step (cached img)).
    + apply cache_step_refl.
    + apply cache_step_trans.
    + intros size. apply cached_keep.
    + intros size w4 [] w5 Hsize. by apply cacheImage_step.
Qed.

(** The same holds in whatever order the tasks run, which the script
    leaves to the scheduler. *)
Lemma cacheImage_any_order (tasks : list (path * JS.json)) w ys w' :
  (∀ t, t ∈ tasks → t.1 ∈ images ∧ t.2 ∈ sizes) →
  Promise_all (λ t, cacheImage sha256 sharp cachePath t.1 t.2) tasks w = (Ok ys, w') →
  cache_step w w' ∧ ∀ t, t ∈ tasks → cached t.1 t.2 w'.
Proof.
  intros Htasks.
  apply (Promise_all_Ok _ cache_step (λ t w, cached t.1 t.2 w)).
  - apply cache_step_refl.
  - apply cache_step_trans.
  - intros t. apply cached_keep.
  - intros t w1 [] w2 Ht. destruct (Htasks t Ht). by apply cacheImage_step.
Qed.

(** A population that completes leaves the cache root a directory whose
    entries are exactly what the tasks wrote, one entry for every task. *)
Lemma cacheImages_Ok w w' :
  fs_wf (fs w) = true →
  cacheImages sha256 sharp images cachePath sizes w = (Ok (), w') →
  fs w' !! cachePath = Some Directory ∧
  (∀ name nd, fs w' !! (cachePath ++ [name]) = Some nd →
              written (cachePath ++ [name]) nd) ∧
  (∀ img size, img ∈ images → size ∈ sizes → cached img size w').
Proof.
  intros Hwf Hrun. unfold cacheImages in Hrun.
  apply bind_Ok_inv in Hrun as ([] & w0 & Hclear & Hrun).
  apply bind_Ok_inv in Hrun as ([] & w1 & Hmkdir & Hrun).
  apply bind_Ok_inv in Hrun as (ys & w2 & Htasks & Hret).
  injection Hret as <-.
  destruct (clear_then_mkdir cachePath w w1 Hwf) as [Hdir Hempty].
  { by rewrite (bind_Ok _ _ _ _ _ Hclear). }
  apply cacheImages_tasks in Htasks as [[Hold Hdom] Hall].
  split_and!.
  - destruct (Hdom cachePath) as [nd Hnd]; [by rewrite Hdir|].
    destruct (Hold _ _ Hnd) as [Hnd'|(img & size & b & _ & _ & _ & Heq & _)].
    + congruence.
    + exfalso. apply (f_equal length) in Heq. rewrite length_app in Heq.
      simpl in Heq. lia.
  - intros name nd Hnd. destruct (Hold _ _ Hnd) as [Hnd'|?]; [|done].
    by rewrite Hempty in Hnd'.
  - intros img size Himg Hsize. by apply Hall.
Qed.

End cache.

(** *** Entry names determine size text and digest *)

#[local] Abbreviation chars := list_ascii_of_string.

Lemma chars_app s1 s2 : chars (s1 +:+ s2) = chars s1 ++ chars s2.
Proof. induction s1 as [|c s1 IH]; [done|]. cbn. by rewrite <- IH. Qed.

Lemma chars_inj s1 s2 : chars s1 = chars s2 → s1 = s2.
Proof.
  intros H. rewrite <- (string_of_list_ascii_of_string s1),
    <- (string_of_list_ascii_of_string s2). by rewrite H.
Qed.

Lemma N_of_hex_digit n :
  (n < 16)%N → N_of_ascii (hex_digit n) = if (n <? 10)%N then (48 + n)%N else (87 + n)%N.
Proof.
  intros Hn. unfold hex_digit. destruct (N.ltb_spec n 10);
    apply N_ascii_embedding; lia.
Qed.

Lemma hex_digit_inj n m :
  (n < 16)%N → (m < 16)%N → hex_digit n = hex_digit m → n = m.
Proof.
  intros Hn Hm H. apply (f_equal N_of_ascii) in H.
  rewrite !N_of_hex_digit in H by done.
  destruct (N.ltb_spec n 10), (N.ltb_spec m 10); lia.
Qed.

Lemma hex_digit_not_dash n : (n < 16)%N → hex_digit n ≠ "-"%char.
Proof.
  intros Hn H. apply (f_equal N_of_ascii) in H.
  rewrite N_of_hex_digit in H by done. simpl in H.
  destruct (N.ltb_spec n 10); lia.
Qed.

Lemma byte_to_N_lt b : (Byte.to_N b < 256)%N.
Proof. by destruct b. Qed.

Lemma byte_to_N_inj b1 b2 : Byte.to_N b1 = Byte.to_N b2 → b1 = b2.
Proof.
  intros H. apply (f_equal Byte.of_N) in H. rewrite !Byte.of_to_N in H. congruence.
Qed.

Lemma hex_cons b bs :
  hex (b :: bs) = String (hex_digit (Byte.to_N b / 16))
                    (String (hex_digit (Byte.to_N b mod 16)) (hex bs)).
Proof. done. Qed.

Lemma hex_inj bs1 bs2 : hex bs1 = hex bs2 → bs1 = bs2.
Proof.
  revert bs2. induction bs1 as [|b1 bs1 IH]; intros [|b2 bs2]; try done.
  rewrite !hex_cons. intros [= Hhi Hlo Hrest].
  pose proof (byte_to_N_lt b1). pose proof (byte_to_N_lt b2).
  apply hex_digit_inj in Hhi; [|apply N.Div0.div_lt_upper_bound; lia..].
  apply hex_digit_inj in Hlo; [|apply N.mod_lt; lia..].
  f_equal; [|by apply IH]. apply byte_to_N_inj.
  rewrite (N.div_mod (Byte.to_N b1) 16), (N.div_mod (Byte.to_N b2) 16) by lia. lia.
Qed.

Lemma hex_no_dash bs : "-"%char ∉ chars (hex bs).
Proof.
  induction bs as [|b bs IH]; [apply not_elem_of_nil|].
  rewrite hex_cons. cbn [list_ascii_of_string].
  pose proof (byte_to_N_lt b).
  rewrite !not_elem_of_cons. split_and!; [| |done].
  - intros Heq. symmetry in Heq. revert Heq. apply hex_digit_not_dash.
    apply N.Div0.div_lt_upper_bound; lia.
  - intros Heq. symmetry in Heq. revert Heq. apply hex_digit_not_dash.
    apply N.mod_lt; lia.
Qed.

(** Two entry names are equal only if the size texts and the digests are:
    the digest runs from the last dash to the extension. *)
Lemma entry_name_inj sha256 size1 size2 b1 b2 :
  entry_name sha256 size1 b1 = entry_name sha256 size2 b2 →
  JS.ToString size1 = JS.ToString size2 ∧ sha256 b1 = sha256 b2.
Proof.
  unfold entry_name. intros H. apply (f_equal chars) in H.
  rewrite !chars_app in H. cbn [list_ascii_of_string app] in H.
  apply app_inj_pivot in H as [[[_ Hin]|[Hin _]]|[HS HH]].
  - exfalso. apply list_elem_of_In, elem_of_app in Hin as [Hin|Hin].
    + by apply hex_no_dash in Hin.
    + repeat (apply elem_of_cons in Hin as [Hin|Hin]; [discriminate|]).
      by apply elem_of_nil in Hin.
  - exfalso. apply list_elem_of_In, elem_of_app in Hin as [Hin|Hin].
    + by apply hex_no_dash in Hin.
    + repeat (apply elem_of_cons in Hin as [Hin|Hin]; [discriminate|]).
      by apply elem_of_nil in Hin.
  - split; [by apply chars_inj|].
    apply app_inv_tail in HH. by apply hex_inj, chars_inj.
Qed.

(** *** The text of a width determines the width *)

Lemma N_of_digit_char d : (d < 10)%N → N_of_ascii (JS.digit_char d) = (48 + d)%N.
Proof. intros Hd. apply N_ascii_embedding. lia. Qed.

Lemma digit_char_inj d1 d2 :
  (d1 < 10)%N → (d2 < 10)%N → JS.digit_char d1 = JS.digit_char d2 → d1 = d2.
Proof.
  intros H1 H2 H. apply (f_equal N_of_ascii) in H.
  rewrite !N_of_digit_char in H by done. lia.
Qed.

Lemma digit_char_neq d (c : ascii) :
  (d < 10)%N → (N_of_ascii c < 48 ∨ 57 < N_of_ascii c)%N → JS.digit_char d ≠ c.
Proof. intros Hd Hc <-. rewrite N_of_digit_char in Hc by done. lia. Qed.

Lemma chars_string_of_digits ds : chars (JS.string_of_digits ds) = JS.digit_char <$> ds.
Proof. induction ds as [|d ds IH]; [done|]. cbn. by rewrite IH. Qed.

Lemma digit_chars_inj ds1 ds2 :
  Forall (λ d, d < 10)%N ds1 → Forall (λ d, d < 10)%N ds2 →
  JS.digit_char <$> ds1 = JS.digit_char <$> ds2 → ds1 = ds2.
Proof.
  intros H1. revert ds2. induction H1 as [|d1 ds1 Hd1 _ IH]; intros [|d2 ds2] H2; try done.
  apply Forall_cons in H2 as [Hd2 H2]. intros [= Hd Hds].
  f_equal; [by apply digit_char_inj | by apply IH].
Qed.

Lemma not_elem_of_digit_chars ds (c : ascii) :
  Forall (λ d, d < 10)%N ds → (N_of_ascii c < 48 ∨ 57 < N_of_ascii c)%N →
  c ∉ JS.digit_char <$> ds.
Proof.
  intros Hds Hc (d & -> & Hd)%list_elem_of_fmap.
  rewrite Forall_forall in Hds. by eapply digit_char_neq; [apply Hds|..].
Qed.

Lemma digits_inj n1 n2 : JS.digits n1 = JS.digits n2 → n1 = n2.
Proof.
  intros H. destruct (digits_spec n1) as [<- _], (digits_spec n2) as [<- _].
  by rewrite H.
Qed.

Lemma strip_zeros_rev_spec l :
  ∃ z, l = z ++ JS.strip_zeros_rev l ∧ Forall (λ d, d = 0%N) z.
Proof.
  induction l as [|d l (z & Hl & Hz)]; [by exists []|].
  destruct d as [|p]; simpl.
  - exists (0%N :: z). split; [by rewrite Hl at 1 | by constructor].
  - by exists [].
Qed.

Lemma strip_trailing_zeros_spec l :
  ∃ z, l = JS.strip_trailing_zeros l ++ z ∧ Forall (λ d, d = 0%N) z.
Proof.
  unfold JS.strip_trailing_zeros.
  destruct (strip_zeros_rev_spec (rev l)) as (z & Hl & Hz).
  exists (rev z). split.
  - rewrite <- rev_app_distr, <- Hl. by rewrite rev_involutive.
  - apply Forall_forall. intros d Hd%list_elem_of_In%in_rev%list_elem_of_In.
    rewrite Forall_forall in Hz. by apply Hz.
Qed.

Lemma zeros_eq z1 z2 :
  Forall (λ d, d = 0%N) z1 → Forall (λ d, d = 0%N) z2 → length z1 = length z2 → z1 = z2.
Proof.
  intros H1. revert z2. induction H1 as [|d1 z1 -> _ IH]; intros [|d2 z2] H2 Hlen;
    try done.
  apply Forall_cons in H2 as [-> H2]. f_equal. apply IH; [done|]. simpl in Hlen. lia.
Qed.

Lemma chars_Number_toString_pos n :
  chars (JS.Number_toString_pos n) =
    if (n <? 10 ^ 21)%N then JS.digit_char <$> JS.digits n
    else match JS.digits n with
         | [] => []
         | d :: rest => JS.digit_char d :: exponent_tail rest
         end.
Proof.
  unfold JS.Number_toString_pos, exponent_tail, fraction_chars.
  destruct (n <? 10 ^ 21)%N; [apply chars_string_of_digits|].
  destruct (JS.digits n) as [|d rest]; [done|].
  destruct (JS.strip_trailing_zeros rest) as [|f frac]; cbn [list_ascii_of_string].
  - by rewrite chars_app, chars_string_of_digits.
  - by rewrite !chars_app, !chars_string_of_digits.
Qed.

Lemma exponent_tail_inj rest1 rest2 :
  Forall (λ d, d < 10)%N rest1 → Forall (λ d, d < 10)%N rest2 →
  exponent_tail rest1 = exponent_tail rest2 → rest1 = rest2.
Proof.
  intros H1 H2 H. unfold exponent_tail in H.
  destruct (strip_trailing_zeros_spec rest1) as (z1 & Hr1 & Hz1).
  destruct (strip_trailing_zeros_spec rest2) as (z2 & Hr2 & Hz2).
  set (frac1 := JS.strip_trailing_zeros rest1) in *.
  set (frac2 := JS.strip_trailing_zeros rest2) in *.
  assert (Forall (λ d, d < 10)%N frac1) as Hf1.
  { rewrite Hr1 in H1. by apply Forall_app in H1 as [? _]. }
  assert (Forall (λ d, d < 10)%N frac2) as Hf2.
  { rewrite Hr2 in H2. by apply Forall_app in H2 as [? _]. }
  assert (∀ frac, Forall (λ d, d < 10)%N frac →
            ¬ In "e"%char (fraction_chars frac)) as Hno.
  { intros frac Hfrac Hin. destruct frac as [|f frac]; [done|].
    cbn [fraction_chars] in Hin.
    apply list_elem_of_In, elem_of_cons in Hin as [?|Hin]; [discriminate|].
    eapply not_elem_of_digit_chars; [exact Hfrac| |exact Hin]. right. by compute. }
  apply app_inj_pivot in H as [[[Hin _]|[_ Hin]]|[Hfrac Hexp]].
  - by apply Hno in Hin.
  - by apply Hno in Hin.
  - assert (frac1 = frac2) as Hfeq.
    { destruct frac1 as [|a1 frac1], frac2 as [|a2 frac2]; try done.
      cbn [fraction_chars] in Hfrac.
      apply digit_chars_inj; [done..|]. congruence. }
    injection Hexp as Hexp.
    apply digit_chars_inj in Hexp; [|apply digits_spec..].
    apply digits_inj in Hexp.
    assert (length rest1 = length rest2) as Hlen by lia.
    rewrite Hr1, Hr2, Hfeq in Hlen |- *. f_equal.
    apply zeros_eq; [done..|]. rewrite !length_app in Hlen. lia.
Qed.

Lemma Number_toString_pos_inj n1 n2 :
  JS.Number_toString_pos n1 = JS.Number_toString_pos n2 → n1 = n2.
Proof.
  intros H. apply (f_equal chars) in H. rewrite !chars_Number_toString_pos in H.
  destruct (digits_spec n1) as (_ & Hall1 & Hne1).
  destruct (digits_spec n2) as (_ & Hall2 & Hne2).
  assert (∀ ds d rest, Forall (λ d, d < 10)%N ds →
            JS.digit_char <$> ds ≠ JS.digit_char d :: exponent_tail rest) as Hmixed.
  { intros ds d rest Hds Heq.
    assert ("e"%char ∈ JS.digit_char <$> ds) as Hin.
    { rewrite Heq. apply list_elem_of_further. unfold exponent_tail.
      apply elem_of_app. right. apply list_elem_of_here. }
    eapply not_elem_of_digit_chars; [exact Hds| |exact Hin]. right. by compute. }
  destruct (n1 <? 10 ^ 21)%N, (n2 <? 10 ^ 21)%N.
  - by apply digits_inj, digit_chars_inj.
  - destruct (JS.digits n2) as [|d rest]; [done|]. by apply Hmixed in H.
  - destruct (JS.digits n1) as [|d rest]; [done|]. symmetry in H. by apply Hmixed in H.
  - apply digits_inj.
    destruct (JS.digits n1) as [|d1 rest1], (JS.digits n2) as [|d2 rest2]; try done.
    apply Forall_cons in Hall1 as [Hd1 Hall1], Hall2 as [Hd2 Hall2].
    injection H as Hd Hrest.
    f_equal; [by apply digit_char_inj | by apply exponent_tail_inj].
Qed.

Lemma Number_toString_pos_first n :
  ∃ d s, (d < 10)%N ∧ JS.Number_toString_pos n = String (JS.digit_char d) s.
Proof.
  destruct (digits_spec n) as (_ & Hall & Hne).
  unfold JS.Number_toString_pos.
  destruct (JS.digits n) as [|d rest]; [done|].
  apply Forall_cons in Hall as [Hd _]. exists d.
  destruct (n <? 10 ^ 21)%N; [by eexists|].
  destruct (JS.strip_trailing_zeros rest); by eexists.
Qed.

Lemma Number_toString_inj z1 z2 :
  JS.Number_toString z1 = JS.Number_toString z2 → z1 = z2.
Proof.
  assert (∀ n, JS.Number_toString_pos 0 = JS.Number_toString_pos n → n = 0%N) as Hzero.
  { intros n H. symmetry. by apply Number_toString_pos_inj. }
  assert (∀ n s, JS.Number_toString_pos n ≠ String "-" s) as Hdash.
  { intros n s H. destruct (Number_toString_pos_first n) as (d & s' & Hd & Heq).
    rewrite Heq in H. injection H as H _. revert H.
    apply digit_char_neq; [done | left; by compute]. }
  destruct z1 as [|p1|p1], z2 as [|p2|p2]; cbn [JS.Number_toString];
    change ("-" +:+ ?s) with (String "-" s); intros H.
  - reflexivity.
  - apply (Hzero (N.pos p2)) in H. discriminate H.
  - discriminate H.
  - symmetry in H. apply (Hzero (N.pos p1)) in H. discriminate H.
  - apply Number_toString_pos_inj in H. congruence.
  - by apply Hdash in H.
  - discriminate H.
  - symmetry in H. by apply Hdash in H.
  - assert (JS.Number_toString_pos (N.pos p1) = JS.Number_toString_pos (N.pos p2))
      as H' by congruence.
    apply Number_toString_pos_inj in H'. congruence.
Qed.

(** C3. After a population that completes, every entry of the cache root
    holds bytes that [sharp] returned for one of the images at one of the
    sizes, and its name is the text of that size, a dash, the hexadecimal
    SHA-256 digest of exactly those stored bytes, and [.jpg]. *)
Theorem cacheImages_content_addressed
    (sha256 : Buffer → Buffer) (sharp : path → JS.json → option Buffer)
    (images : list path) (cachePath : path) (sizes : list JS.json) (w : World) :
  fs_wf (fs w) = true →
  let run := cacheImages sha256 sharp images cachePath sizes w in
  run.1 = Ok () →
  ∀ name, name ∈ entries cachePath (fs run.2) →
    ∃ img size bytes,
      img ∈ images ∧ size ∈ sizes ∧ sharp img size = Some bytes ∧
      fs run.2 !! path_join cachePath name = Some (File bytes) ∧
      name = JS.ToString size +:+ "-" +:+ hex (sha256 bytes) +:+ ".jpg".
Proof.
  intros Hwf run. subst run.
  destruct (cacheImages sha256 sharp images cachePath sizes w) as [r w'] eqn:Hrun.
  cbn [fst snd]. intros -> name [nd Hnd]%elem_of_entries.
  destruct (cacheImages_Ok _ _ _ _ _ _ _ Hwf Hrun) as (_ & Hwritten & _).
  destruct (Hwritten name nd Hnd) as (img & size & b & Himg & Hsize & Hb & Hq & ->).
  apply app_inv_head in Hq. injection Hq as ->.
  by exists img, size, b.
Qed.

Lemma NoDup_list_prod {A B} (l : list A) (k : list B) :
  NoDup l → NoDup k → NoDup (list_prod l k).
Proof.
  intros Hl Hk. induction Hl as [|x l Hx Hl IH]; [constructor|].
  cbn [list_prod]. apply NoDup_app. split_and!.
  - apply (NoDup_fmap_2_strong (pair x)); [|done]. by intros ?? _ _ [= ->].
  - intros [a b] (y & [= -> ->] & _)%list_elem_of_fmap Hin.
    apply list_elem_of_In, in_prod_iff in Hin as [Hin%list_elem_of_In _]. done.
  - done.
Qed.

(** C6. After a population that completes, the cache root has at most one
    entry per pair of an image and a size.  It has exactly that many when
    the sizes are pairwise different widths, the images are pairwise
    different, no two images give the same bytes at the same size, and no
    two different outputs at one size have the same SHA-256 digest. *)
Theorem cacheImages_entry_count
    (sha256 : Buffer → Buffer) (sharp : path → JS.json → option Buffer)
    (images : list path) (cachePath : path) (sizes : list JS.json) (w : World) :
  fs_wf (fs w) = true →
  let run := cacheImages sha256 sharp images cachePath sizes w in
  run.1 = Ok () →
  let n := length (entries cachePath (fs run.2)) in
  (n ≤ length images * length sizes)%nat ∧
  (∀ widths : list Z,
     sizes = JS.JNum <$> widths → NoDup widths → NoDup images →
     (∀ img1 img2 size b1 b2,
        img1 ∈ images → img2 ∈ images → size ∈ sizes → img1 ≠ img2 →
        sharp img1 size = Some b1 → sharp img2 size = Some b2 → b1 ≠ b2) →
     (∀ img1 img2 size b1 b2,
        img1 ∈ images → img2 ∈ images → size ∈ sizes →
        sharp img1 size = Some b1 → sharp img2 size = Some b2 →
        sha256 b1 = sha256 b2 → b1 = b2) →
     n = (length images * length sizes)%nat).
Proof.
  intros Hwf run. subst run.
  destruct (cacheImages sha256 sharp images cachePath sizes w) as [r w'] eqn:Hrun.
  cbn [fst snd]. intros ->.
  destruct (cacheImages_Ok _ _ _ _ _ _ _ Hwf Hrun) as (_ & Hwritten & Hcached).
  set (name_of := λ t : path * JS.json,
         entry_name sha256 t.2 (default [] (sharp t.1 t.2))).
  set (tasks := list_prod images sizes).
  assert (∀ name, name ∈ entries cachePath (fs w') → name ∈ name_of <$> tasks) as Hsub.
  { intros name [nd Hnd]%elem_of_entries.
    destruct (Hwritten name nd Hnd) as (img & size & b & Himg & Hsize & Hb & Hq & _).
    apply app_inv_head in Hq. injection Hq as ->.
    apply list_elem_of_fmap. exists (img, size). split.
    - unfold name_of. simpl. by rewrite Hb.
    - apply list_elem_of_In, in_prod_iff. by rewrite <- !list_elem_of_In. }
  assert (length (name_of <$> tasks) = (length images * length sizes)%nat) as Hlen.
  { unfold tasks. by rewrite length_fmap, length_prod. }
  split.
  - rewrite <- Hlen. apply submseteq_length, NoDup_submseteq; [|done].
    apply NoDup_entries.
  - intros widths -> Hwidths Himages Hbytes Hsha. rewrite <- Hlen.
    apply Permutation_length, NoDup_Permutation.
    + apply NoDup_entries.
    + apply NoDup_fmap_2_strong.
      * intros [img1 size1] [img2 size2] Hin1 Hin2 Hname.
        apply list_elem_of_In, in_prod_iff in Hin1 as [Hi1%list_elem_of_In Hs1%list_elem_of_In].
        apply list_elem_of_In, in_prod_iff in Hin2 as [Hi2%list_elem_of_In Hs2%list_elem_of_In].
        destruct (Hcached img1 size1 Hi1 Hs1) as (b1 & Hb1 & _).
        destruct (Hcached img2 size2 Hi2 Hs2) as (b2 & Hb2 & _).
        unfold name_of in Hname. simpl in Hname. rewrite Hb1, Hb2 in Hname.
        apply entry_name_inj in Hname as [Htext Hdigest].
        apply list_elem_of_fmap in Hs1 as (z1 & -> & Hz1).
        apply list_elem_of_fmap in Hs2 as (z2 & -> & Hz2).
        cbn [JS.ToString] in Htext. apply Number_toString_inj in Htext as ->.
        assert (JS.JNum z2 ∈ JS.JNum <$> widths) as Hs by (by apply list_elem_of_fmap_2).
        f_equal. destruct (decide (img1 = img2)) as [|Hne]; [done|].
        destruct (Hbytes img1 img2 (JS.JNum z2) b1 b2); try done.
        by apply (Hsha img1 img2 (JS.JNum z2)).
      * apply NoDup_list_prod; [done|].
        apply NoDup_fmap_2_strong; [|done]. by intros ?? _ _ [= ->].
    + intros name. split; [apply Hsub|].
      intros ([img size] & -> & Hin)%list_elem_of_fmap.
      apply list_elem_of_In, in_prod_iff in Hin as [Hi%list_elem_of_In Hs%list_elem_of_In].
      destruct (Hcached img size Hi Hs) as (b & Hb & Hin).
      apply elem_of_entries. unfold name_of. simpl. by rewrite Hb.
Qed.

(** *** The checks on the command line *)

Section cli.
Variable sha256 : Buffer → Buffer.
Variable sharp : path → JS.json → option Buffer.
Variable JSON_parse : string → option JS.json.
Variable path_resolve : string → path.
Variable cachePath : path.

(** When [parse_args] throws the process prints the message and exits with
    code 1; nothing else has happened. *)
Lemma main_rejected argv w e w1 :
  parse_args JSON_parse path_resolve argv w = (Throw e, w1) →
  w1 = w ∧
  main sha256 sharp JSON_parse path_resolve cachePath argv w
  = (1, with_console
          (console w ++ [console_error "Error parsing arguments:" (message e)]) w).
Proof.
  intros H. assert (w1 = w) as ->.
  { revert H. unfold parse_args. destruct (_ <? _)%nat; [by intros [= _ <-]|].
    rewrite bind_unfold. unfold fs_access.
    destruct (fs w !! _); [|by intros [= _ <-]].
    destruct (JSON_parse _); [|by intros [= _ <-]].
    destruct (_ || _); by intros [= _ <-]. }
  split; [done|]. unfold main. by rewrite H.
Qed.

(** [parse_args] throws exactly when an argument is missing, the source
    path cannot be accessed, the sizes are not JSON, not an array, or have
    an element that [isNaN] takes for NaN. *)
Lemma parse_args_throws argv w :
  (∃ e w1, parse_args JSON_parse path_resolve argv w = (Throw e, w1)) ↔
  (length argv < 4)%nat ∨
  fs w !! path_resolve (nth 2 argv "") = None ∨
  JSON_parse (nth 3 argv "") = None ∨
  (∃ sizes, JSON_parse (nth 3 argv "") = Some sizes ∧
            (JS.Array_isArray sizes = false ∨
             existsb JS.isNaN (elements_of sizes) = true)).
Proof.
  unfold parse_args. destruct (Nat.ltb_spec (length argv) 4) as [Hlt|Hge].
  { split; [by left | by eexists _, _]. }
  rewrite bind_unfold. unfold fs_access.
  destruct (fs w !! path_resolve (nth 2 argv "")) as [nd|] eqn:Hacc.
  2: { split; [by right; left | by eexists _, _]. }
  destruct (JSON_parse (nth 3 argv "")) as [sizes|] eqn:Hparse.
  2: { split; [by right; right; left | by eexists _, _]. }
  destruct (JS.Array_isArray sizes) eqn:Harr; simpl.
  - destruct (existsb JS.isNaN (elements_of sizes)) eqn:Hnan.
    + split; [|by eexists _, _]. intros _. do 3 right. exists sizes. auto.
    + split; [by intros (e & w1 & [=])|].
      intros [?|[?|[?|(sizes' & [= <-] & [?|?])]]]; try done; try lia; congruence.
  - split; [|by eexists _, _]. intros _. do 3 right. exists sizes. auto.
Qed.

(** C8, where the script departs from it: [[null]] is an array, but not of
    numbers; [isNaN(null)] is false, so the second check lets it through
    and the pipeline runs with [null] as the only size. *)
Theorem main_accepts_null_size argv w :
  length argv = 4%nat →
  is_Some (fs w !! path_resolve (nth 2 argv "")) →
  JSON_parse (nth 3 argv "") = Some (JS.JArr [JS.JNull]) →
  is_array_of_numbers (JS.JArr [JS.JNull]) = false ∧
  parse_args JSON_parse path_resolve argv w
  = (Ok (path_resolve (nth 2 argv ""), [JS.JNull]), w) ∧
  main sha256 sharp JSON_parse path_resolve cachePath argv w
  = (let (r, w2) :=
       pipeline sha256 sharp cachePath (path_resolve (nth 2 argv "")) [JS.JNull] w
     in (exit_code r, w2)).
Proof.
  intros Hlen [nd Hacc] Hparse.
  assert (parse_args JSON_parse path_resolve argv w
          = (Ok (path_resolve (nth 2 argv ""), [JS.JNull]), w)) as Hargs.
  { unfold parse_args. rewrite Hlen. simpl.
    rewrite bind_unfold. unfold fs_access. by rewrite Hacc, Hparse. }
  split_and!; [done..|]. unfold main. by rewrite Hargs.
Qed.

End cli.

(** ** Further properties of the script *)

(** *** Discovery *)

(** A [Promise_all] whose tasks only read: the world is as before, the
    results are the tasks' results, and a failure is the failure of one of
    the tasks. *)
Lemma Promise_all_reading {A B} (f : A → M B) (l : list A) (w : World) :
  (∀ x, x ∈ l → (f x w).2 = w) →
  (Promise_all f l w).2 = w ∧
  match (Promise_all f l w).1 with
  | Ok ys => Forall2 (λ x y, (f x w).1 = Ok y) l ys
  | Throw e => ∃ x, x ∈ l ∧ (f x w).1 = Throw e
  end.
Proof.
  induction l as [|x l IH]; intros Hread; [by split; [|constructor]|].
  cbn [Promise_all]. rewrite bind_unfold.
  pose proof (Hread x (list_elem_of_here _ _)) as Hx.
  destruct (f x w) as [[y|e] w1] eqn:Hfx; simpl in Hx; subst w1.
  - rewrite bind_unfold.
    destruct IH as [Hw IH]. { intros x' Hx'. apply Hread. by apply list_elem_of_further. }
    destruct (Promise_all f l w) as [[ys|e] w1]; simpl in Hw, IH; subst w1; simpl.
    + split; [done|]. constructor; [by rewrite Hfx | done].
    + split; [done|]. destruct IH as (x' & Hx' & He). exists x'.
      split; [by apply list_elem_of_further | done].
  - simpl. split; [done|]. exists x. split; [apply list_elem_of_here | by rewrite Hfx].
Qed.

Lemma concat_map_bind {A B} (g : A → list B) (l : list A) :
  concat (map g l) = l ≫= g.
Proof. induction l as [|x l IH]; [done|]. simpl. by rewrite IH. Qed.

(** What [initImages] reads for one category directory. *)
Lemma initImages_dir basePath dir w :
  (images ← fs_readdir (path_join basePath dir);
   mret (map (λ img, path_join (path_join basePath dir) img) images)) w
  = match fs w !! (basePath ++ [dir]) with
    | Some Directory =>
        (Ok (map (λ img, (basePath ++ [dir]) ++ [img])
                 (entries (basePath ++ [dir]) (fs w))), w)
    | Some (File _) => (Throw ENOTDIR, w)
    | None => (Throw (missing (fs w) (basePath ++ [dir])), w)
    end.
Proof.
  rewrite bind_unfold. unfold fs_readdir, path_join.
  by destruct (fs w !! (basePath ++ [dir])) as [[]|].
Qed.

(** Discovery only reads. *)
Lemma initImages_reads basePath w : (initImages basePath w).2 = w.
Proof.
  unfold initImages. rewrite bind_unfold. unfold fs_readdir at 1.
  destruct (fs w !! basePath) as [[d|]|]; [done| |done].
  rewrite bind_unfold.
  set (f := λ dir, _ ← fs_readdir (path_join basePath dir); _).
  destruct (Promise_all_reading f (entries basePath (fs w)) w) as [Hw _].
  { intros dir _. unfold f. rewrite initImages_dir. by repeat case_match. }
  by destruct (Promise_all f (entries basePath (fs w)) w) as [[lists|e] w1].
Qed.

(** X1. Discovery only reads.  When it completes it returns, each once,
    exactly the paths [basePath/dir/img] that exist, for every entry [dir]
    of [basePath] and every entry [img] of it, whatever kind of file [img]
    is. *)
Theorem initImages_lists_two_levels (basePath : path) (w : World) (images : list path) :
  (initImages basePath w).1 = Ok images →
  (initImages basePath w).2 = w ∧ NoDup images ∧
  ∀ p, p ∈ images ↔
       ∃ dir img, p = basePath ++ [dir; img] ∧
                  fs w !! (basePath ++ [dir]) = Some Directory ∧
                  is_Some (fs w !! p).
Proof.
  destruct (initImages basePath w) as [r w'] eqn:Hrun. cbn [fst snd].
  intros ->. revert Hrun.
  unfold initImages. intros Hrun.
  apply bind_Ok_inv in Hrun as (dirs & w1 & Hdirs & Hrun).
  apply bind_Ok_inv in Hrun as (lists & w2 & Hlists & Hret).
  injection Hret as <- <-.
  unfold fs_readdir in Hdirs.
  destruct (fs w !! basePath) as [[]|] eqn:Hbase; try done.
  injection Hdirs as <- <-.
  set (f := λ dir, _ ← fs_readdir (path_join basePath dir); _) in Hlists.
  destruct (Promise_all_reading f (entries basePath (fs w)) w) as [Hw Hres].
  { intros dir _. unfold f. rewrite initImages_dir. by repeat case_match. }
  rewrite Hlists in Hw, Hres. simpl in Hw, Hres. subst w2.
  set (g := λ dir, map (λ img, (basePath ++ [dir]) ++ [img])
                       (entries (basePath ++ [dir]) (fs w))).
  assert (Forall (λ dir, fs w !! (basePath ++ [dir]) = Some Directory)
                 (entries basePath (fs w)) ∧
          lists = map g (entries basePath (fs w))) as [Hdirs ->].
  { clear Hlists. induction Hres as [|dir ys dirs yss Hdir _ [IH1 IH2]]; [done|].
    unfold f in Hdir. rewrite initImages_dir in Hdir.
    destruct (fs w !! (basePath ++ [dir])) as [[]|] eqn:E; try done.
    injection Hdir as <-. split; [by constructor | by rewrite IH2]. }
  rewrite Forall_forall in Hdirs.
  split; [done|]. rewrite concat_map_bind. split.
  - apply NoDup_bind; [| |apply NoDup_entries].
    + intros d1 d2 p _ _ (i1 & -> & _)%list_elem_of_fmap (i2 & Heq & _)%list_elem_of_fmap.
      apply app_inj_tail in Heq as [Heq _]. by apply app_inj_tail in Heq as [_ ?].
    + intros dir _. apply NoDup_fmap_2_strong; [|apply NoDup_entries].
      intros i1 i2 _ _ Heq. by apply app_inj_tail in Heq as [_ ?].
  - intros p. rewrite list_elem_of_bind. split.
    + intros (dir & (img & -> & Himg)%list_elem_of_fmap & Hdir).
      exists dir, img. rewrite <- app_assoc. split_and!; [done|by apply Hdirs|].
      apply elem_of_entries in Himg. by rewrite <- app_assoc in Himg.
    + intros (dir & img & -> & Hdir & Hp). exists dir. split.
      * apply list_elem_of_fmap. exists img. rewrite <- app_assoc. split; [done|].
        apply elem_of_entries. by rewrite <- app_assoc.
      * apply elem_of_entries. by rewrite Hdir.
Qed.

(** X2. Discovery fails exactly when [basePath] is not a directory or has
    an entry that is not one (a plain file beside the category directories
    is enough); the failure changes nothing. *)
Theorem initImages_fails_iff (basePath : path) (w : World) :
  ((initImages basePath w).2 = w) ∧
  ((∃ e, (initImages basePath w).1 = Throw e) ↔
   fs w !! basePath ≠ Some Directory ∨
   ∃ dir data, fs w !! (basePath ++ [dir]) = Some (File data)).
Proof.
  unfold initImages. rewrite bind_unfold.
  assert (fs_readdir basePath w =
            match fs w !! basePath with
            | Some Directory => (Ok (entries basePath (fs w)), w)
            | Some (File _) => (Throw ENOTDIR, w)
            | None => (Throw (missing (fs w) basePath), w)
            end) as -> by done.
  destruct (fs w !! basePath) as [[d|]|] eqn:Hbase.
  - simpl. split; [done|]. split; [intros _; by left | intros _; by eexists].
  - rewrite bind_unfold.
    set (f := λ dir, _ ← fs_readdir (path_join basePath dir); _).
    destruct (Promise_all_reading f (entries basePath (fs w)) w) as [Hw Hres].
    { intros dir _. unfold f. rewrite initImages_dir. by repeat case_match. }
    destruct (Promise_all f (entries basePath (fs w)) w) as [[lists|e] w1];
      simpl in Hw, Hres; subst w1; simpl; (split; [done|]).
    + split; [by intros [e [=]]|]. intros [?|(dir & data & Hfile)]; [done|].
      exfalso.
      assert (dir ∈ entries basePath (fs w)) as Hin
        by (apply elem_of_entries; by rewrite Hfile).
      clear -Hres Hin Hfile. induction Hres as [|d ys dirs yss Hd _ IH].
      * by apply elem_of_nil in Hin.
      * apply elem_of_cons in Hin as [->|Hin]; [|by apply IH].
        unfold f in Hd. rewrite initImages_dir, Hfile in Hd. done.
    + split; [|intros _; by eexists]. intros _. right.
      destruct Hres as (dir & Hdir & He). unfold f in He.
      rewrite initImages_dir in He. apply elem_of_entries in Hdir as [nd Hnd].
      rewrite Hnd in He. destruct nd as [data|]; [|done]. by exists dir, data.
  - simpl. split; [done|]. split; [intros _; by left | intros _; by eexists].
Qed.

(** *** Population: what it changes and when it completes *)

(** A relation that every task keeps is kept by [Promise_all], on every
    outcome. *)
Lemma Promise_all_rel {A B} (f : A → M B) (R : World → World → Prop) (l : list A) :
  (∀ w, R w w) → (∀ w1 w2 w3, R w1 w2 → R w2 w3 → R w1 w3) →
  (∀ x w, x ∈ l → R w (f x w).2) →
  ∀ w, R w (Promise_all f l w).2.
Proof.
  intros Hrefl Htrans. induction l as [|x l IH]; intros Hf w; [apply Hrefl|].
  cbn [Promise_all]. rewrite bind_unfold.
  pose proof (Hf x w (list_elem_of_here _ _)) as Hx.
  destruct (f x w) as [[y|e] w1]; simpl in Hx; [|done].
  rewrite bind_unfold.
  pose proof (IH (λ x' w0 Hx', Hf x' w0 (list_elem_of_further _ _ _ Hx')) w1) as Hl.
  destruct (Promise_all f l w1) as [[ys|e] w2]; simpl in Hl |- *; by eapply Htrans.
Qed.

(** An invariant that every completing task keeps, and a property every
    failure of a task in an invariant world has. *)
Lemma Promise_all_outcome {A B} (f : A → M B) (I : World → Prop)
    (E : Error → Prop) (l : list A) :
  (∀ x w, x ∈ l → I w →
          match f x w with
          | (Ok _, w') => I w'
          | (Throw e, _) => E e
          end) →
  ∀ w, I w →
       match Promise_all f l w with
       | (Ok _, w') => I w'
       | (Throw e, _) => E e
       end.
Proof.
  induction l as [|x l IH]; intros Hf w Hw; [done|].
  cbn [Promise_all]. rewrite bind_unfold.
  pose proof (Hf x w (list_elem_of_here _ _) Hw) as Hx.
  destruct (f x w) as [[y|e] w1]; [|done].
  rewrite bind_unfold.
  pose proof (IH (λ x' w0 Hx', Hf x' w0 (list_elem_of_further _ _ _ Hx')) w1 Hx) as Hl.
  by destruct (Promise_all f l w1) as [[ys|e] w2].
Qed.

Section population.
Variable sha256 : Buffer → Buffer.
Variable sharp : path → JS.json → option Buffer.
Variable cachePath : path.

#[local] Abbreviation outside_cache_kept := (outside_cache_kept cachePath).

Lemma outside_cache_kept_refl w : outside_cache_kept w w.
Proof. by split_and!. Qed.

Lemma outside_cache_kept_trans w1 w2 w3 :
  outside_cache_kept w1 w2 → outside_cache_kept w2 w3 → outside_cache_kept w1 w3.
Proof.
  intros (F1 & ? & ? & ? & ?) (F2 & ? & ? & ? & ?). split_and!; try congruence.
  intros q Hq1 Hq2. by rewrite F2, F1.
Qed.

Lemma cacheImage_outside img size w :
  outside_cache_kept w (cacheImage sha256 sharp cachePath img size w).2.
Proof.
  unfold cacheImage, downscaleImage. destruct (sharp img size) as [b|].
  2: { apply outside_cache_kept_refl. }
  erewrite bind_Ok; [|reflexivity]. unfold fs_writeFile, path_join.
  repeat case_match; try apply outside_cache_kept_refl.
  all: split_and!; try done; intros q Hq _; cbn [fs with_fs snd];
    apply lookup_insert_ne; intros <-; apply Hq; by apply prefix_app_r.
Qed.

Lemma fs_mkdir_recursive_outside w :
  outside_cache_kept w (fs_mkdir_recursive cachePath w).2.
Proof.
  unfold fs_mkdir_recursive. destruct (existsb _ _); [apply outside_cache_kept_refl|].
  split_and!; try done. intros q _ Hq. cbn [fs with_fs snd].
  rewrite lookup_foldr_insert_Directory, decide_False; [done|].
  by rewrite elem_of_prefixes.
Qed.

Lemma clearCache_outside w :
  outside_cache_kept w (clearCache cachePath w).2.
Proof.
  destruct (clearCache_spec cachePath w)
    as (r & w' & -> & _ & _ & ? & ? & ? & _ & ? & _ & Hrest & _).
  split_and!; try done. intros q Hq _. by apply Hrest.
Qed.

Lemma result_snd_bind {A B} (m : M A) (f : A → M B) (R : World → World → Prop) w :
  (∀ w1 w2 w3, R w1 w2 → R w2 w3 → R w1 w3) →
  R w (m w).2 → (∀ a w1, R w1 (f a w1).2) → R w ((m ≫= f) w).2.
Proof.
  intros Htrans Hm Hf. rewrite bind_unfold.
  destruct (m w) as [[a|e] w1]; simpl in Hm; [|done].
  eapply Htrans; [done | apply Hf].
Qed.

Lemma cacheImages_outside images sizes w :
  outside_cache_kept w (cacheImages sha256 sharp images cachePath sizes w).2.
Proof.
  unfold cacheImages.
  apply result_snd_bind; [apply outside_cache_kept_trans | apply clearCache_outside|].
  intros _ w1.
  apply result_snd_bind; [apply outside_cache_kept_trans | apply fs_mkdir_recursive_outside|].
  intros _ w2.
  apply result_snd_bind; [apply outside_cache_kept_trans | | intros; apply outside_cache_kept_refl].
  apply Promise_all_rel;
    [apply outside_cache_kept_refl | apply outside_cache_kept_trans|].
  intros img w3 _.
  apply result_snd_bind; [apply outside_cache_kept_trans | | intros; apply outside_cache_kept_refl].
  apply Promise_all_rel;
    [apply outside_cache_kept_refl | apply outside_cache_kept_trans|].
  intros size w4 _. apply cacheImage_outside.
Qed.

End population.

Section population_outcome.
Variable sha256 : Buffer → Buffer.
Variable sharp : path → JS.json → option Buffer.
Variable cachePath : path.
Variable images : list path.
Variable sizes : list JS.json.

#[local] Abbreviation cache_ready := (cache_ready cachePath).
#[local] Abbreviation codec_refuses := (codec_refuses sharp images sizes).

Lemma removelast_snoc {A} (l : list A) x : removelast (l ++ [x]) = l.
Proof. by rewrite removelast_last. Qed.

Lemma cacheImage_outcome img size w :
  img ∈ images → size ∈ sizes → cache_ready w →
  match cacheImage sha256 sharp cachePath img size w with
  | (Ok _, w') => cache_ready w'
  | (Throw e, _) => codec_refuses e
  end.
Proof.
  intros Himg Hsize [Hdir Hfiles]. unfold cacheImage, downscaleImage.
  destruct (sharp img size) as [b|] eqn:Hb.
  2: { split; [done|]. by exists img, size. }
  erewrite bind_Ok; [|reflexivity]. unfold fs_writeFile, path_join.
  rewrite removelast_snoc, Hdir.
  assert (cache_ready
            (with_fs (<[cachePath ++ [entry_name sha256 size b] := File b]> (fs w)) w))
    as Hnew.
  { split; cbn [fs with_fs].
    - rewrite lookup_insert_ne; [done|]. intros H%(f_equal length).
      rewrite length_app in H. simpl in H. lia.
    - intros name. rewrite lookup_insert. case_decide; [done | apply Hfiles]. }
  destruct (fs w !! (cachePath ++ [entry_name sha256 size b])) as [[d|]|] eqn:E;
    [done | by destruct (Hfiles _ E) | done].
Qed.

Lemma cacheImages_tasks_outcome w :
  cache_ready w →
  match Promise_all (λ img,
          _ ← Promise_all (λ size, cacheImage sha256 sharp cachePath img size) sizes;
          mret ()) images w with
  | (Ok _, w') => cache_ready w'
  | (Throw e, _) => codec_refuses e
  end.
Proof.
  apply Promise_all_outcome. intros img w1 Himg Hw1. rewrite bind_unfold.
  pose proof (Promise_all_outcome
                (λ size, cacheImage sha256 sharp cachePath img size)
                cache_ready codec_refuses sizes
                (λ size w0 Hsize, cacheImage_outcome img size w0 Himg Hsize) w1 Hw1) as H.
  by destruct (Promise_all _ sizes w1) as [[ys|e] w2].
Qed.

(** X3. On a tree-shaped file system [cacheImages] completes exactly when
    no file stands where a directory leading to the cache root is needed
    and the codec accepts every image at every size.  Otherwise it fails
    with [ENOTDIR] for a file in the way, or with [CodecError] for a pair
    the codec refuses; writing an entry never fails. *)
Theorem cacheImages_outcome (w : World) :
  fs_wf (fs w) = true →
  match (cacheImages sha256 sharp images cachePath sizes w).1 with
  | Ok _ =>
      (∀ q, q `prefix_of` cachePath → is_file (fs w) q = true → q = cachePath) ∧
      (∀ img size, img ∈ images → size ∈ sizes → is_Some (sharp img size))
  | Throw e =>
      (e = ENOTDIR ∧
       ∃ q, q `prefix_of` cachePath ∧ q ≠ cachePath ∧ is_file (fs w) q = true) ∨
      (e = CodecError ∧
       ∃ img size, img ∈ images ∧ size ∈ sizes ∧ sharp img size = None)
  end.
Proof.
  intros Hwf.
  destruct (cacheImages sha256 sharp images cachePath sizes w) as [r w'] eqn:Hrun.
  destruct (clearCache_spec cachePath w)
    as (r0 & w0 & Hclear & Hr0 & Hgone & _ & _ & _ & _ & _ & _ & Hrest & Hbelow).
  unfold cacheImages in Hrun. rewrite bind_unfold, Hclear in Hrun.
  destruct Hr0 as [->|(-> & _ & _ & Hmiss)].
  2: { injection Hrun as <- <-. cbn [fst]. left. split; [done|].
       by apply missing_ENOTDIR. }
  assert (∀ q, q `prefix_of` cachePath → q ≠ cachePath → fs w0 !! q = fs w !! q)
    as Habove.
  { intros q Hq Hne. apply Hrest. intros Hq'. apply Hne.
    by apply (anti_symm prefix). }
  rewrite bind_unfold in Hrun.
  destruct (fs_mkdir_recursive cachePath w0) as [[[]|e] w1] eqn:Hmkdir.
  - pose proof Hmkdir as Hmk. unfold fs_mkdir_recursive in Hmk.
    destruct (existsb (is_file (fs w0)) (prefixes cachePath)) eqn:Hex; [done|].
    clear Hmk.
    assert (∀ q, q `prefix_of` cachePath → is_file (fs w) q = true → q = cachePath)
      as Hfree.
    { intros q Hq Hfile. destruct (decide (q = cachePath)) as [|Hne]; [done|].
      exfalso. assert (existsb (is_file (fs w0)) (prefixes cachePath) = true) as Ht.
      { apply existsb_exists. exists q. split.
        - by apply list_elem_of_In, elem_of_prefixes.
        - unfold is_file in *. by rewrite Habove. }
      congruence. }
    assert (cache_ready w1) as Hready.
    { destruct (clear_then_mkdir cachePath w w1 Hwf) as [Hdir Hempty].
      { by rewrite (bind_Ok _ _ _ _ _ Hclear). }
      split; [done|]. intros name. by rewrite Hempty. }
    pose proof (cacheImages_tasks_outcome w1 Hready) as Htasks.
    rewrite bind_unfold in Hrun.
    destruct (Promise_all _ images w1) as [[ys|e] w2] eqn:Hall.
    + injection Hrun as <- <-. cbn [fst]. split; [done|].
      apply cacheImages_tasks in Hall as [_ Hcached].
      intros img size Himg Hsize.
      destruct (Hcached img Himg size Hsize) as (b & -> & _). by eexists.
    + injection Hrun as <- <-. cbn [fst]. by right.
  - injection Hrun as <- <-. cbn [fst]. left.
    unfold fs_mkdir_recursive in Hmkdir.
    destruct (existsb (is_file (fs w0)) (prefixes cachePath)) eqn:Hex; [|done].
    injection Hmkdir as <- _.
    assert (is_file (fs w0) cachePath = false) as Hnot
      by (unfold is_file; by rewrite Hgone).
    rewrite Hnot. split; [done|].
    apply existsb_exists in Hex as (q & Hq%list_elem_of_In%elem_of_prefixes & Hfile).
    assert (q ≠ cachePath) as Hne by (intros ->; congruence).
    exists q. split_and!; [done..|]. unfold is_file in *. by rewrite <- Habove.
Qed.

End population_outcome.

(** *** Comparison: outcomes, order and bounds *)

(** Comparison reads the cache and nothing else of the file system, prints
    nothing, and completes when the cache root is a directory. *)
Lemma runAllComparisons_reads cachePath w :
  fs (runAllComparisons cachePath w).2 = fs w ∧
  console (runAllComparisons cachePath w).2 = console w ∧
  (fs w !! cachePath = Some Directory →
   ∃ rs, (runAllComparisons cachePath w).1 = Ok rs).
Proof.
  destruct (fs w !! cachePath) as [[data|]|] eqn:Hdir.
  - unfold runAllComparisons. rewrite bind_unfold. unfold fs_readdir.
    by rewrite Hdir.
  - destruct (runAllComparisons_spec cachePath w Hdir) as (w' & -> & ? & ? & _).
    simpl. split_and!; [done..|]. intros _. by eexists.
  - unfold runAllComparisons. rewrite bind_unfold. unfold fs_readdir.
    by rewrite Hdir.
Qed.

(** X4. [runAllComparisons] completes exactly when the cache root is a
    directory.  Otherwise nothing has changed and the error is that of the
    listing: [ENOTDIR] when the root, or something on the way to it, is a
    regular file, and [ENOENT] when the root is missing with no regular
    file on the way.  In every case the file system and the console are as
    before: comparison only reads the cache. *)
Theorem runAllComparisons_outcome (cachePath : path) (w : World) :
  let run := runAllComparisons cachePath w in
  fs run.2 = fs w ∧ console run.2 = console w ∧
  match run.1 with
  | Ok _ => fs w !! cachePath = Some Directory
  | Throw e =>
      run.2 = w ∧
      ((e = ENOENT ∧ fs w !! cachePath = None ∧
        ∀ q, q `prefix_of` cachePath → is_file (fs w) q = false) ∨
       (e = ENOTDIR ∧ fs w !! cachePath ≠ Some Directory ∧
        ∃ q, q `prefix_of` cachePath ∧ is_file (fs w) q = true))
  end.
Proof.
  destruct (fs w !! cachePath) as [[data|]|] eqn:Hdir.
  - unfold runAllComparisons. rewrite bind_unfold. unfold fs_readdir.
    rewrite Hdir. simpl. split_and!; try done. right. split_and!; [done..|].
    exists cachePath. split; [done|]. unfold is_file. by rewrite Hdir.
  - destruct (runAllComparisons_spec cachePath w Hdir) as (w' & -> & ? & ? & _).
    simpl. by split_and!.
  - unfold runAllComparisons. rewrite bind_unfold. unfold fs_readdir.
    rewrite Hdir. simpl. split_and!; try done.
    destruct (missing_cases (fs w) cachePath) as [Hm|Hm]; rewrite Hm.
    + left. split_and!; [done..|]. intros q Hq.
      destruct (is_file (fs w) q) eqn:Hfile; [|done]. exfalso.
      assert (missing (fs w) cachePath = ENOTDIR) as Hm'; [|congruence].
      apply missing_ENOTDIR. exists q. split_and!; [done| |done].
      intros ->. unfold is_file in Hfile. by rewrite Hdir in Hfile.
    + right. split_and!; [done..|].
      apply missing_ENOTDIR in Hm as (q & Hq & _ & Hfile). by exists q.
Qed.

Lemma scored_scores img rnd d others :
  (scored img rnd d others).*2 = rnd <$> seq d (length others).
Proof.
  revert d. induction others as [|o others IH]; intros d; [done|].
  simpl. by rewrite IH.
Qed.

Lemma all_scored_scores rnd xs subjects : ∀ d,
  (concat (all_scored rnd d xs subjects)).*2
  = rnd <$> seq d (length (concat (all_scored rnd d xs subjects))).
Proof.
  induction subjects as [|s subjects IH]; intros d; [done|].
  simpl. rewrite fmap_app, length_app, seq_app, fmap_app, scored_scores, IH.
  by rewrite length_scored.
Qed.

(** X5. The results of [runAllComparisons] come subject by subject in
    listing order, and the [k]-th of them carries the [k]-th value the
    oracle drew during the call (the timers of the stub fire in the order
    they were set): with [n] entries the scores are the next [n * (n - 1)]
    values of [Math.random], in order. *)
Theorem runAllComparisons_scores_in_order (cachePath : path) (w : World) :
  fs w !! cachePath = Some Directory →
  let n := length (entries cachePath (fs w)) in
  ∃ rs w', runAllComparisons cachePath w = (Ok rs, w') ∧
           score <$> concat rs = random w <$> seq (draws w) (n * (n - 1)).
Proof.
  intros Hdir n.
  destruct (runAllComparisons_spec cachePath w Hdir) as (w' & Hrun & _).
  eexists _, w'. split; [exact Hrun|].
  set (names := entries cachePath (fs w)).
  rewrite <- concat_map, <- list_fmap_compose.
  change (score ∘ result_of_call) with (snd : string * string * float → float).
  rewrite all_scored_scores, length_concat_all_scored; [done|done].
Qed.

(** X6. In [runAllComparisons] every ordered pair of different entries is
    handed to the oracle exactly once, and nothing else is: the pairs
    handed over have no duplicates and are exactly the pairs of two
    different entries of the cache root.  So every pair of entries is
    scored twice, once from each side. *)
Theorem runAllComparisons_both_directions (cachePath : path) (w : World) :
  fs w !! cachePath = Some Directory →
  ∃ rs calls w',
    runAllComparisons cachePath w = (Ok rs, w') ∧
    oracle_calls w' = oracle_calls w ++ calls ∧
    NoDup (fst <$> calls) ∧
    (∀ s o, (s, o) ∈ fst <$> calls ↔
            s ∈ entries cachePath (fs w) ∧ o ∈ entries cachePath (fs w) ∧ s ≠ o) ∧
    (∀ s o, (s, o) ∈ fst <$> calls → (o, s) ∈ fst <$> calls).
Proof.
  intros Hdir.
  destruct (runAllComparisons_spec cachePath w Hdir) as (w' & Hrun & _ & _ & Hcalls & _).
  set (names := entries cachePath (fs w)) in *.
  pose proof (NoDup_entries cachePath (fs w)) as Hnd. fold names in Hnd.
  set (rows := all_scored (random w) (draws w) names names) in *.
  assert (∀ s o, (s, o) ∈ (concat rows).*1 ↔ s ∈ names ∧ o ∈ names ∧ s ≠ o) as Hmem.
  { intros s o. unfold rows. rewrite list_elem_of_fmap. split.
    - intros ([[s' o'] v] & [= <- <-] & Hin).
      destruct (proj1 (elem_of_all_scored _ _ _ s o _) (ex_intro _ v Hin)) as [? Ho].
      rewrite comparison_set_NoDup, list_elem_of_filter in Ho by done.
      split_and!; [tauto | tauto | intros ->; tauto].
    - intros (Hs & Ho & Hne).
      destruct (proj2 (elem_of_all_scored (random w) names names s o (draws w)))
        as [v Hv].
      { split; [done|]. rewrite comparison_set_NoDup, list_elem_of_filter by done.
        split; [congruence | done]. }
      by exists (s, o, v). }
  exists (map (map result_of_call) rows), (concat rows), w'.
  split_and!; [done..| |exact Hmem|].
  - assert (∀ subjects d,
              (concat (all_scored (random w) d names subjects)).*1
              = subjects ≫= (λ s, (λ o, (s, o)) <$> comparison_set s names)) as Heq.
    { induction subjects as [|s subjects IH]; intros d; [done|].
      simpl. by rewrite fmap_app, scored_fst_snd, IH. }
    unfold rows. rewrite Heq. apply NoDup_bind; [| |done].
    + intros s1 s2 [s o] _ _ (o1 & [= -> ->] & _)%list_elem_of_fmap
        (o2 & [= -> _] & _)%list_elem_of_fmap. done.
    + intros s _. apply NoDup_fmap_2_strong; [by intros ?? _ _ [= ->]|].
      rewrite comparison_set_NoDup by done. by apply NoDup_filter.
  - intros s o (Hs & Ho & Hne)%Hmem. apply Hmem. split_and!; [done..|congruence].
Qed.

Lemma comparison_set_split img xs :
  img ∈ xs →
  ∃ l1 l2, xs = l1 ++ img :: l2 ∧ (img ∉ l1) ∧ comparison_set img xs = l1 ++ l2.
Proof.
  induction xs as [|y xs IH]; [by intros ?%elem_of_nil|].
  rewrite comparison_set_cons. destruct (decide (y = img)) as [->|Hne].
  - intros _. exists [], xs. split_and!; [done| |done]. by intros ?%elem_of_nil.
  - intros [?|Hin]%elem_of_cons; [congruence|].
    destruct (IH Hin) as (l1 & l2 & -> & Hl1 & ->).
    exists (y :: l1), l2. split_and!; [done| |done].
    intros [?|?]%elem_of_cons; [congruence | done].
Qed.

(** X7. [compare] scores the subject against the listing with the first
    entry equal to the subject taken out, keeping the order of the rest: a
    subject that is not listed is scored against every entry and no copy of
    the listing is made; later entries equal to the subject stay in. *)
Theorem compare_drops_first_occurrence (img : string) (a : loc) (xs : list string)
    (w : World) :
  heap w !! a = Some xs →
  ∃ rs others calls w',
    compare img a w = (Ok rs, w') ∧
    oracle_calls w' = oracle_calls w ++ calls ∧
    fst <$> calls = (λ o, (img, o)) <$> others ∧
    length rs = length others ∧
    ((img ∉ xs) ∧ others = xs ∧ heap w' = heap w ∨
     (∃ l1 l2, xs = l1 ++ img :: l2 ∧ (img ∉ l1) ∧ others = l1 ++ l2 ∧
               heap w' = heap w ++ [others])).
Proof.
  intros Hheap. pose proof (compare_spec img a xs w Hheap) as Hrun. simpl in Hrun.
  eexists _, (comparison_set img xs), _, _. split; [exact Hrun|]. simpl.
  split_and!; [done | apply scored_fst_snd | by rewrite length_fmap, length_scored |].
  destruct (decide (JS.indexOf xs img ≠ -1)) as [Hi|Hi].
  - right. apply indexOf_elem_of in Hi.
    destruct (comparison_set_split img xs Hi) as (l1 & l2 & ? & ? & ?).
    by exists l1, l2.
  - left. assert (img ∉ xs) as Hnot by (by rewrite <- indexOf_elem_of).
    split_and!; [done | by apply comparison_set_not_elem | by rewrite app_nil_r].
Qed.

Lemma all_chars_split_0 s : JS.all_chars (λ c, negb (Ascii.eqb c "-")) (JS.split_0 "-" s) = true.
Proof.
  induction s as [|c s IH]; [done|]. simpl.
  destruct (Ascii.eqb c "-") eqn:Hc; [done|]. simpl. by rewrite Hc.
Qed.

Lemma all_chars_skip_white_space p s :
  JS.all_chars p s = true → JS.all_chars p (JS.skip_white_space s) = true.
Proof.
  induction s as [|c s IH]; [done|]. simpl.
  destruct (JS.is_white_space c); [|done].
  intros [_ ?]%andb_true_iff. by apply IH.
Qed.

Lemma parseInt_no_dash s :
  JS.all_chars (λ c, negb (Ascii.eqb c "-")) s = true →
  ∃ o : option N, JS.parseInt s = Z.of_N <$> o.
Proof.
  intros H%all_chars_skip_white_space. unfold JS.parseInt.
  destruct (JS.skip_white_space s) as [|c r]; [by eexists|].
  simpl in H. apply andb_true_iff in H as [Hc _].
  destruct c as [[] [] [] [] [] [] [] []]; simpl in Hc; try discriminate Hc;
    by eexists.
Qed.

(** X8. Whatever the entry names are, the size of a result of [compare] is
    never negative: the name is cut at its first hyphen before it is read,
    so the reading is NaN or a non-negative integer. *)
Theorem compare_size_not_negative (img : string) (a : loc) (xs : list string)
    (w : World) :
  heap w !! a = Some xs →
  ∃ rs w', compare img a w = (Ok rs, w') ∧
           Forall (λ r, ∀ z, size r = Some z → 0 ≤ z) rs.
Proof.
  intros Hheap. pose proof (compare_spec img a xs w Hheap) as Hrun. simpl in Hrun.
  eexists _, _. split; [exact Hrun|].
  apply Forall_fmap, Forall_forall. intros [[s o] v] _ z. simpl.
  destruct (parseInt_no_dash _ (all_chars_split_0 o)) as [[n|] ->]; simpl; [|done].
  intros [= <-]. lia.
Qed.

(** *** The file system stays a tree, and the source data is not touched *)

Lemma fs_wf_iff f :
  fs_wf f = true ↔
  ∀ p name, is_Some (f !! (p ++ [name])) → f !! p = Some Directory.
Proof.
  split; [intros H p name; by apply fs_wf_parent|].
  intros H. unfold fs_wf. apply forallb_forall. intros p Hin%list_elem_of_In.
  apply list_elem_of_fmap in Hin as ([p' nd] & -> & Hin%elem_of_map_to_list).
  simpl. destruct (decide (p' = [])) as [->|Hne]; [done|].
  destruct (exists_last Hne) as (q & name & ->).
  rewrite removelast_last. unfold is_directory.
  rewrite (H q name); [by destruct q | by exists nd].
Qed.

Lemma clearCache_wf p w :
  fs_wf (fs w) = true → fs_wf (fs (clearCache p w).2) = true.
Proof.
  unfold clearCache, fs_rm. rewrite !fs_wf_iff. intros H.
  destruct (fs w !! p) as [[d|]|] eqn:Hp; cbn [fs with_fs snd recursive force].
  - intros q name [nd Hnd]. apply lookup_delete_Some in Hnd as [Hne Hnd].
    rewrite lookup_delete_ne; [apply (H q name); by exists nd|].
    intros <-. rewrite (H p name) in Hp; [done | by exists nd].
  - intros q name [nd Hnd]. apply map_lookup_filter_Some in Hnd as [Hnd Hnp].
    apply map_lookup_filter_Some. split; [apply (H q name); by exists nd|].
    simpl in *. intros Hpq. apply Hnp. by apply prefix_app_r.
  - destruct (missing (fs w) p); apply H.
Qed.

Lemma fs_mkdir_recursive_wf p w :
  fs_wf (fs w) = true → fs_wf (fs (fs_mkdir_recursive p w).2) = true.
Proof.
  unfold fs_mkdir_recursive. destruct (existsb _ _); [done|].
  cbn [fs with_fs snd]. rewrite !fs_wf_iff. intros H q name.
  rewrite !lookup_foldr_insert_Directory.
  destruct (decide (q ∈ prefixes p)) as [|Hq]; [done|].
  destruct (decide (q ++ [name] ∈ prefixes p)) as [Hin|_]; [|apply H].
  exfalso. apply Hq. apply elem_of_prefixes. apply elem_of_prefixes in Hin.
  etrans; [|exact Hin]. by apply prefix_app_r.
Qed.

Lemma fs_writeFile_wf p data w :
  fs_wf (fs w) = true → fs_wf (fs (fs_writeFile p data w).2) = true.
Proof.
  unfold fs_writeFile. intros Hwf.
  assert (fs w !! p ≠ Some Directory → fs w !! removelast p = Some Directory →
          fs_wf (<[p := File data]> (fs w)) = true) as Hins.
  { intros Hp Hpar. apply fs_wf_iff. intros q name [nd Hnd].
    assert (fs w !! q = Some Directory) as Hq.
    { destruct (decide (p = q ++ [name])) as [->|Hne].
      - by rewrite removelast_last in Hpar.
      - rewrite lookup_insert_ne in Hnd by done.
        apply (fs_wf_parent _ q name Hwf). by exists nd. }
    rewrite lookup_insert_ne; [done | congruence]. }
  destruct (fs w !! p) as [[d|]|] eqn:Hp; [|done|];
    destruct (fs w !! removelast p) as [[d'|]|] eqn:Hpar; try done;
    cbn [fs with_fs snd]; by apply Hins.
Qed.

Lemma fs_writeFile_other p data w q :
  q ≠ p → fs (fs_writeFile p data w).2 !! q = fs w !! q.
Proof.
  intros Hne. unfold fs_writeFile.
  repeat case_match; try done; cbn [fs with_fs snd]; by apply lookup_insert_ne.
Qed.

Section files.
Variable sha256 : Buffer → Buffer.
Variable sharp : path → JS.json → option Buffer.
Variable cachePath : path.

#[local] Abbreviation files_kept := (files_kept cachePath).

Lemma files_kept_refl w : files_kept w w.
Proof. split; [done | by left]. Qed.

Lemma files_kept_same w w' : fs w' = fs w → files_kept w w'.
Proof. intros H. split; rewrite H; [done | by left]. Qed.

Lemma files_kept_trans w1 w2 w3 :
  files_kept w1 w2 → files_kept w2 w3 → files_kept w1 w3.
Proof.
  intros [T1 F1] [T2 F2]. split; [tauto|]. intros q Hq.
  destruct (F1 q Hq) as [E1|(? & N1 & D1)], (F2 q Hq) as [E2|(? & N2 & D2)].
  - left. congruence.
  - right. split_and!; [done | congruence | done].
  - right. split_and!; [done | done | congruence].
  - congruence.
Qed.

Lemma clearCache_files w : files_kept w (clearCache cachePath w).2.
Proof.
  split; [apply clearCache_wf|]. intros q Hq. left.
  destruct (clearCache_spec cachePath w)
    as (r & w' & -> & _ & _ & _ & _ & _ & _ & _ & _ & Hrest & _).
  by apply Hrest.
Qed.

Lemma fs_mkdir_recursive_files w : files_kept w (fs_mkdir_recursive cachePath w).2.
Proof.
  split; [apply fs_mkdir_recursive_wf|]. intros q _.
  unfold fs_mkdir_recursive.
  destruct (existsb (is_file (fs w)) (prefixes cachePath)) eqn:Hex; [by left|].
  cbn [fs with_fs snd]. rewrite lookup_foldr_insert_Directory.
  destruct (decide (q ∈ prefixes cachePath)) as [Hq|_]; [|by left].
  destruct (fs w !! q) as [[d|]|] eqn:E.
  - exfalso. assert (existsb (is_file (fs w)) (prefixes cachePath) = true) as Ht.
    { apply existsb_exists. exists q. split; [by apply list_elem_of_In|].
      unfold is_file. by rewrite E. }
    congruence.
  - by left.
  - right. by apply elem_of_prefixes in Hq.
Qed.

Lemma cacheImage_files img size w :
  files_kept w (cacheImage sha256 sharp cachePath img size w).2.
Proof.
  unfold cacheImage, downscaleImage. destruct (sharp img size) as [b|].
  2: { apply files_kept_refl. }
  erewrite bind_Ok; [|reflexivity]. split; [apply fs_writeFile_wf|].
  intros q Hq. left. apply fs_writeFile_other. intros ->. apply Hq.
  by apply prefix_app_r.
Qed.

Lemma cacheImages_files images sizes w :
  files_kept w (cacheImages sha256 sharp images cachePath sizes w).2.
Proof.
  unfold cacheImages.
  apply result_snd_bind; [apply files_kept_trans | apply clearCache_files|].
  intros _ w1.
  apply result_snd_bind; [apply files_kept_trans | apply fs_mkdir_recursive_files|].
  intros _ w2.
  apply result_snd_bind; [apply files_kept_trans | | intros; apply files_kept_refl].
  apply Promise_all_rel; [apply files_kept_refl | apply files_kept_trans|].
  intros img w3 _.
  apply result_snd_bind; [apply files_kept_trans | | intros; apply files_kept_refl].
  apply Promise_all_rel; [apply files_kept_refl | apply files_kept_trans|].
  intros size w4 _. apply cacheImage_files.
Qed.

(** X9. Whether it completes or fails, [cacheImages] keeps the file system
    a tree and changes nothing outside the cache root, except that it may
    create missing directories leading to it: every other path holds what
    it held, and arrays, oracle log and console are as before. *)
Theorem cacheImages_keeps_outside (images : list path) (sizes : list JS.json)
    (w : World) :
  let w' := (cacheImages sha256 sharp images cachePath sizes w).2 in
  (fs_wf (fs w) = true → fs_wf (fs w') = true) ∧
  (∀ q, ¬ cachePath `prefix_of` q →
        fs w' !! q = fs w !! q ∨
        (q `prefix_of` cachePath ∧ fs w !! q = None ∧ fs w' !! q = Some Directory)) ∧
  heap w' = heap w ∧ oracle_calls w' = oracle_calls w ∧
  draws w' = draws w ∧ console w' = console w.
Proof.
  destruct (cacheImages_files images sizes w) as [Htree Hfiles].
  destruct (cacheImages_outside sha256 sharp cachePath images sizes w)
    as (_ & ? & ? & ? & ?).
  by split_and!.
Qed.

(** X10. On a tree-shaped file system, with nothing else writing below
    the root, [clearCache] fails only on a root that is absent below a
    regular file, with [ENOTDIR]; on either outcome the cache root and
    everything below it are absent afterwards and nothing else has changed:
    what is left is a tree, and arrays, oracle log and console are as
    before. *)
Theorem clearCache_removes_subtree (w : World) :
  fs_wf (fs w) = true →
  let run := clearCache cachePath w in
  (run.1 = Throw ENOTDIR ∧ fs w !! cachePath = None ∧
   (∃ q, q `prefix_of` cachePath ∧ q ≠ cachePath ∧ is_file (fs w) q = true) ∨
   run.1 = Ok () ∧
   ¬ (fs w !! cachePath = None ∧
      ∃ q, q `prefix_of` cachePath ∧ q ≠ cachePath ∧ is_file (fs w) q = true)) ∧
  fs_wf (fs run.2) = true ∧
  (∀ q, fs run.2 !! q = if decide (cachePath `prefix_of` q) then None
                        else fs w !! q) ∧
  heap run.2 = heap w ∧ oracle_calls run.2 = oracle_calls w ∧
  draws run.2 = draws w ∧ console run.2 = console w.
Proof.
  intros Hwf run. pose proof (clearCache_wf cachePath w Hwf) as Hwf'.
  pose proof (clearCache_Ok_iff cachePath w) as Hiff.
  unfold run.
  destruct (clearCache_spec cachePath w)
    as (r & w' & Hrun & Hr & _ & ? & ? & ? & _ & ? & _ & Hrest & Hbelow).
  rewrite Hrun in Hwf', Hiff |- *. cbn [fst snd] in *. split_and!; try done.
  - destruct Hr as [->|(-> & _ & Habs & Hmiss)].
    + right. split; [done|]. intros [Habs Hq]. apply (proj1 Hiff eq_refl).
      split; [done | by apply missing_ENOTDIR].
    + left. split_and!; [done..|]. by apply missing_ENOTDIR.
  - intros q. destruct (decide (cachePath `prefix_of` q)); [by apply Hbelow | by apply Hrest].
Qed.

(** *** Cleanup while tasks are in flight *)

#[local] Abbreviation cache_only := (cache_only cachePath).
#[local] Abbreviation only_adds := (only_adds cachePath).
#[local] Abbreviation cache_ready := (cache_ready cachePath).

Lemma cache_only_refl w : cache_only w w.
Proof. split; [apply files_kept_refl | by split_and!]. Qed.

Lemma cache_only_trans w1 w2 w3 :
  cache_only w1 w2 → cache_only w2 w3 → cache_only w1 w3.
Proof.
  intros (F1 & ? & ? & ? & ? & ? & ?) (F2 & ? & ? & ? & ? & ? & ?).
  split; [by eapply files_kept_trans|]. split_and!; congruence.
Qed.

Lemma only_adds_id : only_adds (λ w, w).
Proof. intros w. split_and!; [apply cache_only_refl | done | done]. Qed.

Lemma only_adds_compose g1 g2 :
  only_adds g1 → only_adds g2 → only_adds (λ w, g2 (g1 w)).
Proof.
  intros H1 H2 w. destruct (H1 w) as (C1 & A1 & R1), (H2 (g1 w)) as (C2 & A2 & R2).
  split_and!; [by eapply cache_only_trans | by auto | congruence].
Qed.

(** What a task of [cacheImages] does when it settles: nothing, or it
    writes its entry. *)
Lemma cacheImage_world img size w :
  (cacheImage sha256 sharp cachePath img size w).2 = w ∨
  ∃ b, sharp img size = Some b ∧
       (cacheImage sha256 sharp cachePath img size w).2
       = with_fs (<[cachePath ++ [entry_name sha256 size b] := File b]> (fs w)) w.
Proof.
  unfold cacheImage, downscaleImage. destruct (sharp img size) as [b|]; [|by left].
  erewrite bind_Ok; [|reflexivity]. unfold fs_writeFile, path_join.
  repeat case_match; try (by left); right; by exists b.
Qed.

Lemma cacheImage_lands img size b w :
  sharp img size = Some b → cache_ready w →
  cacheImage sha256 sharp cachePath img size w
  = (Ok (), with_fs (<[cachePath ++ [entry_name sha256 size b] := File b]> (fs w)) w).
Proof.
  intros Hb [Hdir Hfiles]. unfold cacheImage, downscaleImage. rewrite Hb.
  erewrite bind_Ok; [|reflexivity]. unfold fs_writeFile, path_join.
  rewrite removelast_last, Hdir.
  destruct (fs w !! (cachePath ++ [entry_name sha256 size b])) as [[d|]|] eqn:E;
    [done | by destruct (Hfiles _ E) | done].
Qed.

Lemma cacheImage_only_adds img size :
  only_adds (settle (cacheImage sha256 sharp cachePath img size)).
Proof.
  intros w. unfold settle. pose proof (cacheImage_files img size w) as Hfiles.
  destruct (cacheImage_world img size w) as [->|(b & _ & E)].
  - split_and!; [apply cache_only_refl | done | done].
  - rewrite E in Hfiles |- *. cbn [fs with_fs]. split_and!.
    + by split.
    + intros q Hq. rewrite lookup_insert. by case_decide.
    + apply lookup_insert_ne. intros H%(f_equal length).
      rewrite length_app in H. simpl in H. lia.
Qed.

Lemma cacheImage_keeps_ready img size w :
  cache_ready w → cache_ready (settle (cacheImage sha256 sharp cachePath img size) w).
Proof.
  intros [Hdir Hfiles]. unfold settle.
  destruct (cacheImage_world img size w) as [->|(b & _ & ->)]; [done|].
  split; cbn [fs with_fs].
  - rewrite lookup_insert_ne; [done|]. intros H%(f_equal length).
    rewrite length_app in H. simpl in H. lia.
  - intros name. rewrite lookup_insert. case_decide; [done | apply Hfiles].
Qed.

Lemma settle_all_snoc ts t w :
  settle_all (ts ++ [t]) w = settle t (settle_all ts w).
Proof. unfold settle_all. by rewrite foldl_app. Qed.

Lemma settle_all_only_adds ts :
  Forall (λ t, only_adds (settle t)) ts → only_adds (settle_all ts).
Proof.
  induction ts as [|t ts IH] using rev_ind; intros Hts.
  - apply only_adds_id.
  - apply Forall_app in Hts as [Hts Ht]. rewrite Forall_singleton in Ht.
    intros w. rewrite settle_all_snoc.
    apply (only_adds_compose (settle_all ts) (settle t) (IH Hts) Ht).
Qed.

Lemma settling_sublist {T} (s : nat → Timing) when (ts : list T) : ∀ k,
  ∀ t, t ∈ settling s when k ts → t ∈ ts.
Proof.
  induction ts as [|x ts IH]; intros k t; cbn [settling]; [done|].
  destruct (decide (s k = when)).
  - intros [->|H]%elem_of_cons; [left | right; by eapply IH].
  - intros H. right. by eapply IH.
Qed.

Lemma elem_of_settling {T} (s : nat → Timing) when (ts : list T) : ∀ k i t,
  ts !! i = Some t → s (k + i)%nat = when → t ∈ settling s when k ts.
Proof.
  induction ts as [|x ts IH]; intros k i t; cbn [settling]; [done|].
  destruct i as [|i]; simpl.
  - intros [= ->] Hs. rewrite Nat.add_0_r in Hs. rewrite decide_True by done. left.
  - intros Hi Hs. assert (t ∈ settling s when (S k) ts) as Hin.
    { apply (IH (S k) i); [done|].
      by replace (S k + i)%nat with (k + S i)%nat by lia. }
    destruct (decide (s k = when)); [by right | done].
Qed.

Lemma settling_none {T} (s : nat → Timing) when (ts : list T) : ∀ k,
  (∀ i, (i < length ts)%nat → s (k + i)%nat ≠ when) → settling s when k ts = [].
Proof.
  induction ts as [|x ts IH]; intros k Hs; cbn [settling]; [done|].
  destruct (decide (s k = when)) as [Hk|_].
  - exfalso. apply (Hs 0%nat); [simpl; lia | by rewrite Nat.add_0_r].
  - apply IH. intros i Hi.
    replace (S k + i)%nat with (k + S i)%nat by lia. apply Hs. simpl. lia.
Qed.

(** The tasks of [cacheImages], settling in any number and order. *)
Lemma tasks_only_adds (s : nat → Timing) when (pairs : list (path * JS.json)) :
  only_adds (settle_all
               (settling s when 0
                  (map (λ t, cacheImage sha256 sharp cachePath t.1 t.2) pairs))).
Proof.
  apply settle_all_only_adds, Forall_forall. intros t Ht%settling_sublist.
  apply list_elem_of_fmap in Ht as ([img size] & -> & _).
  apply cacheImage_only_adds.
Qed.

Lemma settle_all_keeps_ready ts w :
  Forall (λ t, ∃ img size, t = cacheImage sha256 sharp cachePath img size) ts →
  cache_ready w → cache_ready (settle_all ts w).
Proof.
  induction ts as [|t ts IH] using rev_ind; intros Hts Hw; [done|].
  apply Forall_app in Hts as [Hts Ht]. rewrite Forall_singleton in Ht.
  destruct Ht as (img & size & ->).
  rewrite settle_all_snoc. apply cacheImage_keeps_ready. by apply IH.
Qed.

(** A task that the codec serves and that settles while the cache root is
    there writes its entry, and the entry stays. *)
Lemma settle_all_lands ts img size b w :
  Forall (λ t, ∃ img size, t = cacheImage sha256 sharp cachePath img size) ts →
  cacheImage sha256 sharp cachePath img size ∈ ts →
  sharp img size = Some b → cache_ready w →
  is_Some (fs (settle_all ts w) !! (cachePath ++ [entry_name sha256 size b])).
Proof.
  induction ts as [|t ts IH] using rev_ind; intros Hts Hin Hb Hw.
  { by apply elem_of_nil in Hin. }
  apply Forall_app in Hts as [Hts Ht]. rewrite Forall_singleton in Ht.
  rewrite settle_all_snoc.
  apply elem_of_app in Hin as [Hin|Hin%list_elem_of_singleton].
  - destruct Ht as (img' & size' & ->).
    destruct (cacheImage_only_adds img' size' (settle_all ts w)) as (_ & Hadds & _).
    apply Hadds. by apply IH.
  - subst t. unfold settle.
    rewrite (cacheImage_lands img size b _ Hb (settle_all_keeps_ready ts w Hts Hw)).
    cbn [snd fs with_fs]. by rewrite lookup_insert_eq.
Qed.

Lemma entries_nil dir f : entries dir f = [] ↔ ∀ name, f !! (dir ++ [name]) = None.
Proof.
  split.
  - intros H name. destruct (f !! (dir ++ [name])) eqn:E; [|done].
    assert (name ∈ entries dir f) as Hin by (apply elem_of_entries; by rewrite E).
    rewrite H in Hin. by apply elem_of_nil in Hin.
  - intros H. destruct (entries dir f) as [|name l] eqn:E; [done|].
    assert (name ∈ entries dir f) as Hin by (rewrite E; apply list_elem_of_here).
    apply elem_of_entries in Hin as [nd Hnd]. by rewrite H in Hnd.
Qed.

(** The two removals of [fs_rm_racing]. *)
Lemma remove_all_spec w :
  let w' := with_fs (filter (λ kv, ¬ cachePath `prefix_of` kv.1) (fs w)) w in
  cache_only w w' ∧ fs w' !! cachePath = None.
Proof.
  cbn zeta. cbn [fs with_fs].
  assert (∀ q, ¬ cachePath `prefix_of` q →
            filter (λ kv : path * node, ¬ cachePath `prefix_of` kv.1) (fs w) !! q
            = fs w !! q) as Hout.
  { intros q Hq. destruct (fs w !! q) eqn:Eq.
    - by apply map_lookup_filter_Some.
    - apply map_lookup_filter_None. by left. }
  split; [split; [split|by split_and!]|].
  - cbn [fs with_fs]. rewrite !fs_wf_iff. intros H q name [nd Hnd].
    apply map_lookup_filter_Some in Hnd as [Hnd Hnp]. simpl in Hnp.
    rewrite Hout; [apply (H q name); by exists nd|].
    intros Hpq. apply Hnp. by apply prefix_app_r.
  - intros q Hq. left. by apply Hout.
  - apply map_lookup_filter_None. right. intros nd _. simpl. intros H. by apply H.
Qed.

Lemma remove_below_spec w :
  let w' := with_fs (filter (λ kv, kv.1 = cachePath ∨ ¬ cachePath `prefix_of` kv.1)
                            (fs w)) w in
  cache_only w w' ∧ fs w' !! cachePath = fs w !! cachePath ∧
  ∀ name, fs w' !! (cachePath ++ [name]) = None.
Proof.
  cbn zeta. cbn [fs with_fs].
  assert (∀ q, q = cachePath ∨ ¬ cachePath `prefix_of` q →
            filter (λ kv : path * node, kv.1 = cachePath ∨ ¬ cachePath `prefix_of` kv.1)
                   (fs w) !! q
            = fs w !! q) as Hout.
  { intros q Hq. destruct (fs w !! q) eqn:Eq.
    - by apply map_lookup_filter_Some.
    - apply map_lookup_filter_None. by left. }
  split; [split; [split|by split_and!]|split].
  - cbn [fs with_fs]. rewrite !fs_wf_iff. intros H q name [nd Hnd].
    apply map_lookup_filter_Some in Hnd as [Hnd Hnp]. simpl in Hnp.
    rewrite Hout; [apply (H q name); by exists nd|]. right.
    destruct Hnp as [<-|Hnp]; [apply not_prefix_of_child|].
    intros Hpq. apply Hnp. by apply prefix_app_r.
  - intros q Hq. left. apply Hout. by right.
  - apply Hout. by left.
  - intros name. apply map_lookup_filter_None. right. intros nd _. simpl.
    intros [H|H].
    + apply (f_equal length) in H. rewrite length_app in H. simpl in H. lia.
    + apply H. by apply prefix_app_r.
Qed.

Lemma clearCache_cache_only w : cache_only w (clearCache cachePath w).2.
Proof.
  pose proof (clearCache_files w) as Hfiles.
  assert (settles (clearCache cachePath w).2 = settles w) as Hs.
  { unfold clearCache, fs_rm. repeat case_match; done. }
  destruct (clearCache_spec cachePath w)
    as (r & w' & Hrun & _ & _ & ? & ? & ? & ? & ? & _).
  rewrite Hrun in Hfiles, Hs |- *. by split.
Qed.

(** [fs_rm_racing] on the cache root, with tasks of [cacheImages] settling
    before and after the listing: how it can end and what it leaves. *)
Lemma fs_rm_racing_spec early late w :
  only_adds early → only_adds late →
  let run := fs_rm_racing early late cachePath {| recursive := true; force := true |} w in
  cache_only w run.2 ∧
  (run.1 = Ok () ∨
   (run.1 = Throw ENOTDIR ∧ run.2 = w ∧ fs w !! cachePath = None ∧
    missing (fs w) cachePath = ENOTDIR) ∨
   (run.1 = Throw ENOTEMPTY ∧ fs run.2 !! cachePath = Some Directory)) ∧
  (run.1 ≠ Throw ENOTEMPTY → fs run.2 !! cachePath = None).
Proof.
  intros He Hl run. unfold run, fs_rm_racing.
  assert (fs w !! cachePath ≠ Some Directory →
          let run := fs_rm cachePath {| recursive := true; force := true |} w in
          cache_only w run.2 ∧
          (run.1 = Ok () ∨
           (run.1 = Throw ENOTDIR ∧ run.2 = w ∧ fs w !! cachePath = None ∧
            missing (fs w) cachePath = ENOTDIR) ∨
           (run.1 = Throw ENOTEMPTY ∧ fs run.2 !! cachePath = Some Directory)) ∧
          (run.1 ≠ Throw ENOTEMPTY → fs run.2 !! cachePath = None)) as Hplain.
  { intros _. change (fs_rm cachePath _ w) with (clearCache cachePath w). cbn zeta.
    pose proof (clearCache_cache_only w) as Hc.
    destruct (clearCache_spec cachePath w) as (r & w' & Hrun & Hr & Hgone & _).
    rewrite Hrun in Hc |- *. cbn [fst snd]. split_and!; [done| |done].
    destruct Hr as [->|(-> & -> & ? & ?)]; [by left | right; left; by split_and!]. }
  destruct (fs w !! cachePath) as [[d|]|] eqn:E; [by apply Hplain| |by apply Hplain].
  clear Hplain. cbn [recursive].
  destruct (He w) as (C1 & _ & R1). set (w1 := early w) in *.
  destruct (remove_all_spec w1) as [Call1 Hgone1].
  destruct (remove_below_spec w1) as (Cb & Rb & Hempty).
  destruct (entries cachePath (fs w1)) as [|n1 l1].
  { cbn [fst snd]. split_and!; [by eapply cache_only_trans | by left | done]. }
  set (w1' := with_fs (filter (λ kv : path * node,
                                 kv.1 = cachePath ∨ ¬ cachePath `prefix_of` kv.1)
                              (fs w1)) w1) in *.
  destruct (Hl w1') as (C2 & _ & R2). set (w2 := late w1') in *.
  destruct (remove_all_spec w2) as [Call2 Hgone2].
  assert (cache_only w w2) as Cw2
    by (eapply cache_only_trans; [exact C1|]; by eapply cache_only_trans).
  destruct (entries cachePath (fs w2)) as [|n2 l2]; cbn [fst snd].
  - split_and!; [eapply cache_only_trans; [exact Cw2 | exact Call2] | by left | done].
  - split_and!; [done | | done]. right. right. split; [done|].
    rewrite R2, Rb, R1. exact E.
Qed.

(** With no task settling after the listing the removal cannot be caught
    out. *)
Lemma fs_rm_racing_no_late early w :
  (fs_rm_racing early (λ w, w) cachePath {| recursive := true; force := true |} w).1
  ≠ Throw ENOTEMPTY.
Proof.
  unfold fs_rm_racing.
  assert ((fs_rm cachePath {| recursive := true; force := true |} w).1
          ≠ Throw ENOTEMPTY) as Hplain.
  { change (fs_rm cachePath _ w) with (clearCache cachePath w).
    destruct (clearCache_spec cachePath w) as (r & w' & -> & [->|(-> & _)] & _); done. }
  destruct (fs w !! cachePath) as [[d|]|]; [done| |done]. cbn [recursive].
  destruct (entries cachePath (fs (early w))); [done|].
  destruct (remove_below_spec (early w)) as (_ & _ & Hempty).
  apply entries_nil in Hempty. cbn [fs with_fs] in Hempty |- *.
  by rewrite Hempty.
Qed.

(** With one that the codec serves, and an entry in the root to remove
    first, it is. *)
Lemma fs_rm_racing_loses early late name w :
  only_adds early → only_adds late →
  fs w !! cachePath = Some Directory → entries cachePath (fs w) ≠ [] →
  (∀ w0, cache_ready w0 → is_Some (fs (late w0) !! (cachePath ++ [name]))) →
  let run := fs_rm_racing early late cachePath {| recursive := true; force := true |} w in
  run.1 = Throw ENOTEMPTY ∧ fs run.2 !! cachePath = Some Directory ∧
  is_Some (fs run.2 !! (cachePath ++ [name])).
Proof.
  intros He Hl Hdir Hne Hlate run. unfold run, fs_rm_racing. rewrite Hdir.
  cbn [recursive].
  destruct (He w) as (_ & A1 & R1). set (w1 := early w) in *.
  destruct (remove_below_spec w1) as (_ & Rb & Hempty).
  destruct (entries cachePath (fs w1)) as [|n1 l1] eqn:E1.
  { exfalso. apply Hne. apply entries_nil. intros nm.
    destruct (fs w !! (cachePath ++ [nm])) eqn:Enm; [|done].
    assert (is_Some (fs w1 !! (cachePath ++ [nm]))) as [nd Hnd]
      by (apply A1; by rewrite Enm).
    apply entries_nil with (name := nm) in E1. congruence. }
  set (w1' := with_fs (filter (λ kv : path * node,
                                 kv.1 = cachePath ∨ ¬ cachePath `prefix_of` kv.1)
                              (fs w1)) w1) in *.
  assert (cache_ready w1') as Hready.
  { split; [by rewrite Rb, R1|]. intros nm. by rewrite Hempty. }
  specialize (Hlate w1' Hready). destruct (Hl w1') as (_ & _ & R2).
  set (w2 := late w1') in *.
  destruct (entries cachePath (fs w2)) as [|n2 l2] eqn:E2.
  { exfalso. apply entries_nil with (name := name) in E2.
    rewrite E2 in Hlate. by destruct Hlate. }
  cbn [fst snd]. split_and!; [done | by rewrite R2, Rb, R1 | done].
Qed.

(** *** The pipeline *)

Lemma cacheImages_unfold images sizes w :
  cacheImages sha256 sharp images cachePath sizes w
  = match (_ ← clearCache cachePath; fs_mkdir_recursive cachePath) w with
    | (Ok _, w1) =>
        match Promise_all (λ img,
                _ ← Promise_all (λ size, cacheImage sha256 sharp cachePath img size)
                      sizes;
                mret ()) images w1 with
        | (Ok _, w2) => (Ok (), w2)
        | (Throw e, w2) => (Throw e, w2)
        end
    | (Throw e, w1) => (Throw e, w1)
    end.
Proof.
  unfold cacheImages. rewrite !bind_unfold.
  destruct (clearCache cachePath w) as [[[]|e] w0]; [|done]. rewrite bind_unfold.
  destruct (fs_mkdir_recursive cachePath w0) as [[[]|e] w1]; [|done].
  rewrite bind_unfold. by destruct (Promise_all _ images w1) as [[ys|e] w2].
Qed.

Lemma tasks_in_flight_Ok images sizes : ∀ w ys w',
  Promise_all (λ img,
      _ ← Promise_all (λ size, cacheImage sha256 sharp cachePath img size) sizes;
      mret ()) images w = (Ok ys, w') →
  tasks_in_flight sha256 sharp cachePath images sizes w = [].
Proof.
  induction images as [|img images IH]; intros w ys w'; [done|].
  cbn [Promise_all tasks_in_flight]. rewrite !bind_unfold.
  destruct (Promise_all (λ size, cacheImage sha256 sharp cachePath img size) sizes w)
    as [[zs|e] w1]; [|done].
  cbn [mret M_ret]. rewrite bind_unfold.
  destruct (Promise_all _ images w1) as [[ys'|e] w2] eqn:Hrest; [|done].
  intros _. by eapply IH.
Qed.

(** The tasks of [cacheImages] change nothing but entries of the cache
    root. *)
Lemma population_tasks_only_add images sizes :
  only_adds (λ w, (Promise_all (λ img,
      _ ← Promise_all (λ size, cacheImage sha256 sharp cachePath img size) sizes;
      mret ()) images w).2).
Proof.
  intros w.
  set (R := λ w w' : World,
         cache_only w w' ∧ (∀ q, is_Some (fs w !! q) → is_Some (fs w' !! q)) ∧
         fs w' !! cachePath = fs w !! cachePath).
  assert (∀ w0, R w0 w0) as Hrefl
    by (intros w0; split_and!; [apply cache_only_refl | done | done]).
  assert (∀ w1 w2 w3, R w1 w2 → R w2 w3 → R w1 w3) as Htrans.
  { intros w1 w2 w3 (C1 & A1 & R1) (C2 & A2 & R2).
    split_and!; [by eapply cache_only_trans | by auto | congruence]. }
  change (R w (Promise_all (λ img,
      _ ← Promise_all (λ size, cacheImage sha256 sharp cachePath img size) sizes;
      mret ()) images w).2).
  apply Promise_all_rel; [done..|]. intros img w1 _.
  apply result_snd_bind; [done | | intros; apply Hrefl].
  apply Promise_all_rel; [done..|]. intros size w2 _.
  apply (cacheImage_only_adds img size w2).
Qed.

Lemma fs_mkdir_recursive_cache_only w :
  cache_only w (fs_mkdir_recursive cachePath w).2.
Proof.
  pose proof (fs_mkdir_recursive_files w) as H. unfold fs_mkdir_recursive in *.
  destruct (existsb _ _); [apply cache_only_refl | by split].
Qed.

Lemma cacheImages_cache_only images sizes w :
  cache_only w (cacheImages sha256 sharp images cachePath sizes w).2.
Proof.
  unfold cacheImages.
  apply result_snd_bind; [apply cache_only_trans | apply clearCache_cache_only|].
  intros _ w1.
  apply result_snd_bind; [apply cache_only_trans | apply fs_mkdir_recursive_cache_only|].
  intros _ w2.
  apply result_snd_bind; [apply cache_only_trans | | intros; apply cache_only_refl].
  apply (population_tasks_only_add images sizes w2).
Qed.

(** When [cacheImages] completes nothing is in flight and the cache root
    is a directory; when something is in flight the cache root is a
    directory too. *)
Lemma cacheImages_flight images sizes w :
  let run := cacheImages sha256 sharp images cachePath sizes w in
  let pairs := cacheImages_in_flight sha256 sharp images cachePath sizes w in
  (run.1 = Ok () → pairs = [] ∧ fs run.2 !! cachePath = Some Directory) ∧
  (pairs ≠ [] → fs run.2 !! cachePath = Some Directory).
Proof.
  cbn zeta. rewrite cacheImages_unfold. unfold cacheImages_in_flight.
  destruct ((_ ← clearCache cachePath; fs_mkdir_recursive cachePath) w)
    as [[[]|e] w1] eqn:Hstart; [|done].
  assert (fs w1 !! cachePath = Some Directory) as Hdir.
  { apply bind_Ok_inv in Hstart as ([] & w0 & _ & Hmk).
    by apply fs_mkdir_recursive_Ok in Hmk as [? _]. }
  destruct (population_tasks_only_add images sizes w1) as (_ & _ & Hroot).
  cbn beta in Hroot.
  destruct (Promise_all _ images w1) as [[ys|e] w2] eqn:Htasks; cbn [fst snd] in *.
  - rewrite (tasks_in_flight_Ok images sizes w1 ys w2 Htasks).
    split; [intros _; split; [done | congruence] | done].
  - split; [done | intros _; congruence].
Qed.

(** The four stages, with whatever the last one prints: what they do to the
    files and the console, how they can end, and what they leave in
    flight. *)
Lemma stages_cases (last : list ComparisonResult → M unit)
    (out : list ComparisonResult → Output) testdataPath sizes w :
  (∀ rs w0, last rs w0 = (Ok (), with_console (console w0 ++ [out rs]) w0)) →
  let body := (images ← initImages testdataPath;
               _ ← cacheImages sha256 sharp images cachePath sizes;
               results ← runAllComparisons cachePath;
               last (concat results)) in
  let pairs := pipeline_in_flight sha256 sharp cachePath testdataPath sizes w in
  files_kept w (body w).2 ∧
  (pairs ≠ [] → fs (body w).2 !! cachePath = Some Directory) ∧
  match (body w).1 with
  | Ok _ =>
      (∃ rs, console (body w).2 = console w ++ [out rs]) ∧
      early_outcome sha256 sharp cachePath testdataPath sizes w (Ok ()) ∧
      pairs = [] ∧ fs (body w).2 !! cachePath = Some Directory
  | Throw e =>
      console (body w).2 = console w ∧ settles (body w).2 = settles w ∧
      early_outcome sha256 sharp cachePath testdataPath sizes w (Throw e)
  end.
Proof.
  intros Hlast body pairs. unfold body, pairs, early_outcome, pipeline_in_flight.
  rewrite bind_unfold.
  pose proof (initImages_reads testdataPath w) as Hi.
  destruct (initImages testdataPath w) as [[images|e] w0]; simpl in Hi; subst w0.
  2: { simpl. split_and!; [apply files_kept_refl | done | done | done | by left]. }
  rewrite bind_unfold.
  destruct (cacheImages_cache_only images sizes w) as (Hf1 & _ & _ & _ & _ & Hc1 & Hs1).
  destruct (cacheImages_flight images sizes w) as [Hok Hflight].
  destruct (cacheImages sha256 sharp images cachePath sizes w) as [[[]|e] w1] eqn:Hcache;
    cbn [fst snd] in *.
  2: { split_and!; [done..|]. right. exists images. by rewrite Hcache. }
  destruct (Hok eq_refl) as [Hnone Hdir]. rewrite bind_unfold.
  destruct (runAllComparisons_reads cachePath w1) as (Hf2 & Hc2 & Hrun).
  destruct (Hrun Hdir) as [rs Hrs].
  destruct (runAllComparisons cachePath w1) as [[rs'|e] w2]; cbn [fst snd] in *;
    [|done].
  rewrite Hlast. cbn [fst snd fs console with_console]. split_and!.
  - eapply files_kept_trans; [exact Hf1 | by apply files_kept_same].
  - by rewrite Hf2.
  - exists (concat rs'). congruence.
  - exists images. by rewrite Hcache.
  - done.
  - by rewrite Hf2.
Qed.

Lemma createChart_prints rs w0 :
  createChart rs w0
  = (Ok (), with_console (console w0 ++ [console_log_chart (chart_config rs)]) w0).
Proof. done. Qed.

(** The cleanup, racing the tasks left in flight. *)
Lemma cleanup_cases pairs w :
  let run := clearCache_racing sha256 sharp pairs cachePath w in
  cache_only w run.2 ∧
  (run.1 = Ok () ∨
   (run.1 = Throw ENOTDIR ∧ run.2 = w ∧ fs w !! cachePath = None ∧
    missing (fs w) cachePath = ENOTDIR) ∨
   (run.1 = Throw ENOTEMPTY ∧ fs run.2 !! cachePath = Some Directory)) ∧
  (run.1 ≠ Throw ENOTEMPTY → fs run.2 !! cachePath = None) ∧
  (pairs = [] → run.1 ≠ Throw ENOTEMPTY).
Proof.
  cbn zeta. unfold clearCache_racing.
  pose proof (tasks_only_adds (settles w) BeforeListing pairs) as He.
  pose proof (tasks_only_adds (settles w) AfterListing pairs) as Hl.
  destruct (fs_rm_racing_spec _ _ w He Hl) as (Hc & Hr & Hgone).
  split_and!; [done..|]. intros ->. apply fs_rm_racing_no_late.
Qed.

(** A pipeline that completes has completed its [try] block, and its
    cleanup has printed nothing. *)
Lemma pipeline_Ok_inv testdataPath sizes w :
  (pipeline sha256 sharp cachePath testdataPath sizes w).1 = Ok () →
  (pipeline_try sha256 sharp cachePath testdataPath sizes w).1 = Ok () ∧
  console (pipeline sha256 sharp cachePath testdataPath sizes w).2
  = console (pipeline_try sha256 sharp cachePath testdataPath sizes w).2.
Proof.
  unfold pipeline, try_finally.
  destruct (pipeline_try sha256 sharp cachePath testdataPath sizes w) as [r w1].
  destruct (cleanup_cases (pipeline_in_flight sha256 sharp cachePath testdataPath sizes w)
              w1) as ((_ & _ & _ & _ & _ & Hcon & _) & _).
  destruct (clearCache_racing _ _ _ _ w1) as [[[]|e] w2]; cbn [fst snd] in *; [|done].
  by intros ->.
Qed.

(** A run: the stages and the cleanup, racing the tasks left in flight. *)
Lemma run_cases (last : list ComparisonResult → M unit)
    (out : list ComparisonResult → Output) testdataPath sizes w :
  (∀ rs w0, last rs w0 = (Ok (), with_console (console w0 ++ [out rs]) w0)) →
  let body := (images ← initImages testdataPath;
               _ ← cacheImages sha256 sharp images cachePath sizes;
               results ← runAllComparisons cachePath;
               last (concat results)) in
  let pairs := pipeline_in_flight sha256 sharp cachePath testdataPath sizes w in
  let run := try_finally body (clearCache_racing sha256 sharp pairs cachePath) w in
  files_kept w run.2 ∧
  (run.1 ≠ Throw ENOTEMPTY → fs run.2 !! cachePath = None) ∧
  match run.1 with
  | Ok _ =>
      (∃ rs, console run.2 = console w ++ [out rs]) ∧
      early_outcome sha256 sharp cachePath testdataPath sizes w (Ok ())
  | Throw e =>
      console run.2 = console w ∧
      ∃ e', early_outcome sha256 sharp cachePath testdataPath sizes w (Throw e') ∧
            (e = e' ∨ e = ENOTDIR ∨ e = ENOTEMPTY)
  end.
Proof.
  intros Hlast body pairs run.
  destruct (stages_cases last out testdataPath sizes w Hlast) as (Hf & _ & Hcases).
  fold body pairs in Hf, Hcases. unfold run, try_finally.
  destruct (body w) as [r w1]. cbn [fst snd] in *.
  destruct (cleanup_cases pairs w1) as ((Hf2 & _ & _ & _ & _ & Hc2 & _) & Hr & Hgone & Hno).
  destruct (clearCache_racing sha256 sharp pairs cachePath w1) as [rf w2].
  cbn [fst snd] in *.
  assert (files_kept w w2) as Hkept by (by eapply files_kept_trans).
  destruct r as [[]|e'].
  - destruct Hcases as (Hcon & Hearly & Hnone & Hdir).
    assert (rf = Ok ()) as ->.
    { destruct Hr as [?|[(_ & _ & Habs & _)|[-> _]]]; [done | congruence |].
      by destruct (Hno Hnone). }
    cbn [fst snd]. split_and!; [done | by auto | | done].
    destruct Hcon as [rs Hrs]. exists rs. congruence.
  - destruct Hcases as (Hcon & _ & Hearly).
    destruct Hr as [->|[(-> & _)|[-> Hdir]]]; cbn [fst snd].
    + split_and!; [done | by auto | congruence |]. exists e'. by split; [|left].
    + split_and!; [done | by auto | congruence |].
      exists e'. split; [done | right; by left].
    + split_and!; [done | done | congruence |].
      exists e'. split; [done | right; by right].
Qed.

Lemma pipeline_cases testdataPath sizes w :
  let run := pipeline sha256 sharp cachePath testdataPath sizes w in
  files_kept w run.2 ∧
  (run.1 ≠ Throw ENOTEMPTY → fs run.2 !! cachePath = None) ∧
  match run.1 with
  | Ok _ =>
      (∃ rs, console run.2 = console w ++ [console_log_chart (chart_config rs)]) ∧
      early_outcome sha256 sharp cachePath testdataPath sizes w (Ok ())
  | Throw e =>
      console run.2 = console w ∧
      ∃ e', early_outcome sha256 sharp cachePath testdataPath sizes w (Throw e') ∧
            (e = e' ∨ e = ENOTDIR ∨ e = ENOTEMPTY)
  end.
Proof.
  apply (run_cases createChart (λ rs, console_log_chart (chart_config rs))
           testdataPath sizes w createChart_prints).
Qed.

Lemma pipeline_frqt_cases testdataPath sizes w :
  let run := pipeline_frqt sha256 sharp cachePath testdataPath sizes w in
  files_kept w run.2 ∧
  (run.1 ≠ Throw ENOTEMPTY → fs run.2 !! cachePath = None) ∧
  match run.1 with
  | Ok _ =>
      (∃ rs, console run.2 = console w ++ [console_log_results rs]) ∧
      early_outcome sha256 sharp cachePath testdataPath sizes w (Ok ())
  | Throw e =>
      console run.2 = console w ∧
      ∃ e', early_outcome sha256 sharp cachePath testdataPath sizes w (Throw e') ∧
            (e = e' ∨ e = ENOTDIR ∨ e = ENOTEMPTY)
  end.
Proof.
  apply (run_cases (λ rs, console_print (console_log_results rs))
           console_log_results testdataPath sizes w (λ _ _, eq_refl)).
Qed.

(** The cleanup caught out: a task in flight that writes its entry while
    the cleanup is removing what it listed. *)
Lemma run_race (last : list ComparisonResult → M unit)
    (out : list ComparisonResult → Output) testdataPath sizes w k img size b :
  (∀ rs w0, last rs w0 = (Ok (), with_console (console w0 ++ [out rs]) w0)) →
  let body := (images ← initImages testdataPath;
               _ ← cacheImages sha256 sharp images cachePath sizes;
               results ← runAllComparisons cachePath;
               last (concat results)) in
  let pairs := pipeline_in_flight sha256 sharp cachePath testdataPath sizes w in
  let run := try_finally body (clearCache_racing sha256 sharp pairs cachePath) w in
  pairs !! k = Some (img, size) → settles w k = AfterListing →
  sharp img size = Some b → entries cachePath (fs (body w).2) ≠ [] →
  run.1 = Throw ENOTEMPTY ∧ fs run.2 !! cachePath = Some Directory ∧
  is_Some (fs run.2 !! (cachePath ++ [entry_name sha256 size b])).
Proof.
  intros Hlast body pairs run Hk Hs Hb Hne.
  destruct (stages_cases last out testdataPath sizes w Hlast) as (_ & Hdir & Hcases).
  fold body pairs in Hdir, Hcases.
  assert (pairs ≠ []) as Hpairs by (intros E; by rewrite E in Hk).
  specialize (Hdir Hpairs).
  assert (settles (body w).2 = settles w) as Hsettles.
  { destruct (body w).1; [by destruct Hcases as (_ & _ & ? & _) | by destruct Hcases as (_ & ? & _)]. }
  unfold run, try_finally. destruct (body w) as [r w1]. cbn [fst snd] in *.
  unfold clearCache_racing. rewrite Hsettles.
  set (tasks := map (λ t, cacheImage sha256 sharp cachePath t.1 t.2) pairs).
  pose proof (tasks_only_adds (settles w) BeforeListing pairs) as He.
  pose proof (tasks_only_adds (settles w) AfterListing pairs) as Hl.
  fold tasks in He, Hl.
  destruct (fs_rm_racing_loses _ _ (entry_name sha256 size b) w1 He Hl Hdir Hne)
    as (Hr & Hroot & Hentry).
  { intros w0 Hw0. apply (settle_all_lands _ img size b); [| |done..].
    - apply Forall_forall. intros t Ht%settling_sublist.
      apply list_elem_of_fmap in Ht as ([i s] & -> & _). by exists i, s.
    - apply (elem_of_settling _ _ _ 0 k); [|done].
      unfold tasks. by rewrite list_lookup_fmap, Hk. }
  destruct (fs_rm_racing _ _ cachePath _ w1) as [rf w2]. cbn [fst snd] in *.
  subst rf. by destruct r.
Qed.

(** The cleanup with no task writing behind its back. *)
Lemma run_no_race (last : list ComparisonResult → M unit)
    (out : list ComparisonResult → Output) testdataPath sizes w :
  (∀ rs w0, last rs w0 = (Ok (), with_console (console w0 ++ [out rs]) w0)) →
  let body := (images ← initImages testdataPath;
               _ ← cacheImages sha256 sharp images cachePath sizes;
               results ← runAllComparisons cachePath;
               last (concat results)) in
  let pairs := pipeline_in_flight sha256 sharp cachePath testdataPath sizes w in
  let run := try_finally body (clearCache_racing sha256 sharp pairs cachePath) w in
  run.2 = (clearCache_racing sha256 sharp pairs cachePath (body w).2).2 ∧
  ((∀ k, (k < length pairs)%nat → settles w k ≠ AfterListing) →
   fs run.2 !! cachePath = None).
Proof.
  intros Hlast body pairs run.
  destruct (stages_cases last out testdataPath sizes w Hlast) as (_ & _ & Hcases).
  fold body pairs in Hcases.
  assert (run.2 = (clearCache_racing sha256 sharp pairs cachePath (body w).2).2) as Hrun.
  { unfold run, try_finally. destruct (body w) as [r w1]. cbn [fst snd].
    by destruct (clearCache_racing _ _ _ _ w1) as [[[]|e] w2]. }
  split; [done|]. intros Hs. rewrite Hrun.
  destruct (cleanup_cases pairs (body w).2) as (_ & _ & Hgone & Hno).
  apply Hgone.
  destruct (decide (pairs = [])) as [Hnil|Hpairs]; [by apply Hno|].
  assert (settles (body w).2 = settles w) as Hsettles.
  { destruct (body w).1 eqn:Hr; [|by destruct Hcases as (_ & ? & _)].
    by destruct Hcases as (_ & _ & ? & _). }
  unfold clearCache_racing. rewrite Hsettles.
  rewrite (settling_none (settles w) AfterListing); [apply fs_rm_racing_no_late|].
  intros i Hi. rewrite length_map in Hi. by apply Hs.
Qed.

(** C5. The cleanup runs on every exit path of the pipeline, whatever the
    [try] block did; but it does not always leave the cache root absent.
    [cacheImages] fails as soon as one task fails and leaves the others in
    flight, and the cleanup runs while they write.  The cache root does not
    exist when the pipeline has ended unless the pipeline ends with
    [ENOTEMPTY], the error of a cleanup that could not remove the cache
    root.  In the runs described here, in which the tasks before the first
    one that fails have settled by then: if none of the tasks in flight
    writes after the cleanup has listed the cache root, the cache root does
    not exist when the pipeline has ended; if one of them does, and the
    cache root was not empty when the cleanup started, the removal of the
    cache root fails: the pipeline ends with [ENOTEMPTY] and leaves the
    cache root behind, with the entry of that task in it.  The same holds
    for the pipeline of the [frqt.js] revision. *)
Theorem pipeline_cleanup_race (testdataPath : path) (sizes : list JS.json)
    (w : World) :
  let pairs := pipeline_in_flight sha256 sharp cachePath testdataPath sizes w in
  ∀ body run,
    (body = pipeline_try sha256 sharp cachePath testdataPath sizes ∧
     run = pipeline sha256 sharp cachePath testdataPath sizes w) ∨
    (body = pipeline_try_frqt sha256 sharp cachePath testdataPath sizes ∧
     run = pipeline_frqt sha256 sharp cachePath testdataPath sizes w) →
    run.2 = (clearCache_racing sha256 sharp pairs cachePath (body w).2).2 ∧
    (run.1 ≠ Throw ENOTEMPTY → fs run.2 !! cachePath = None) ∧
    ((∀ k, (k < length pairs)%nat → settles w k ≠ AfterListing) →
     fs run.2 !! cachePath = None) ∧
    (∀ k img size b,
       pairs !! k = Some (img, size) → settles w k = AfterListing →
       sharp img size = Some b → entries cachePath (fs (body w).2) ≠ [] →
       run.1 = Throw ENOTEMPTY ∧ fs run.2 !! cachePath = Some Directory ∧
       is_Some (fs run.2 !! (cachePath ++ [entry_name sha256 size b]))).
Proof.
  intros pairs body run [[-> ->]|[-> ->]].
  - destruct (run_no_race createChart (λ rs, console_log_chart (chart_config rs))
                testdataPath sizes w createChart_prints) as [Hrun Hgone].
    destruct (pipeline_cases testdataPath sizes w) as (_ & Hunless & _).
    split_and!; [done..|]. intros k img size b.
    apply (run_race createChart (λ rs, console_log_chart (chart_config rs))
             testdataPath sizes w k img size b createChart_prints).
  - destruct (run_no_race (λ rs, console_print (console_log_results rs))
                console_log_results testdataPath sizes w (λ _ _, eq_refl))
      as [Hrun Hgone].
    destruct (pipeline_frqt_cases testdataPath sizes w) as (_ & Hunless & _).
    split_and!; [done..|]. intros k img size b.
    apply (run_race (λ rs, console_print (console_log_results rs))
             console_log_results testdataPath sizes w k img size b (λ _ _, eq_refl)).
Qed.

Lemma run_outcome_of_cases testdataPath sizes w (r : Result unit) :
  match r with
  | Ok _ => early_outcome sha256 sharp cachePath testdataPath sizes w (Ok ())
  | Throw e =>
      ∃ e', early_outcome sha256 sharp cachePath testdataPath sizes w (Throw e') ∧
            (e = e' ∨ e = ENOTDIR ∨ e = ENOTEMPTY)
  end →
  early_outcome sha256 sharp cachePath testdataPath sizes w (Ok ()) → r = Ok ().
Proof.
  destruct r as [[]|e]; [done|]. intros H.
  intros (images & Hinit & Hcache). destruct H as (e' & [He'|(images' & Hi & Hc)] & _).
  - congruence.
  - rewrite Hinit in Hi. injection Hi as <-. congruence.
Qed.

(** X11. A run fails only if one of its first two stages does: the
    pipeline completes exactly when discovery and population complete;
    comparison and charting never fail after a completed population, and
    the cleanup never fails after a completed [try] block.  When it fails
    it ends with the error of the stage that failed, unless the cleanup
    fails too, with [ENOTDIR] or [ENOTEMPTY], and then it ends with that.
    The same holds for the pipeline of the [frqt.js] revision. *)
Theorem pipeline_fails_only_early (testdataPath : path) (sizes : list JS.json)
    (w : World) :
  ∀ r, r = (pipeline sha256 sharp cachePath testdataPath sizes w).1 ∨
       r = (pipeline_frqt sha256 sharp cachePath testdataPath sizes w).1 →
    match r with
    | Ok _ => early_outcome sha256 sharp cachePath testdataPath sizes w (Ok ())
    | Throw e =>
        ∃ e', early_outcome sha256 sharp cachePath testdataPath sizes w (Throw e') ∧
              (e = e' ∨ e = ENOTDIR ∨ e = ENOTEMPTY)
    end ∧
    (early_outcome sha256 sharp cachePath testdataPath sizes w (Ok ()) → r = Ok ()).
Proof.
  intros r Hr.
  assert (match r with
          | Ok _ => early_outcome sha256 sharp cachePath testdataPath sizes w (Ok ())
          | Throw e =>
              ∃ e', early_outcome sha256 sharp cachePath testdataPath sizes w (Throw e') ∧
                    (e = e' ∨ e = ENOTDIR ∨ e = ENOTEMPTY)
          end) as H.
  { destruct Hr as [-> | ->].
    - destruct (pipeline_cases testdataPath sizes w) as (_ & _ & H).
      destruct (pipeline _ _ _ _ _ w).1; tauto.
    - destruct (pipeline_frqt_cases testdataPath sizes w) as (_ & _ & H).
      destruct (pipeline_frqt _ _ _ _ _ w).1; tauto. }
  split; [done|]. by apply run_outcome_of_cases.
Qed.

(** X12. What a run leaves on a tree-shaped file system, on every outcome:
    a tree in which every path that is not the cache root or below it holds
    what it held, except for missing directories leading to the cache root,
    which may have been created; and unless the run ends with [ENOTEMPTY],
    the error of a cleanup that tasks in flight have caught out, the cache
    root and everything below it are absent.  The same holds for the
    pipeline of the [frqt.js] revision. *)
Theorem pipeline_file_effects (testdataPath : path) (sizes : list JS.json)
    (w : World) :
  fs_wf (fs w) = true →
  ∀ run, run = pipeline sha256 sharp cachePath testdataPath sizes w ∨
         run = pipeline_frqt sha256 sharp cachePath testdataPath sizes w →
    fs_wf (fs run.2) = true ∧
    (∀ q, ¬ cachePath `prefix_of` q →
          fs run.2 !! q = fs w !! q ∨
          (q `prefix_of` cachePath ∧ fs w !! q = None ∧
           fs run.2 !! q = Some Directory)) ∧
    (run.1 ≠ Throw ENOTEMPTY → ∀ q, cachePath `prefix_of` q → fs run.2 !! q = None).
Proof.
  intros Hwf run Hrun.
  assert (files_kept w run.2 ∧
          (run.1 ≠ Throw ENOTEMPTY → fs run.2 !! cachePath = None))
    as ([Htree Hfiles] & Hgone).
  { destruct Hrun as [->| ->].
    - destruct (pipeline_cases testdataPath sizes w) as (? & ? & _). done.
    - destruct (pipeline_frqt_cases testdataPath sizes w) as (? & ? & _). done. }
  specialize (Htree Hwf). split_and!; [done..|].
  intros Hne q Hq. specialize (Hgone Hne).
  destruct (decide (cachePath = q)) as [<-|Hneq]; [done|].
  apply (fs_wf_below _ cachePath); [done | by rewrite Hgone | done | done].
Qed.

End files.

(** *** The process as a whole *)

Section process.
Variable sha256 : Buffer → Buffer.
Variable sharp : path → JS.json → option Buffer.
Variable JSON_parse : string → option JS.json.
Variable path_resolve : string → path.
Variable cachePath : path.

(** The checks only read. *)
Lemma parse_args_reads argv w : (parse_args JSON_parse path_resolve argv w).2 = w.
Proof.
  unfold parse_args. destruct (_ <? _)%nat; [done|].
  rewrite bind_unfold. unfold fs_access.
  destruct (fs w !! _); [|done].
  destruct (JSON_parse _); [|done].
  by destruct (_ || _).
Qed.

(** X13. The checks let every array of numbers through: with at least
    two arguments after the script name (further ones are ignored), a source
    path that exists and a sizes argument that parses to an array of
    numbers, [parse_args] returns the resolved path and the numbers and
    changes nothing. *)
Theorem parse_args_accepts_numbers (argv : list string) (w : World) (sizes : JS.json) :
  (4 ≤ length argv)%nat →
  is_Some (fs w !! path_resolve (nth 2 argv "")) →
  JSON_parse (nth 3 argv "") = Some sizes →
  is_array_of_numbers sizes = true →
  parse_args JSON_parse path_resolve argv w
  = (Ok (path_resolve (nth 2 argv ""), elements_of sizes), w).
Proof.
  intros Hlen [nd Hacc] Hparse Hnum. unfold parse_args.
  destruct (Nat.ltb_spec (length argv) 4) as [|_]; [lia|].
  rewrite bind_unfold. unfold fs_access. rewrite Hacc, Hparse.
  destruct sizes as [| | | |l|]; try discriminate Hnum.
  change (elements_of (JS.JArr l)) with l.
  assert (existsb JS.isNaN l = false) as ->; [|done].
  simpl in Hnum. clear Hparse. induction l as [|v l IH]; [done|].
  simpl in Hnum. apply andb_true_iff in Hnum as [Hv Hl].
  simpl. rewrite (IH Hl). by destruct v.
Qed.

(** X14. The three ways the process ends.  It exits with 0 after printing
    the chart of some results, and nothing else; or it exits with 1 and the
    script has printed nothing, when the pipeline failed; or it exits with
    1 on a rejected command line, and then the one error line is all that
    has happened: no file has been touched, the cache not even cleared. *)
Theorem main_three_endings (argv : list string) (w : World) :
  let run := main sha256 sharp JSON_parse path_resolve cachePath argv w in
  (run.1 = 0 ∧
   ∃ rs, console run.2 = console w ++ [console_log_chart (chart_config rs)]) ∨
  (run.1 = 1 ∧ console run.2 = console w) ∨
  (run.1 = 1 ∧
   ∃ e, run.2 = with_console
                  (console w ++ [console_error "Error parsing arguments:" (message e)])
                  w).
Proof.
  intros run. unfold run.
  destruct (parse_args JSON_parse path_resolve argv w) as [[[tp sizes]|e] w1] eqn:Hargs.
  - pose proof (parse_args_reads argv w) as Hw. rewrite Hargs in Hw.
    simpl in Hw. subst w1. unfold main. rewrite Hargs.
    destruct (pipeline_cases sha256 sharp cachePath tp sizes w) as (_ & _ & H).
    destruct (pipeline sha256 sharp cachePath tp sizes w) as [[[]|e] w2];
      cbn [fst snd exit_code] in *.
    + left. by destruct H.
    + right. left. by destruct H.
  - destruct (main_rejected sha256 sharp JSON_parse path_resolve cachePath
                argv w e w1 Hargs) as [_ ->].
    right. right. split; [done | by exists e].
Qed.

(** X15. Whatever the command line and however the run ends, the process
    keeps the file system a tree and changes no path that is not the cache
    root or below it, except that it may create missing directories leading
    to the cache root: a source image that is not below the cache root is
    never modified or removed.  What is at or below the cache root is not
    kept: once the command line is accepted, a run on a tree-shaped file
    system whose pipeline does not end with [ENOTEMPTY] leaves nothing
    there, a source directory placed there included. *)
Theorem main_changes_only_cache (argv : list string) (w : World) :
  let w' := (main sha256 sharp JSON_parse path_resolve cachePath argv w).2 in
  (fs_wf (fs w) = true → fs_wf (fs w') = true) ∧
  (∀ q, ¬ cachePath `prefix_of` q →
        fs w' !! q = fs w !! q ∨
        (q `prefix_of` cachePath ∧ fs w !! q = None ∧ fs w' !! q = Some Directory)) ∧
  (∀ testdataPath sizes,
     (parse_args JSON_parse path_resolve argv w).1 = Ok (testdataPath, sizes) →
     (pipeline sha256 sharp cachePath testdataPath sizes w).1 ≠ Throw ENOTEMPTY →
     fs_wf (fs w) = true →
     ∀ q, cachePath `prefix_of` q → fs w' !! q = None).
Proof.
  intros w'.
  assert (files_kept cachePath w w') as Hkept.
  { unfold w'.
    destruct (parse_args JSON_parse path_resolve argv w) as [[[tp sizes]|e] w1] eqn:Hargs.
    - pose proof (parse_args_reads argv w) as Hw. rewrite Hargs in Hw.
      simpl in Hw. subst w1. unfold main. rewrite Hargs.
      destruct (pipeline_cases sha256 sharp cachePath tp sizes w) as (H & _).
      by destruct (pipeline sha256 sharp cachePath tp sizes w) as [r w2].
    - destruct (main_rejected sha256 sharp JSON_parse path_resolve cachePath
                  argv w e w1 Hargs) as [_ ->].
      by apply files_kept_same. }
  destruct Hkept as [Htree Hfiles]. split_and!; [done..|].
  intros tp sizes Hargs Hne Hwf q Hq. specialize (Htree Hwf).
  assert (fs w' !! cachePath = None) as Hgone.
  { unfold w', main in *. pose proof (parse_args_reads argv w) as Hw.
    destruct (parse_args JSON_parse path_resolve argv w) as [r w1].
    cbn [fst snd] in *. subst r w1.
    destruct (pipeline_cases sha256 sharp cachePath tp sizes w) as (_ & H & _).
    specialize (H Hne).
    by destruct (pipeline sha256 sharp cachePath tp sizes w) as [r w2]. }
  destruct (decide (cachePath = q)) as [<-|Hneq]; [done|].
  apply (fs_wf_below _ cachePath); [done | by rewrite Hgone | done | done].
Qed.

End process.

(** *** Entry names and the widths read back from them *)

Lemma parseInt_leading_digit d c s r :
  (d < 10)%N → c = "."%char ∨ c = "e"%char →
  JS.parseInt (JS.split_0 "-" (String (JS.digit_char d) (String c s) +:+ r))
  = Some (Z.of_N d).
Proof.
  intros Hd Hc.
  change (JS.parseInt
            (JS.split_0 "-" (String (JS.digit_char d) (String c (s +:+ r))))
          = Some (Z.of_N d)).
  cbn [JS.split_0]. rewrite digit_char_not_dash by done.
  rewrite parseInt_digit_first by done. cbn [JS.parse_digits].
  rewrite digit_of_digit_char by done. by destruct Hc as [-> | ->].
Qed.

Lemma Number_toString_pos_large n :
  (10 ^ 21 ≤ n)%N →
  ∃ d c s, (d < 10)%N ∧ (c = "."%char ∨ c = "e"%char) ∧
           JS.Number_toString_pos n = String (JS.digit_char d) (String c s).
Proof.
  intros Hn. destruct (digits_spec n) as (_ & Hall & Hne).
  unfold JS.Number_toString_pos.
  destruct (N.ltb_spec n (10 ^ 21)) as [Hlt|_]; [lia|].
  destruct (JS.digits n) as [|d rest]; [done|].
  apply Forall_cons in Hall as [Hd _].
  destruct (JS.strip_trailing_zeros rest); exists d; [exists "e"%char | exists "."%char];
    eexists; (split; [done|]); (split; [auto | reflexivity]).
Qed.

(** A width from 0 to 10^21 - 1 is read back from the entry name. *)
Lemma size_read_back sha256 size downscaledImage :
  0 ≤ size < 10 ^ 21 →
  JS.parseInt (JS.split_0 "-" (entry_name sha256 (JS.JNum size) downscaledImage))
  = Some size.
Proof.
  intros Hsize. unfold entry_name. cbn [JS.ToString].
  destruct (decide (size = 0)) as [->|Hne]; [done|].
  rewrite Number_toString_small by lia.
  change ("-" +:+ ?s) with (String "-" s).
  destruct (digits_spec (Z.to_N size)) as (_ & Hall & _).
  rewrite split_0_digits by done. rewrite parseInt_digits. f_equal. lia.
Qed.

(** X16. The width [compare] reads from an entry name is the width
    [cacheImages] wrote into it exactly for the widths from 0 to
    10^21 - 1: a negative width is read as NaN, its sign being taken for
    the separator, and a width from 10^21 on as its leading digit, the
    name being in exponent form. *)
Theorem size_roundtrip_exactly
    (sha256 : Buffer → Buffer) (size : Z) (downscaledImage : Buffer) :
  JS.parseInt (JS.split_0 "-" (entry_name sha256 (JS.JNum size) downscaledImage))
  = Some size
  ↔ 0 ≤ size < 10 ^ 21.
Proof.
  destruct (Z_lt_le_dec size 0) as [Hneg|Hpos].
  { split; [|lia]. destruct size as [|p|p]; [lia..|]. intros H. exfalso.
    change (JS.parseInt "" = Some (Z.neg p)) in H. discriminate H. }
  destruct (Z_lt_le_dec size (10 ^ 21)) as [Hlt|Hge].
  { split; [lia|]. intros _. by apply size_read_back. }
  split; [|lia]. intros H. exfalso. unfold entry_name in H. cbn [JS.ToString] in H.
  destruct size as [|p|p]; [lia| |lia]. cbn [JS.Number_toString] in H.
  destruct (Number_toString_pos_large (N.pos p)) as (d & c & s & Hd & Hc & Heq).
  { apply N2Z.inj_le. rewrite N2Z.inj_pow. simpl. lia. }
  rewrite Heq, parseInt_leading_digit in H by done.
  injection H as H. lia.
Qed.

(** X17. Two entries get the same name exactly when their widths and the
    digests of their bytes are the same: different widths never share an
    entry, and the same bytes at the same width are stored once. *)
Theorem entry_name_same_iff
    (sha256 : Buffer → Buffer) (width1 width2 : Z) (bytes1 bytes2 : Buffer) :
  entry_name sha256 (JS.JNum width1) bytes1 = entry_name sha256 (JS.JNum width2) bytes2
  ↔ width1 = width2 ∧ sha256 bytes1 = sha256 bytes2.
Proof.
  split.
  - intros [Htext Hdigest]%entry_name_inj. split; [|done].
    cbn [JS.ToString] in Htext. by apply Number_toString_inj.
  - intros [-> Hdigest]. unfold entry_name. by rewrite Hdigest.
Qed.

(** *** The buckets of the chart *)

Lemma Map_set_push {K V} `{EqDecision K} (m : list (K * list V)) k x :
  let m' := JS.Map_set m k (default [] (JS.Map_get m k) ++ [x]) in
  concat (JS.Map_values m') ≡ₚ x :: concat (JS.Map_values m) ∧
  (Forall (λ kv, kv.2 ≠ []) m → Forall (λ kv, kv.2 ≠ []) m') ∧
  length m' = (if decide (k ∈ JS.Map_keys m) then length m else S (length m)).
Proof.
  unfold JS.Map_values, JS.Map_keys.
  induction m as [|[k' v'] m IH];
    cbn [JS.Map_set JS.Map_get default fmap list_fmap concat length app snd fst].
  - split_and!; [done | by repeat constructor |].
    destruct (decide (k ∈ [])) as [[]%elem_of_nil|]; done.
  - destruct IH as (IH1 & IH2 & IH3). destruct (decide (k' = k)) as [->|Hne];
      cbn [JS.Map_set JS.Map_get default fmap list_fmap concat length app snd fst].
    + split_and!.
      * rewrite <- app_assoc. cbn [app]. by rewrite <- Permutation_middle.
      * intros [_ Hm]%Forall_cons. constructor; [|done]. cbn [snd]. by destruct v'.
      * destruct (decide (k ∈ k :: m.*1)) as [|Hin]; [done|].
        exfalso. apply Hin, list_elem_of_here.
    + split_and!.
      * rewrite IH1. by rewrite <- Permutation_middle.
      * intros [? Hm]%Forall_cons. constructor; [done | by apply IH2].
      * rewrite IH3.
        destruct (decide (k ∈ m.*1)) as [Hin|Hin],
                 (decide (k ∈ k' :: m.*1)) as [Hin'|Hin']; try done.
        -- exfalso. apply Hin'. by apply list_elem_of_further.
        -- exfalso. apply elem_of_cons in Hin' as [?|?]; congruence.
Qed.

(** X18. The buckets [createChart] averages are a partition of the scores
    it is given: no bucket is empty, so no mean is a division of zero by
    zero, and the buckets together hold every score exactly once.  There
    are as many bars as labels, and no more than results. *)
Theorem createChart_buckets_partition (results : list ComparisonResult) :
  let buckets := orderedResults results in
  Forall (λ kv, kv.2 ≠ []) buckets ∧
  concat (JS.Map_values buckets) ≡ₚ score <$> results ∧
  length (data (chart_config results)) = length (labels (chart_config results)) ∧
  (length (labels (chart_config results)) ≤ length results)%nat.
Proof.
  intros buckets.
  assert (Forall (λ kv, kv.2 ≠ []) buckets ∧
          concat (JS.Map_values buckets) ≡ₚ score <$> results ∧
          (length buckets ≤ length results)%nat) as (Hne & Hperm & Hlen).
  { unfold buckets. induction results as [|r rs IH] using rev_ind.
    - by split_and!.
    - unfold orderedResults in *. rewrite fold_left_app. cbn [fold_left].
      set (m := fold_left _ rs []) in *. destruct IH as (IH1 & IH2 & IH3).
      destruct (Map_set_push m (size r) (score r)) as (H1 & H2 & H3).
      cbv zeta in H1, H2, H3. split_and!.
      + by apply H2.
      + rewrite H1, IH2, fmap_app. simpl. by rewrite <- Permutation_cons_append.
      + rewrite H3, length_app. simpl. case_decide; lia. }
  split_and!; [done | done | |].
  - unfold chart_config, JS.Map_keys, JS.Map_values. simpl.
    by rewrite length_map, !length_fmap.
  - unfold chart_config, JS.Map_keys. simpl. by rewrite length_fmap.
Qed.

(** *** From the widths asked for to the bars of the chart *)

Lemma chart_config_labels results :
  labels (chart_config results) = first_seen (size <$> results).
Proof.
  unfold chart_config, JS.Map_keys. simpl. rewrite orderedResults_spec.
  rewrite <- list_fmap_compose. apply list_fmap_id.
Qed.

(** X19. A run over widths from 0 to 10^21 - 1, started on a tree-shaped
    file system, that completes has printed one chart, and every bar of it
    is labelled with one of the widths asked for: no label is NaN, and none
    is a number that was not asked for. *)
Theorem pipeline_labels_are_widths
    (sha256 : Buffer → Buffer) (sharp : path → JS.json → option Buffer)
    (cachePath testdataPath : path) (widths : list Z) (w : World) :
  fs_wf (fs w) = true →
  (∀ z, z ∈ widths → 0 ≤ z < 10 ^ 21) →
  (pipeline sha256 sharp cachePath testdataPath (JS.JNum <$> widths) w).1 = Ok () →
  ∃ rs,
    console (pipeline sha256 sharp cachePath testdataPath (JS.JNum <$> widths) w).2
    = console w ++ [console_log_chart (chart_config rs)] ∧
    ∀ l, l ∈ labels (chart_config rs) → ∃ z, z ∈ widths ∧ l = Some z.
Proof.
  intros Hwf Hrange Hok.
  destruct (pipeline_Ok_inv sha256 sharp cachePath testdataPath (JS.JNum <$> widths) w
              Hok) as [Hbody ->].
  clear Hok. rename Hbody into Hok.
  destruct (pipeline_try sha256 sharp cachePath testdataPath (JS.JNum <$> widths) w)
    as [r w3] eqn:Hrun.
  cbn [fst snd] in *. subst r. unfold pipeline_try in Hrun.
  apply bind_Ok_inv in Hrun as (images & w0 & Hinit & Hrun).
  pose proof (initImages_reads testdataPath w) as Hread.
  rewrite Hinit in Hread. cbn [snd] in Hread. subst w0.
  apply bind_Ok_inv in Hrun as ([] & w1 & Hcache & Hrun).
  destruct (cacheImages_Ok sha256 sharp cachePath images (JS.JNum <$> widths) w w1
              Hwf Hcache) as (Hdir & Hwritten & _).
  destruct (cacheImages_outside sha256 sharp cachePath images (JS.JNum <$> widths) w)
    as (_ & _ & _ & _ & Hcon1).
  rewrite Hcache in Hcon1. cbn [snd] in Hcon1.
  destruct (runAllComparisons_spec cachePath w1 Hdir) as (w2 & Hcmp & _ & Hcon2 & _).
  rewrite (bind_Ok _ _ _ _ _ Hcmp) in Hrun. injection Hrun as <-.
  set (names := entries cachePath (fs w1)) in *.
  set (rows := all_scored (random w1) (draws w1) names names) in *.
  exists (concat (map (map result_of_call) rows)). split.
  { cbn [console with_console]. congruence. }
  intros l. rewrite chart_config_labels, elem_of_first_seen, <- concat_map.
  intros (r & -> & ([[s o] v] & -> & Hin)%list_elem_of_fmap)%list_elem_of_fmap.
  destruct (proj1 (elem_of_all_scored _ _ _ s o _) (ex_intro _ v Hin)) as [_ Ho].
  rewrite comparison_set_NoDup in Ho by apply NoDup_entries.
  apply list_elem_of_filter in Ho as [_ Ho].
  apply elem_of_entries in Ho as [nd Hnd].
  destruct (Hwritten o nd Hnd) as (img & size & b & _ & Hsize & _ & Hname & _).
  apply app_inv_head in Hname. injection Hname as ->.
  apply list_elem_of_fmap in Hsize as (z & -> & Hz).
  exists z. split; [done|]. unfold result_of_call. cbn [size fst snd].
  apply size_read_back. by apply Hrange.
Qed.

(** *** The scenario, run *)

(** Two images at two sizes give four entries, twelve results and two
    buckets of six scores each; the process exits with 0 and the cache root
    is gone. *)
Example scenario_run :
  let run := main Scenario.digest Scenario.codec Scenario.parse Scenario.resolve
               Scenario.cachePath ["node"; "frqt.js"; "data"; "[100,200]"]
               Scenario.start in
  length (entries Scenario.cachePath (fs Scenario.populated)) = 4%nat ∧
  run.1 = 0 ∧
  length (oracle_calls run.2) = 12%nat ∧
  console run.2
  = [console_log_chart {| labels := [Some 100; Some 200];
                          data := [2.5 / 6; 3.5 / 6]%float |}] ∧
  fs run.2 !! Scenario.cachePath = None.
Proof. vm_compute. by split_and!. Qed.

(** The three ways out of the [try] block other than success: discovery
    fails on a missing directory, population fails on an image the codec
    rejects, and both leave no cache root behind. *)
Example scenario_failures :
  let missing := pipeline Scenario.digest Scenario.codec Scenario.cachePath
                   ["nowhere"] Scenario.sizes Scenario.start in
  let broken := pipeline Scenario.digest Scenario.codec Scenario.cachePath
                  ["bad"] Scenario.sizes Scenario.start in
  missing.1 = Throw ENOENT ∧ fs missing.2 !! Scenario.cachePath = None ∧
  broken.1 = Throw CodecError ∧ fs broken.2 !! Scenario.cachePath = None ∧
  fs broken.2 !! ["cache"] = Some Directory.
Proof. vm_compute. by split_and!. Qed.

(** The checks of the first [try] block on five command lines; the last
    one passes them with a size that is no number, and the run completes
    with entries named after [null] and the label NaN. *)
Example scenario_command_lines :
  let run argv := (main Scenario.digest Scenario.codec Scenario.parse
                     Scenario.resolve Scenario.cachePath argv Scenario.start) in
  (run ["node"; "frqt.js"; "data"]).1 = 1 ∧
  (run ["node"; "frqt.js"; "nowhere"; "[100,200]"]).1 = 1 ∧
  (run ["node"; "frqt.js"; "data"; "[100,"]).1 = 1 ∧
  (run ["node"; "frqt.js"; "data"; "7"]).1 = 1 ∧
  console (run ["node"; "frqt.js"; "data"; "7"]).2
  = [console_error "Error parsing arguments:"
       "Sizes argument must be a JSON array of numbers."] ∧
  (run ["node"; "frqt.js"; "data"; "[100,200]"]).1 = 0 ∧
  (run ["node"; "frqt.js"; "data"; "[null]"]).1 = 0 ∧
  console (run ["node"; "frqt.js"; "data"; "[null]"]).2
  = [console_log_chart {| labels := [None]; data := [1 / 2]%float |}].
Proof. vm_compute. by split_and!. Qed.

(** A broken image between two good ones, with the tasks in flight
    writing while the cleanup removes what it listed: the directory is
    listed as [z.jpg], [broken.jpg], [a.jpg]; the two tasks of [z.jpg] have
    written their entries when the first task of [broken.jpg] fails, and the
    tasks of [a.jpg] write theirs behind the cleanup's back.  The run ends
    with [ENOTEMPTY], the process exits with 1, and the cache root stays,
    holding the two entries of [a.jpg]. *)
Example scenario_race :
  let run := pipeline Scenario.digest Scenario.codec Scenario.cachePath
               ["mixed"] Scenario.sizes Scenario.racing in
  (initImages ["mixed"] Scenario.racing).1
  = Ok [["mixed"; "faces"; "z.jpg"]; ["mixed"; "faces"; "broken.jpg"];
        ["mixed"; "faces"; "a.jpg"]] ∧
  (pipeline_try Scenario.digest Scenario.codec Scenario.cachePath
     ["mixed"] Scenario.sizes Scenario.racing).1 = Throw CodecError ∧
  run.1 = Throw ENOTEMPTY ∧
  entries Scenario.cachePath (fs run.2)
  = ["200-c8612e6a7067.jpg"; "100-64612e6a7067.jpg"] ∧
  (main Scenario.digest Scenario.codec Scenario.parse Scenario.resolve
     Scenario.cachePath ["node"; "frqt.js"; "mixed"; "[100,200]"] Scenario.racing).1
  = 1.
Proof. vm_compute. by split_and!. Qed.

(** *** The theorems at the scenario *)

Lemma pipeline_cleanup_race_witness :
  let run := pipeline Scenario.digest Scenario.codec Scenario.cachePath
               ["mixed"] Scenario.sizes Scenario.racing in
  run.1 = Throw ENOTEMPTY ∧ fs run.2 !! Scenario.cachePath = Some Directory ∧
  is_Some (fs run.2 !! (Scenario.cachePath
                        ++ [entry_name Scenario.digest (JS.JNum 100)
                              [Byte.x64; Byte.x61; Byte.x2e; Byte.x6a; Byte.x70;
                               Byte.x67]])).
Proof.
  destruct (pipeline_cleanup_race Scenario.digest Scenario.codec Scenario.cachePath
              ["mixed"] Scenario.sizes Scenario.racing _ _
              (or_introl (conj eq_refl eq_refl))) as (_ & _ & _ & Hrace).
  apply (Hrace 1%nat ["mixed"; "faces"; "a.jpg"] (JS.JNum 100)
           [Byte.x64; Byte.x61; Byte.x2e; Byte.x6a; Byte.x70; Byte.x67]).
  - vm_compute. reflexivity.
  - reflexivity.
  - vm_compute. reflexivity.
  - vm_compute. discriminate.
Defined.

Lemma clearCache_idempotent_witness :
  clearCache Scenario.cachePath Scenario.start = (Ok (), Scenario.start) ∧
  (_ ← clearCache Scenario.cachePath; clearCache Scenario.cachePath) Scenario.start
  = clearCache Scenario.cachePath Scenario.start.
Proof.
  destruct (clearCache_idempotent Scenario.cachePath Scenario.start)
    as (Habsent & _ & _ & Htwice); [vm_compute; reflexivity|].
  split; [|exact Htwice].
  refine (eq_trans (Habsent _) _); vm_compute; reflexivity.
Defined.

Lemma runAllComparisons_pair_count_witness :
  ∃ rs calls w',
    runAllComparisons Scenario.cachePath Scenario.populated = (Ok rs, w') ∧
    oracle_calls w' = calls ∧ length (concat rs) = 12%nat ∧
    (∀ s o v, (s, o, v) ∈ calls → s ≠ o).
Proof.
  destruct (runAllComparisons_pair_count Scenario.cachePath Scenario.populated)
    as (_ & rs & calls & w' & Hrun & Hcalls & _ & Hlen & Hself & _).
  { vm_compute. reflexivity. }
  exists rs, calls, w'. split_and!; [done | exact Hcalls | exact Hlen | done].
Defined.

Lemma compare_result_fields_witness :
  ∃ rs calls w',
    compare "200-bb.jpg" 0 Scenario.listing = (Ok rs, w') ∧
    oracle_calls w' = oracle_calls Scenario.listing ++ calls ∧
    calls.*1 = [("200-bb.jpg", "100-aa.jpg"); ("200-bb.jpg", "100-cc.jpg")] ∧
    Forall2 (λ r c, size r = JS.parseInt (JS.split_0 "-" c.1.2) ∧ score r = c.2)
            rs calls.
Proof.
  apply (compare_result_fields "200-bb.jpg" 0
           ["100-aa.jpg"; "200-bb.jpg"; "100-cc.jpg"] Scenario.listing).
  reflexivity.
Defined.

Lemma cacheImages_content_addressed_witness :
  Forall (λ name,
      ∃ img size bytes,
        img ∈ Scenario.images ∧ size ∈ Scenario.sizes ∧
        Scenario.codec img size = Some bytes ∧
        fs Scenario.populated !! path_join Scenario.cachePath name
        = Some (File bytes) ∧
        name = JS.ToString size +:+ "-" +:+ hex (Scenario.digest bytes) +:+ ".jpg")
    (entries Scenario.cachePath (fs Scenario.populated)).
Proof.
  apply Forall_forall.
  apply (cacheImages_content_addressed Scenario.digest Scenario.codec
           Scenario.images Scenario.cachePath Scenario.sizes Scenario.start).
  - vm_compute. reflexivity.
  - vm_compute. reflexivity.
Defined.

Lemma cacheImages_entry_count_witness :
  length (entries Scenario.cachePath (fs Scenario.populated)) = (2 * 2)%nat.
Proof.
  assert (∀ img : path, img ∈ Scenario.images →
            img = ["data"; "faces"; "a.jpg"] ∨ img = ["data"; "faces"; "b.jpg"])
    as Himages.
  { intros img [->|[->|[]%elem_of_nil]%elem_of_cons]%elem_of_cons; auto. }
  assert (∀ size : JS.json, size ∈ Scenario.sizes →
            size = JS.JNum 100 ∨ size = JS.JNum 200) as Hsizes.
  { intros size [->|[->|[]%elem_of_nil]%elem_of_cons]%elem_of_cons; auto. }
  apply (proj2 (cacheImages_entry_count Scenario.digest Scenario.codec
                  Scenario.images Scenario.cachePath Scenario.sizes Scenario.start
                  ltac:(vm_compute; reflexivity) ltac:(vm_compute; reflexivity))
               [100; 200]).
  - reflexivity.
  - repeat constructor; rewrite ?elem_of_cons, ?elem_of_nil; intuition discriminate.
  - repeat constructor; rewrite ?elem_of_cons, ?elem_of_nil; intuition discriminate.
  - intros img1 img2 size b1 b2 H1 H2 Hs Hne Hb1 Hb2.
    destruct (Himages _ H1) as [->| ->], (Himages _ H2) as [->| ->],
      (Hsizes _ Hs) as [->| ->]; try done;
      vm_compute in Hb1, Hb2; congruence.
  - intros img1 img2 size b1 b2 _ _ _ _ _ Hdigest. exact Hdigest.
Defined.

Lemma size_roundtrip_below_1e21_witness :
  JS.parseInt (JS.split_0 "-" (entry_name Scenario.digest (JS.JNum 100) []))
  = Some 100.
Proof.
  apply (size_roundtrip_below_1e21 Scenario.digest 100 []). lia.
Defined.

Lemma main_accepts_null_size_witness :
  is_array_of_numbers (JS.JArr [JS.JNull]) = false ∧
  parse_args Scenario.parse Scenario.resolve
    ["node"; "frqt.js"; "data"; "[null]"] Scenario.start
  = (Ok (["data"], [JS.JNull]), Scenario.start) ∧
  main Scenario.digest Scenario.codec Scenario.parse Scenario.resolve
    Scenario.cachePath ["node"; "frqt.js"; "data"; "[null]"] Scenario.start
  = (let (r, w2) :=
       pipeline Scenario.digest Scenario.codec Scenario.cachePath ["data"]
         [JS.JNull] Scenario.start
     in (exit_code r, w2)).
Proof.
  apply (main_accepts_null_size Scenario.digest Scenario.codec Scenario.parse
           Scenario.resolve Scenario.cachePath
           ["node"; "frqt.js"; "data"; "[null]"] Scenario.start).
  - reflexivity.
  - vm_compute. by eexists.
  - reflexivity.
Defined.

(** *** The further properties at the scenario *)

Lemma initImages_lists_two_levels_witness :
  (initImages ["data"] Scenario.start).2 = Scenario.start ∧
  NoDup [["data"; "faces"; "b.jpg"]; ["data"; "faces"; "a.jpg"]].
Proof.
  destruct (initImages_lists_two_levels ["data"] Scenario.start
              [["data"; "faces"; "b.jpg"]; ["data"; "faces"; "a.jpg"]])
    as (Hread & Hnd & _).
  { vm_compute. reflexivity. }
  by split.
Defined.

Lemma cacheImages_outcome_witness :
  ∃ img size, img ∈ [["bad"; "faces"; "broken.jpg"]] ∧ size ∈ Scenario.sizes ∧
              Scenario.codec img size = None.
Proof.
  pose proof (cacheImages_outcome Scenario.digest Scenario.codec Scenario.cachePath
                [["bad"; "faces"; "broken.jpg"]] Scenario.sizes Scenario.start) as H.
  assert ((cacheImages Scenario.digest Scenario.codec [["bad"; "faces"; "broken.jpg"]]
             Scenario.cachePath Scenario.sizes Scenario.start).1 = Throw CodecError)
    as E by (vm_compute; reflexivity).
  rewrite E in H. destruct H as [[H _]|[_ H]].
  - vm_compute. reflexivity.
  - discriminate H.
  - exact H.
Defined.

Lemma runAllComparisons_scores_in_order_witness :
  ∃ rs w', runAllComparisons Scenario.cachePath Scenario.populated = (Ok rs, w') ∧
           score <$> concat rs
           = random Scenario.populated
               <$> seq (draws Scenario.populated)
                       (length (entries Scenario.cachePath (fs Scenario.populated))
                        * (length (entries Scenario.cachePath (fs Scenario.populated))
                           - 1)).
Proof.
  apply (runAllComparisons_scores_in_order Scenario.cachePath Scenario.populated).
  vm_compute. reflexivity.
Defined.

Lemma runAllComparisons_both_directions_witness :
  ∃ rs calls w',
    runAllComparisons Scenario.cachePath Scenario.populated = (Ok rs, w') ∧
    oracle_calls w' = oracle_calls Scenario.populated ++ calls ∧
    NoDup (fst <$> calls) ∧
    (∀ s o, (s, o) ∈ fst <$> calls ↔
            s ∈ entries Scenario.cachePath (fs Scenario.populated) ∧
            o ∈ entries Scenario.cachePath (fs Scenario.populated) ∧ s ≠ o) ∧
    (∀ s o, (s, o) ∈ fst <$> calls → (o, s) ∈ fst <$> calls).
Proof.
  apply (runAllComparisons_both_directions Scenario.cachePath Scenario.populated).
  vm_compute. reflexivity.
Defined.

Lemma compare_drops_first_occurrence_witness :
  ∃ rs others calls w',
    compare "200-bb.jpg" 0 Scenario.listing = (Ok rs, w') ∧
    oracle_calls w' = oracle_calls Scenario.listing ++ calls ∧
    fst <$> calls = (λ o, ("200-bb.jpg", o)) <$> others ∧
    length rs = length others ∧
    (("200-bb.jpg" ∉ ["100-aa.jpg"; "200-bb.jpg"; "100-cc.jpg"]) ∧
     others = ["100-aa.jpg"; "200-bb.jpg"; "100-cc.jpg"] ∧
     heap w' = heap Scenario.listing ∨
     (∃ l1 l2, ["100-aa.jpg"; "200-bb.jpg"; "100-cc.jpg"] = l1 ++ "200-bb.jpg" :: l2 ∧
               ("200-bb.jpg" ∉ l1) ∧ others = l1 ++ l2 ∧
               heap w' = heap Scenario.listing ++ [others])).
Proof.
  apply (compare_drops_first_occurrence "200-bb.jpg" 0
           ["100-aa.jpg"; "200-bb.jpg"; "100-cc.jpg"] Scenario.listing).
  reflexivity.
Defined.

Lemma compare_size_not_negative_witness :
  ∃ rs w', compare "200-bb.jpg" 0 Scenario.listing = (Ok rs, w') ∧
           Forall (λ r, ∀ z, size r = Some z → 0 ≤ z) rs.
Proof.
  apply (compare_size_not_negative "200-bb.jpg" 0
           ["100-aa.jpg"; "200-bb.jpg"; "100-cc.jpg"] Scenario.listing).
  reflexivity.
Defined.

Lemma clearCache_removes_subtree_witness :
  let run := clearCache Scenario.cachePath Scenario.populated in
  run.1 = Ok () ∧ fs_wf (fs run.2) = true ∧
  fs run.2 !! (Scenario.cachePath ++ ["100-aa.jpg"]) = None ∧
  console run.2 = console Scenario.populated.
Proof.
  destruct (clearCache_removes_subtree Scenario.cachePath Scenario.populated)
    as (Hrun & Htree & Hfiles & _ & _ & _ & Hconsole); [vm_compute; reflexivity|].
  split_and!; [|exact Htree| |exact Hconsole].
  - destruct Hrun as [(E & _)|(E & _)]; [|exact E]. vm_compute in E. discriminate E.
  - specialize (Hfiles (Scenario.cachePath ++ ["100-aa.jpg"])).
    rewrite decide_True in Hfiles; [exact Hfiles | by apply prefix_app_r].
Defined.

Lemma pipeline_fails_only_early_witness :
  ∃ e', early_outcome Scenario.digest Scenario.codec Scenario.cachePath ["bad"]
          Scenario.sizes Scenario.start (Throw e') ∧
        (CodecError = e' ∨ CodecError = ENOTDIR ∨ CodecError = ENOTEMPTY).
Proof.
  destruct (pipeline_fails_only_early Scenario.digest Scenario.codec Scenario.cachePath
              ["bad"] Scenario.sizes Scenario.start _ (or_introl eq_refl)) as [H _].
  assert ((pipeline Scenario.digest Scenario.codec Scenario.cachePath ["bad"]
             Scenario.sizes Scenario.start).1 = Throw CodecError) as E
    by (vm_compute; reflexivity).
  rewrite E in H. exact H.
Defined.

Lemma pipeline_file_effects_witness :
  fs_wf (fs (pipeline Scenario.digest Scenario.codec Scenario.cachePath ["data"]
               Scenario.sizes Scenario.start).2) = true ∧
  fs (pipeline Scenario.digest Scenario.codec Scenario.cachePath ["data"]
        Scenario.sizes Scenario.start).2 !! (Scenario.cachePath ++ ["100-aa.jpg"])
  = None.
Proof.
  destruct (pipeline_file_effects Scenario.digest Scenario.codec Scenario.cachePath
              ["data"] Scenario.sizes Scenario.start
              ltac:(vm_compute; reflexivity) _ (or_introl eq_refl))
    as (Htree & _ & Hgone).
  split; [exact Htree|].
  apply Hgone; [vm_compute; discriminate | by apply prefix_app_r].
Defined.

Lemma parse_args_accepts_numbers_witness :
  parse_args Scenario.parse Scenario.resolve
    ["node"; "frqt.js"; "data"; "[100,200]"] Scenario.start
  = (Ok (["data"], [JS.JNum 100; JS.JNum 200]), Scenario.start).
Proof.
  apply (parse_args_accepts_numbers Scenario.parse Scenario.resolve
           ["node"; "frqt.js"; "data"; "[100,200]"] Scenario.start
           (JS.JArr [JS.JNum 100; JS.JNum 200])).
  - simpl. lia.
  - vm_compute. by eexists.
  - reflexivity.
  - reflexivity.
Defined.

Lemma pipeline_labels_are_widths_witness :
  ∃ rs,
    console (pipeline Scenario.digest Scenario.codec Scenario.cachePath ["data"]
               (JS.JNum <$> [100; 200]) Scenario.start).2
    = console Scenario.start ++ [console_log_chart (chart_config rs)] ∧
    ∀ l, l ∈ labels (chart_config rs) → ∃ z, z ∈ [100; 200] ∧ l = Some z.
Proof.
  apply (pipeline_labels_are_widths Scenario.digest Scenario.codec Scenario.cachePath
           ["data"] [100; 200] Scenario.start).
  - vm_compute. reflexivity.
  - intros z [->|[->|[]%elem_of_nil]%elem_of_cons]%elem_of_cons; lia.
  - vm_compute. reflexivity.
Defined.
